(** * The asynchronous mutex (class [Mutex])

    A shallow embedding of [class Mutex] (methods [lock], [unlock], [with])
    together with the small part of the JavaScript promise runtime the class
    relies on: a heap of promises, their reactions, and the microtask queue.

    The program is single threaded: every method body below runs to
    completion as one function on the machine state; interleaving only
    happens between jobs of the microtask queue and between calls that the
    surrounding application makes.

    Two further parts embed what the decoration modal lists
    ([ChangeDecorationModal], [SectionedGridList]) and how the settings page
    sorts the plugins into its two grids and switches them on and off
    ([depMap], [dependencyCheck], [pluginFilter], [toggleEnabled]). *)

From stdpp Require Import base list strings relations gmap.
From Stdlib Require Import ZArith Lia.

Set Default Proof Using "Type".

(** ** Values and promises *)

(** A promise is named by its index in the heap (its order of creation). *)
Abbreviation pid := nat (only parsing).

(** Plain JavaScript values, none of which is a promise. *)
Inductive value :=
  | VUndefined
  | VNum (n : Z)
  | VStr (s : string).

(** What a function hands back: a plain value, or a promise object
    ([ret instanceof Promise] holds exactly for [Ref]). *)
Inductive result :=
  | Plain (v : value)
  | Ref (p : pid).

Inductive outcome :=
  | Fulfilled (v : value)
  | Rejected (e : value).

Inductive pstate :=
  | Pending
  | Settled (o : outcome).

(** How a call of a JavaScript function ends. *)
Inductive completion :=
  | Returned (r : result)
  | Threw (e : value).

(** The argument [cb] of [with] is a zero-argument function.  [with] only
    looks at how a call of it ends, so an action is described by that: it
    throws, it returns a value that is no promise, or it returns a promise
    of its own, which exists in the state [s] when the call returns; when
    [s] is [Pending] the surrounding application settles that promise later
    ([env_settle]).  The body of an action does not call into the mutex. *)
Inductive action :=
  | ActThrow (e : value)
  | ActReturn (v : value)
  | ActAsync (s : pstate).

(** The closures the class creates, defunctionalised.
    - [CbBody cb] is the arrow function handed to [then] in [with];
    - [CbUnlock] is the inner [() => { this.unlock(); }]. *)
Inductive callback :=
  | CbBody (cb : action)
  | CbUnlock.

(** What is attached to a promise.
    - [OnFulfilled f d]: registered by [p.then(f)], whose result is the
      derived promise [d]; there is no rejection handler, so a rejection of
      [p] is passed on to [d];
    - [Forward t]: the pair of resolving functions of [t]; this is what an
      [await] followed by [return] registers inside the async function
      whose promise is [t], and what adopting a thenable registers. *)
Inductive reaction :=
  | OnFulfilled (f : callback) (d : pid)
  | Forward (t : pid).

Inductive job :=
  | JReaction (r : reaction) (o : outcome)
  | JThenable (thenable target : pid).

Record promise := Promise {
  state : pstate;
  reactions : list reaction
}.

(** Calls observed, in the order they happen.  The trace is only ever
    appended to; no method reads it. *)
Inductive event :=
  | EvLock (h : pid)
  | EvUnlock
  | EvInvoke (cb : action)
  | EvSettle (p : pid) (o : outcome).

#[global] Instance value_eq_dec : EqDecision value.
Proof. solve_decision. Defined.
#[global] Instance outcome_eq_dec : EqDecision outcome.
Proof. solve_decision. Defined.
#[global] Instance pstate_eq_dec : EqDecision pstate.
Proof. solve_decision. Defined.

(** ** The machine state *)

(** [class Mutex]: the fields [locked] and [queue]; a queued entry is the
    [resolve] function of the promise it names. *)
Record Mutex := mkMutex {
  locked : bool;
  queue : list pid
}.

Record machine := Machine {
  mutex : Mutex;
  heap : list promise;
  jobs : list job;
  trace : list event
}.

(** [new Mutex()] *)
Definition fresh_mutex : Mutex := mkMutex false [].

Definition init : machine := Machine fresh_mutex [] [] [].

(** ** A state monad over the machine *)

Definition M (A : Type) : Type := machine → A * machine.

#[global] Instance M_ret : MRet M := λ A a m, (a, m).
#[global] Instance M_bind : MBind M :=
  λ A B f c m, let '(a, m') := c m in f a m'.

Definition exec {A} (c : M A) (m : machine) : machine := (c m).2.
Definition eval {A} (c : M A) (m : machine) : A := (c m).1.

Definition get_mutex : M Mutex := λ m, (mutex m, m).

Definition set_locked (b : bool) : M unit := λ m,
  (tt, Machine (mkMutex b (queue (mutex m))) (heap m) (jobs m) (trace m)).

(** [this.queue.push(r)] *)
Definition push (r : pid) : M unit := λ m,
  (tt, Machine (mkMutex (locked (mutex m)) (queue (mutex m) ++ [r]))
               (heap m) (jobs m) (trace m)).

(** [this.queue.shift()]: [undefined] on an empty array. *)
Definition shift : M (option pid) := λ m,
  match queue (mutex m) with
  | [] => (None, m)
  | r :: q => (Some r, Machine (mkMutex (locked (mutex m)) q)
                               (heap m) (jobs m) (trace m))
  end.

Definition emit (e : event) : M unit := λ m,
  (tt, Machine (mutex m) (heap m) (jobs m) (trace m ++ [e])).

Definition enqueue (j : job) : M unit := λ m,
  (tt, Machine (mutex m) (heap m) (jobs m ++ [j]) (trace m)).

(** ** The promise runtime *)

Definition state_of (m : machine) (p : pid) : pstate :=
  match heap m !! p with
  | Some pr => state pr
  | None => Pending
  end.

Definition new_promise (s : pstate) : M pid := λ m,
  (length (heap m),
   Machine (mutex m) (heap m ++ [Promise s []]) (jobs m) (trace m)).

(** Settling a pending promise schedules its reactions; settling a promise
    that is settled already does nothing. *)
Definition settle (p : pid) (o : outcome) : M unit := λ m,
  match heap m !! p with
  | Some (Promise Pending rs) =>
      (tt, Machine (mutex m) (<[p := Promise (Settled o) []]> (heap m))
                   (jobs m ++ map (λ r, JReaction r o) rs)
                   (trace m ++ [EvSettle p o]))
  | _ => (tt, m)
  end.

(** The [resolve] function of promise [p] applied to [r]: a promise is
    adopted in a later job, a plain value fulfils [p]. *)
Definition resolve_fn (p : pid) (r : result) : M unit :=
  match r with
  | Ref q => enqueue (JThenable q p)
  | Plain v => settle p (Fulfilled v)
  end.

Definition subscribe (p : pid) (r : reaction) : M unit := λ m,
  match heap m !! p with
  | Some (Promise Pending rs) =>
      (tt, Machine (mutex m) (<[p := Promise Pending (rs ++ [r])]> (heap m))
                   (jobs m) (trace m))
  | Some (Promise (Settled o) _) =>
      (tt, Machine (mutex m) (heap m) (jobs m ++ [JReaction r o]) (trace m))
  | None => (tt, m)
  end.

(** [p.then(f)] *)
Definition then_ (p : pid) (f : callback) : M pid :=
  d ← new_promise Pending;
  subscribe p (OnFulfilled f d);;
  mret d.

(** ** The methods of [Mutex] *)

(** In [lock] and [unlock] the [emit] line records the call in the trace;
    the other lines are the statements of the method.

    [lock() { if (this.locked) { return new Promise<void>(resolve => {
    this.queue.push(resolve); }); } else { this.locked = true; return
    Promise.resolve(); } }] *)
Definition lock : M pid :=
  mx ← get_mutex;
  h ← (if locked mx then
         p ← new_promise Pending;
         push p;;
         mret p
       else
         set_locked true;;
         new_promise (Settled (Fulfilled VUndefined)));
  emit (EvLock h);;
  mret h.

(** [unlock() { if (this.queue.length) { const resolve =
    this.queue.shift(); if (resolve) { resolve(); } } else { this.locked =
    false; } }] *)
Definition unlock : M unit :=
  emit EvUnlock;;
  mx ← get_mutex;
  if negb (length (queue mx) =? 0) then
    resolve ← shift;
    match resolve with
    | Some r => resolve_fn r (Plain VUndefined)
    | None => mret tt
    end
  else
    set_locked false.

(** A call of the action, [cb()]. *)
Definition invoke (cb : action) : M completion :=
  emit (EvInvoke cb);;
  match cb with
  | ActThrow e => mret (Threw e)
  | ActReturn v => mret (Returned (Plain v))
  | ActAsync s => p ← new_promise s; mret (Returned (Ref p))
  end.

(** A call of one of the two closures.  The first is
    [() => { const ret = cb(); if (ret instanceof Promise) { return
    ret.then(() => { this.unlock(); }); } this.unlock(); }]. *)
Definition call (f : callback) : M completion :=
  match f with
  | CbBody cb =>
      c ← invoke cb;
      match c with
      | Threw e => mret (Threw e)
      | Returned (Ref ret) =>
          d ← then_ ret CbUnlock;
          mret (Returned (Ref d))
      | Returned (Plain _) =>
          unlock;;
          mret (Returned (Plain VUndefined))
      end
  | CbUnlock =>
      unlock;;
      mret (Returned (Plain VUndefined))
  end.

(** [async with(cb) { return await this.lock().then(() => ...); }]: the
    body runs up to the [await] when [with] is called; [pw] is the promise
    of the async function, which is what the caller gets, and which the
    [await] followed by [return] settles like the promise from [then]. *)
Definition with_ (cb : action) : M pid :=
  pw ← new_promise Pending;
  pl ← lock;
  pt ← then_ pl (CbBody cb);
  subscribe pt (Forward pw);;
  mret pw.

(** ** Running the microtask queue *)

Definition run_job (j : job) : M unit :=
  match j with
  | JReaction (OnFulfilled f d) (Fulfilled _) =>
      c ← call f;
      match c with
      | Returned r => resolve_fn d r
      | Threw e => settle d (Rejected e)
      end
  | JReaction (OnFulfilled _ d) (Rejected e) => settle d (Rejected e)
  | JReaction (Forward t) (Fulfilled v) => resolve_fn t (Plain v)
  | JReaction (Forward t) (Rejected e) => settle t (Rejected e)
  | JThenable q t => subscribe q (Forward t)
  end.

(** The job at the front of the queue, if there is one. *)
Definition tick : M unit := λ m,
  match jobs m with
  | [] => (tt, m)
  | j :: js => run_job j (Machine (mutex m) (heap m) js (trace m))
  end.

(** Run jobs until none is left, at most [fuel] of them. *)
Fixpoint drain (fuel : nat) (m : machine) : machine :=
  match fuel with
  | 0 => m
  | S n =>
      match jobs m with
      | [] => m
      | _ :: _ => drain n (exec tick m)
      end
  end.

(** ** What the surrounding application can do *)

(** The application settles promises of its own.  The field [queue] is
    private, so the one thing it cannot reach is a resolving function that
    sits in the queue. *)
Definition env_settle (p : pid) (o : outcome) : M unit := λ m,
  if bool_decide (p ∈ queue (mutex m)) then (tt, m) else settle p o m.

Inductive op :=
  | OLock
  | OUnlock
  | OWith (cb : action)
  | OTick
  | OSettle (p : pid) (o : outcome).

Definition step (o : op) : M unit :=
  match o with
  | OLock => lock;; mret tt
  | OUnlock => unlock
  | OWith cb => with_ cb;; mret tt
  | OTick => tick
  | OSettle p o => env_settle p o
  end.

Definition run (os : list op) (m : machine) : machine :=
  foldl (λ m o, exec (step o) m) m os.

(** ** Observations *)

Definition idle (m : machine) : Prop := jobs m = [].

Definition granted (m : machine) (h : pid) : Prop :=
  state_of m h = Settled (Fulfilled VUndefined).

Definition pending (m : machine) (h : pid) : Prop :=
  state_of m h = Pending.

Definition rejected (m : machine) (h : pid) : Prop :=
  ∃ e, state_of m h = Settled (Rejected e).

(** Number of calls of [unlock] in a trace. *)
Fixpoint unlocks (tr : list event) : nat :=
  match tr with
  | [] => 0
  | EvUnlock :: tr => S (unlocks tr)
  | _ :: tr => unlocks tr
  end.

(** Number of calls of the action [cb] in a trace. *)
Fixpoint invocations (tr : list event) : nat :=
  match tr with
  | [] => 0
  | EvInvoke _ :: tr => S (invocations tr)
  | _ :: tr => invocations tr
  end.

(** ** Well-formed states *)

Definition rtarget (r : reaction) : pid :=
  match r with
  | OnFulfilled _ d => d
  | Forward t => t
  end.

Definition jtarget (j : job) : pid :=
  match j with
  | JReaction r _ => rtarget r
  | JThenable _ t => t
  end.

(** The promises some pending reaction or job will settle. *)
Definition targets (m : machine) : list pid :=
  (jtarget <$> jobs m) ++ (heap m ≫= λ pr, rtarget <$> reactions pr).

(** [t] is allocated and its resolving function is not in the queue. *)
Definition ok (m : machine) (t : pid) : Prop :=
  t < length (heap m) ∧ t ∉ queue (mutex m).

Record wf (m : machine) : Prop := mkWf {
  wf_queue : ∀ p, p ∈ queue (mutex m) →
             ∃ rs, heap m !! p = Some (Promise Pending rs);
  wf_nodup : NoDup (queue (mutex m));
  wf_targets : ∀ t, t ∈ targets m → ok m t;
  wf_free : locked (mutex m) = false → queue (mutex m) = []
}.

(** The heap only grows, and what enters the queue is newly allocated. *)
Definition ext (m m' : machine) : Prop :=
  length (heap m) ≤ length (heap m') ∧
  ∀ p, p ∈ queue (mutex m') → p ∈ queue (mutex m) ∨ length (heap m) ≤ p.

(** The steps every operation is made of. *)
Inductive atomic : machine → machine → Prop :=
  | at_lock m : atomic m (exec lock m)
  | at_unlock m : atomic m (exec unlock m)
  | at_invoke m cb : atomic m (exec (emit (EvInvoke cb)) m)
  | at_new m s : atomic m (exec (new_promise s) m)
  | at_subscribe m p r :
      ok m (rtarget r) → atomic m (exec (subscribe p r) m)
  | at_settle m p o :
      p ∉ queue (mutex m) → atomic m (exec (settle p o) m)
  | at_enqueue m j :
      ok m (jtarget j) → atomic m (exec (enqueue j) m)
  | at_dequeue m j js :
      jobs m = j :: js →
      atomic m (Machine (mutex m) (heap m) js (trace m)).

Definition steps : machine → machine → Prop := rtc atomic.

(** [m] is reached from the well-formed [m0]. *)
Definition good (m0 m : machine) : Prop := steps m0 m ∧ wf m.

(** ** Callers that pair every [lock] with one [unlock] *)

(** A caller is named by the handle its [lock] call returned.  [arrived]
    lists the handles in the order of the calls, [released] those whose
    caller has called [unlock]. *)
Record clients := Clients {
  mach : machine;
  arrived : list pid;
  released : list pid
}.

Inductive request :=
  | Acquire
  | Release (h : pid).

Definition holds (c : clients) (h : pid) : Prop :=
  h ∈ arrived c ∧ granted (mach c) h ∧ h ∉ released c.

#[global] Instance holds_dec c h : Decision (holds c h).
Proof. unfold holds, granted. apply _. Defined.

(** A release is the call of [unlock] by a caller that holds the lock. *)
Definition client_step (r : request) (c : clients) : option clients :=
  match r with
  | Acquire =>
      let '(h, m') := lock (mach c) in
      Some (Clients m' (arrived c ++ [h]) (released c))
  | Release h =>
      if decide (holds c h)
      then Some (Clients (exec unlock (mach c)) (arrived c) (released c ++ [h]))
      else None
  end.

Fixpoint client_run (rs : list request) (c : clients) : option clients :=
  match rs with
  | [] => Some c
  | r :: rs =>
      match client_step r c with
      | Some c' => client_run rs c'
      | None => None
      end
  end.

Definition clients_init : clients := Clients init [] [].

(** The same calls without the check: any caller may call [unlock]. *)
Definition unchecked_step (r : request) (c : clients) : clients :=
  match r with
  | Acquire =>
      let '(h, m') := lock (mach c) in
      Clients m' (arrived c ++ [h]) (released c)
  | Release h =>
      Clients (exec unlock (mach c)) (arrived c) (released c ++ [h])
  end.

Definition unchecked_run (rs : list request) (c : clients) : clients :=
  foldl (λ c r, unchecked_step r c) c rs.

(** The handles in order of arrival are: those of the callers that have
    released, then the holder if the mutex is held, then the waiters. *)
Definition cinv (c : clients) : Prop :=
  wf (mach c) ∧
  NoDup (arrived c) ∧
  (∀ h, h ∈ arrived c → h < length (heap (mach c))) ∧
  ∃ cur,
    arrived c = released c ++ cur ++ queue (mutex (mach c)) ∧
    (∀ h, h ∈ released c ++ cur → granted (mach c) h) ∧
    (if locked (mutex (mach c)) then ∃ h, cur = [h] else cur = []).

(** ** States met while [with] runs *)

(** No job is queued and nobody waits; the mutex is free or has a holder. *)
Definition at_rest (hp : list promise) (tr : list event) : machine :=
  Machine fresh_mutex hp [] tr.

Definition held (hp : list promise) (tr : list event) : machine :=
  Machine (mkMutex true []) hp [] tr.

Definition undef : value := VUndefined.

Definition fulfilled (v : value) : promise :=
  Promise (Settled (Fulfilled v)) [].

Definition failed (e : value) : promise :=
  Promise (Settled (Rejected e)) [].

(** [with] has been called on heap [hp] while the mutex was held: its
    resolving function is in the queue, behind [q]. *)
Definition queued_state (q : list pid) (hp : list promise)
    (tr : list event) (cb : action) : machine :=
  Machine (mkMutex true (q ++ [length hp + 1]))
    (hp ++ [Promise Pending [];
            Promise Pending [OnFulfilled (CbBody cb) (length hp + 2)];
            Promise Pending [Forward (length hp)]]) []
    tr.

(** [with] has been called on heap [hp] and its handle from [lock] is
    fulfilled: the job that will call the action is queued. *)
Definition granted_state (hp : list promise) (tr : list event)
    (cb : action) : machine :=
  Machine (mkMutex true [])
    (hp ++ [Promise Pending []; fulfilled undef;
            Promise Pending [Forward (length hp)]])
    [JReaction (OnFulfilled (CbBody cb) (length hp + 2)) (Fulfilled undef)]
    tr.

(** The action has returned a pending promise, number [length hp + 3];
    [with] waits for it. *)
Definition waiting (hp : list promise) (tr : list event) : machine :=
  Machine (mkMutex true [])
    (hp ++ [Promise Pending []; fulfilled undef;
            Promise Pending [Forward (length hp)];
            Promise Pending [OnFulfilled CbUnlock (length hp + 4)];
            Promise Pending [Forward (length hp + 2)]]) []
    tr.

(** The holder of the mutex, if there was one when [with] was called on
    [m], calls [unlock]. *)
Definition holder_unlocks (m : machine) : M unit :=
  if locked (mutex m) then unlock else mret tt.

(** ** A mutex that nobody will release *)

(** A job that runs no callback of the class. *)
Definition inert_job (j : job) : Prop :=
  match j with
  | JReaction (OnFulfilled _ _) _ => False
  | _ => True
  end.

Definition is_forward (r : reaction) : Prop :=
  match r with
  | Forward _ => True
  | OnFulfilled _ _ => False
  end.

(** The mutex is held, and the only callbacks left are those of calls of
    [with] that wait in the queue. *)
Definition stuck (m : machine) : Prop :=
  wf m ∧
  locked (mutex m) = true ∧
  (∀ j, j ∈ jobs m → inert_job j) ∧
  (∀ p pr r, heap m !! p = Some pr → r ∈ reactions pr →
             is_forward r ∨ p ∈ queue (mutex m)).

(** Every operation but a direct call of [unlock]. *)
Definition indirect (o : op) : Prop :=
  match o with
  | OUnlock => False
  | _ => True
  end.

(** ** Repeated calls *)

(** [n] calls of [c], one after the other. *)
Fixpoint repeat_call {A} (n : nat) (c : M A) (m : machine) : machine :=
  match n with
  | 0 => m
  | S n => repeat_call n c (exec c m)
  end.

(** ** Using the mutex only through [with] *)

(** Number of calls of [lock] in a trace. *)
Fixpoint locks (tr : list event) : nat :=
  match tr with
  | [] => 0
  | EvLock _ :: tr => S (locks tr)
  | _ :: tr => locks tr
  end.

(** The callback a reaction would run on fulfilment, if any. *)
Definition cb_of (r : reaction) : option callback :=
  match r with
  | OnFulfilled f _ => Some f
  | Forward _ => None
  end.

Definition cbs (rs : list reaction) : list callback := omap cb_of rs.

(** The callback a queued job will run, if any. *)
Definition live (j : job) : option callback :=
  match j with
  | JReaction (OnFulfilled f _) (Fulfilled _) => Some f
  | _ => None
  end.

(** Where the callbacks of the class are: [J] are those of the queued
    jobs; every promise in the mutex's queue carries the body of one call
    of [with], whose action satisfies [P]; [U] is the promise of the running
    action, which carries the call of [unlock]; [n] actions have been called
    and not yet followed by [unlock]; [a] calls of [with] hold a fulfilled
    handle and have not called their action yet. *)
Record shape (P : action → Prop) (L : bool) (J : list callback)
    (U : option pid) (n a : nat) (m : machine) : Prop := mkShape {
  sh_wf : wf m;
  sh_locked : locked (mutex m) = L;
  sh_jobs : omap live (jobs m) = J;
  sh_queue : ∀ p pr, heap m !! p = Some pr → p ∈ queue (mutex m) →
             ∃ cb, P cb ∧ cbs (reactions pr) = [CbBody cb];
  sh_other : ∀ p pr, heap m !! p = Some pr → p ∉ queue (mutex m) →
             cbs (reactions pr) =
               if decide (U = Some p) then [CbUnlock] else [];
  sh_running : ∀ pa, U = Some pa →
               (pa ∉ queue (mutex m)) ∧
               (∃ rs, heap m !! pa = Some (Promise Pending rs));
  sh_count : invocations (trace m) = unlocks (trace m) + n;
  sh_locks : locks (trace m) =
             invocations (trace m) + length (queue (mutex m)) + a
}.

(** What the one call of [with] that has the mutex is doing. *)
Inductive phase :=
  | Free
  | Armed (cb : action)
  | Running (pa : pid)
  | Releasing
  | Stuck.

Definition serial (P : action → Prop) (ph : phase) (m : machine) : Prop :=
  match ph with
  | Free => shape P false [] None 0 0 m
  | Armed cb => P cb ∧ shape P true [CbBody cb] None 0 1 m
  | Running pa => shape P true [] (Some pa) 1 0 m
  | Releasing => shape P true [CbUnlock] None 1 0 m
  | Stuck => shape P true [] None 1 0 m
  end.

(** The phases in which the mutex will be released without further help. *)
Definition calm (ph : phase) : Prop :=
  match ph with
  | Running _ | Stuck => False
  | _ => True
  end.

(** An action that has completed normally when its call returns, like
    [async () => (previousState = state, void 0)] of [useBearStore]. *)
Definition completes_at_once (cb : action) : Prop :=
  match cb with
  | ActReturn _ | ActAsync (Settled (Fulfilled _)) => True
  | _ => False
  end.

(** The operations of an application that uses the mutex through [with]
    only, with actions that satisfy [P]. *)
Definition with_only (P : action → Prop) (o : op) : Prop :=
  match o with
  | OWith cb => P cb
  | OTick | OSettle _ _ => True
  | OLock | OUnlock => False
  end.

(** ** The work left in a state *)

(** An upper bound for the number of jobs a callback, a reaction and a job
    stand for: the closure of [with] subscribes [unlock] to the action's
    promise and has the promise it returns adopted, which are three jobs. *)
Definition cb_weight (f : callback) : nat :=
  match f with
  | CbBody _ => 3
  | CbUnlock => 0
  end.

Definition reaction_weight (r : reaction) : nat :=
  match r with
  | OnFulfilled f _ => S (cb_weight f)
  | Forward _ => 1
  end.

Definition job_weight (j : job) : nat :=
  match j with
  | JReaction r _ => reaction_weight r
  | JThenable _ _ => 2
  end.

Definition promise_weight (pr : promise) : nat :=
  sum_list_with reaction_weight (reactions pr).

Definition weight (m : machine) : nat :=
  sum_list_with job_weight (jobs m) + sum_list_with promise_weight (heap m).

(** ** The order in which actions run *)

(** The actions called, in the order of the calls. *)
Fixpoint invoked (tr : list event) : list action :=
  match tr with
  | [] => []
  | EvInvoke cb :: tr => cb :: invoked tr
  | _ :: tr => invoked tr
  end.

(** The actions passed to [with], in the order of the calls. *)
Definition submitted (os : list op) : list action :=
  omap (λ o, match o with OWith cb => Some cb | _ => None end) os.

Definition body_of (f : callback) : option action :=
  match f with
  | CbBody cb => Some cb
  | CbUnlock => None
  end.

(** The callbacks subscribed to promise [p]. *)
Definition promise_cbs (m : machine) (p : pid) : list callback :=
  match heap m !! p with
  | Some pr => cbs (reactions pr)
  | None => []
  end.

(** The actions that wait for their call: those of the queued jobs, then
    those of the calls of [with] in the mutex's queue. *)
Definition pending_actions (m : machine) : list action :=
  omap body_of (omap live (jobs m) ++ (queue (mutex m) ≫= promise_cbs m)).

Definition fifo (W : list action) (m : machine) : Prop :=
  invoked (trace m) ++ pending_actions m = W.

(** * The decoration modal *)

(** The component [ChangeDecorationModal] and the list it is shown with,
    [SectionedGridList].  Of a decoration the component reads the field
    [hash] to tell its own decorations from those of the presets; the
    helper [cl] and the style sheet of the scroller come from elsewhere. *)

#[local] Set Warnings "-register-all".

(** What the components render. *)
Inductive element (D : Type) :=
  | EFragment (children : list (element D))
  | EDiv (className : option string) (children : list (element D))
  | EFormTitle (text : string)
  | EDecoration (className : string) (decoration : D).

#[global] Arguments EFragment {D} children.
#[global] Arguments EDiv {D} className children.
#[global] Arguments EFormTitle {D} text.
#[global] Arguments EDecoration {D} className decoration.

(** The decorations shown, in the order of the document. *)
Fixpoint shown {D} (e : element D) : list D :=
  match e with
  | EFragment cs | EDiv _ cs => cs ≫= shown
  | EFormTitle _ => []
  | EDecoration _ d => [d]
  end.

(** The titles shown, in the order of the document. *)
Fixpoint titles {D} (e : element D) : list string :=
  match e with
  | EFragment cs | EDiv _ cs => cs ≫= titles
  | EFormTitle t => [t]
  | EDecoration _ _ => []
  end.

(** The elements with nothing in them. *)
Fixpoint fragments {D} (e : element D) : nat :=
  match e with
  | EFragment cs => S (sum_list_with fragments cs)
  | EDiv _ cs => sum_list_with fragments cs
  | EFormTitle _ | EDecoration _ _ => 0
  end.

Section SectionedGridList.
Context {D S I : Type}.
Variable cl : string → string.
Variable thin : string.
Variable items : S → list I.
Variable renderItem : I → element D.
Variable renderSectionHeader : S → element D.

(** [<div className={cl("sectioned-grid-list-grid")}>
    {props.items.map(props.renderItem)}</div>] *)
Definition Grid (its : list I) : element D :=
  EDiv (Some (cl "sectioned-grid-list-grid")) (renderItem <$> its).

(** [props.sections.map(section => <div ...>
    {props.renderSectionHeader(section)} <Grid renderItem={props.renderItem}
    items={section.items} /></div>)] inside the container. *)
Definition SectionedGridList (sections : list S) : element D :=
  EDiv (Some (cl "sectioned-grid-list-container" +:+ " " +:+ thin))
    ((λ section,
        EDiv (Some (cl "sectioned-grid-list-section"))
          [renderSectionHeader section; Grid (items section)]) <$> sections).
End SectionedGridList.

Record Preset (D : Type) := mkPreset {
  preset_id : string;
  preset_name : string;
  preset_description : option string;
  preset_decorations : list D;
  preset_authorIds : list string
}.

#[global] Arguments mkPreset {D}.
#[global] Arguments preset_id {D}.
#[global] Arguments preset_name {D}.
#[global] Arguments preset_description {D}.
#[global] Arguments preset_decorations {D}.
#[global] Arguments preset_authorIds {D}.

(** [("none" | "create" | Decoration)] *)
Inductive Item (D : Type) :=
  | ItemNone
  | ItemCreate
  | ItemDecoration (d : D).

#[global] Arguments ItemNone {D}.
#[global] Arguments ItemCreate {D}.
#[global] Arguments ItemDecoration {D} d.

Record GridSection (D : Type) := mkGridSection {
  title : string;
  subtitle : option string;
  itemKeyPrefix : string;
  section_items : list (Item D);
  authorIds : option (list string)
}.

#[global] Arguments mkGridSection {D}.
#[global] Arguments title {D}.
#[global] Arguments subtitle {D}.
#[global] Arguments itemKeyPrefix {D}.
#[global] Arguments section_items {D}.
#[global] Arguments authorIds {D}.

Section ChangeDecorationModal.
Context {D : Type}.
Variable hash : D → string.
Variable cl : string → string.
Variable thin : string.

(** [presets.flatMap(preset => preset.decorations)] *)
Definition presetDecorations (presets : list (Preset D)) : list D :=
  presets ≫= preset_decorations.

(** [decorations.filter(d => !presetDecorations.some(p => p.hash ===
    d.hash))] *)
Definition ownDecorations (decorations : list D) (presets : list (Preset D)) :
    list D :=
  filter (λ d, ¬ Exists (λ p, hash p = hash d) (presetDecorations presets))
         decorations.

(** [preset.description || undefined] *)
Definition or_undefined (s : option string) : option string :=
  match s with
  | Some s => if decide (s = EmptyString) then None else Some s
  | None => None
  end.

Definition masonryListData (decorations : list D) (presets : list (Preset D)) :
    list (GridSection D) :=
  mkGridSection "Your Decor Decorations" None "ownDecorations"
    ([ItemNone] ++ (ItemDecoration <$> ownDecorations decorations presets)
       ++ [ItemCreate])
    None
  :: ((λ preset,
         mkGridSection (preset_name preset)
           (or_undefined (preset_description preset))
           ("preset-" +:+ preset_id preset)
           (ItemDecoration <$> preset_decorations preset)
           (Some (preset_authorIds preset))) <$> presets).

(** [(item: any) => { if (typeof item === "string") { return <></>; } else
    { return <DecorDecorationGridDecoration ... decoration={item} />; } }] *)
Definition renderItem (item : Item D) : element D :=
  match item with
  | ItemNone | ItemCreate => EFragment []
  | ItemDecoration d =>
      EDecoration (cl "change-decoration-modal-decoration") d
  end.

(** [(section: Section) => <div><Forms.FormTitle>{section.title}
    </Forms.FormTitle></div>] *)
Definition renderSectionHeader (section : GridSection D) : element D :=
  EDiv None [EFormTitle (title section)].

(** The list in the body of the modal. *)
Definition decoration_list (decorations : list D) (presets : list (Preset D)) :
    element D :=
  SectionedGridList cl thin section_items renderItem renderSectionHeader
    (masonryListData decorations presets).
End ChangeDecorationModal.

(** * The plugin settings *)

(** What the settings page reads of a plugin; [required] and [patches]
    stand for the truth value of the fields. *)
Record Plugin := mkPlugin {
  name : string;
  description : string;
  required : bool;
  started : bool;
  patches : bool;
  dependencies : option (list string)
}.

#[global] Instance Plugin_eq_dec : EqDecision Plugin.
Proof. solve_decision. Defined.

(** [searchValue] *)
Record SearchValue := mkSearchValue {
  search_value : string;
  search_status : string
}.

(** How a card is explained in the grid of the required plugins. *)
Inductive tooltip :=
  | TooltipRequired
  | TooltipDependencyList (deps : list string).

Record PluginCard := mkPluginCard {
  card_plugin : Plugin;
  card_disabled : bool;
  card_tooltip : option tooltip
}.

(** A grid is the cards of the plugins that passed the filter, or, when
    there is no plugin at all, the text "No plugins meet search
    criteria.". *)
Inductive grid :=
  | NoPlugins
  | Cards (cs : list PluginCard).

(** [l.filter(f)] for an [f] that may throw; [None] is the exception. *)
Fixpoint filter_throwing {A} (f : A → option bool) (l : list A) :
    option (list A) :=
  match l with
  | [] => Some []
  | x :: l =>
      b ← f x;
      l' ← filter_throwing f l;
      Some (if b : bool then x :: l' else l')
  end.

Section PluginSettings.
(** The names for which a plain object has an inherited value, such as
    ["constructor"]. *)
Variable inherited : string → bool.
(** [String.prototype.toLowerCase] and [String.prototype.includes]. *)
Variable toLowerCase : string → string.
Variable includes : string → string → bool.
(** [Settings.plugins]: the [enabled] flag of the plugins that have an
    entry. *)
Variable settings : gmap string bool.

(** [o[dep] ??= []; o[dep].push(plugin);] where [o] holds the properties
    of its own: on an inherited value [push] is not a function. *)
Definition add_dependant (plugin dep : string)
    (o : gmap string (list string)) : option (gmap string (list string)) :=
  match o !! dep with
  | Some l => Some (<[dep := l ++ [plugin]]> o)
  | None => if inherited dep then None else Some (<[dep := [plugin]]> o)
  end.

(** [for (const dep of deps) { ... }] *)
Fixpoint add_dependants (plugin : string) (deps : list string)
    (o : gmap string (list string)) : option (gmap string (list string)) :=
  match deps with
  | [] => Some o
  | dep :: deps => o' ← add_dependant plugin dep o; add_dependants plugin deps o'
  end.

(** [for (const plugin in Plugins) { const deps =
    Plugins[plugin].dependencies; if (deps) { ... } }], over the pairs of
    [Plugins] in the order of the enumeration. *)
Fixpoint add_plugins (Plugins : list (string * Plugin))
    (o : gmap string (list string)) : option (gmap string (list string)) :=
  match Plugins with
  | [] => Some o
  | (plugin, p) :: Plugins =>
      o' ← match dependencies p with
           | Some deps => add_dependants plugin deps o
           | None => Some o
           end;
      add_plugins Plugins o'
  end.

Definition depMap (Plugins : list (string * Plugin)) :
    option (gmap string (list string)) :=
  add_plugins Plugins ∅.

(** [Settings.plugins[d].enabled], as a truth value.  For a name without
    entry of its own the lookup gives the inherited value if there is one,
    a function or object whose [enabled] is [undefined]; otherwise it gives
    [undefined], and reading [enabled] of that throws a [TypeError]. *)
Definition setting_enabled (d : string) : option bool :=
  match settings !! d with
  | Some e => Some e
  | None => if inherited d then Some false else None
  end.

(** [l.filter(d => Settings.plugins[d].enabled)] *)
Definition filter_enabled (l : list string) : option (list string) :=
  filter_throwing setting_enabled l.

(** [depMap[pluginName]?.filter(d => Settings.plugins[d].enabled)]: the
    outer [None] is the exception, the inner one [undefined]. *)
Definition enabledDependants (o : gmap string (list string))
    (pluginName : string) : option (option (list string)) :=
  match o !! pluginName with
  | Some l => Some <$> filter_enabled l
  | None => if inherited pluginName then None else Some None
  end.

(** [enabledDependants?.length], as a truth value. *)
Definition dependency (enabled : option (list string)) : bool :=
  match enabled with
  | Some l => negb (length l =? 0)
  | None => false
  end.

(** [function dependencyCheck(pluginName, depMap) { return
    depMap[pluginName]?.filter(d => Settings.plugins[d].enabled) || []; }] *)
Definition dependencyCheck (pluginName : string)
    (o : gmap string (list string)) : option (list string) :=
  default [] <$> enabledDependants o pluginName.

(** [function hasDependents(plugin) { ...; return
    !!enabledDependants?.length; }] *)
Definition hasDependents (o : gmap string (list string)) (plugin : Plugin) :
    option bool :=
  dependency <$> enabledDependants o (name plugin).

(** [const pluginFilter = plugin => { const showEnabled = searchValue.status
    === "enabled" || searchValue.status === "all"; const showDisabled =
    searchValue.status === "disabled" || searchValue.status === "all"; const
    enabled = settings.plugins[plugin.name]?.enabled || plugin.started;
    return ((showEnabled && enabled) || (showDisabled && !enabled)) &&
    (plugin.name.toLowerCase().includes(searchValue.value.toLowerCase()) ||
    plugin.description.toLowerCase().includes(
    searchValue.value.toLowerCase())); }] *)
Definition pluginFilter (searchValue : SearchValue) (plugin : Plugin) : bool :=
  let showEnabled :=
    bool_decide (search_status searchValue = "enabled")
    || bool_decide (search_status searchValue = "all") in
  let showDisabled :=
    bool_decide (search_status searchValue = "disabled")
    || bool_decide (search_status searchValue = "all") in
  let enabled := default false (settings !! name plugin) || started plugin in
  ((showEnabled && enabled) || (showDisabled && negb enabled))
  && (includes (toLowerCase (name plugin))
               (toLowerCase (search_value searchValue))
      || includes (toLowerCase (description plugin))
                  (toLowerCase (search_value searchValue))).

(** [a => !a.required && !dependencyCheck(a.name, depMap).length &&
    pluginFilter(a)] *)
Definition plugins_filter (o : gmap string (list string))
    (searchValue : SearchValue) (a : Plugin) : option bool :=
  if required a then Some false
  else
    deps ← dependencyCheck (name a) o;
    Some (if length deps =? 0 then pluginFilter searchValue a else false).

(** [a => a.required || dependencyCheck(a.name, depMap).length &&
    pluginFilter(a)] *)
Definition required_filter (o : gmap string (list string))
    (searchValue : SearchValue) (a : Plugin) : option bool :=
  if required a then Some true
  else
    deps ← dependencyCheck (name a) o;
    Some (if length deps =? 0 then false else pluginFilter searchValue a).

(** The card of the first grid: [disabled={plugin.required ||
    !!dependency}]. *)
Definition plugin_card (o : gmap string (list string)) (plugin : Plugin) :
    option PluginCard :=
  enabled ← enabledDependants o (name plugin);
  Some (mkPluginCard plugin (required plugin || dependency enabled) None).

(** The card of the second grid, with its tooltip. *)
Definition required_card (o : gmap string (list string)) (plugin : Plugin) :
    option PluginCard :=
  enabled ← enabledDependants o (name plugin);
  tooltipText ← (if required plugin then Some TooltipRequired
                 else TooltipDependencyList <$>
                        dependencyCheck (name plugin) o);
  Some (mkPluginCard plugin (required plugin || dependency enabled)
                     (Some tooltipText)).

(** [sortedPlugins?.length ? sortedPlugins.filter(...).map(...) :
    <Text>No plugins meet search criteria.</Text>] *)
Definition plugins_grid (o : gmap string (list string))
    (searchValue : SearchValue) (sortedPlugins : list Plugin) : option grid :=
  if length sortedPlugins =? 0 then Some NoPlugins
  else
    shownPlugins ← filter_throwing (plugins_filter o searchValue) sortedPlugins;
    Cards <$> mapM (plugin_card o) shownPlugins.

Definition required_grid (o : gmap string (list string))
    (searchValue : SearchValue) (sortedPlugins : list Plugin) : option grid :=
  if length sortedPlugins =? 0 then Some NoPlugins
  else
    shownPlugins ← filter_throwing (required_filter o searchValue) sortedPlugins;
    Cards <$> mapM (required_card o) shownPlugins.
End PluginSettings.

(** The plugins that name [dep] among their dependencies, once for each
    time they name it, in the order of [Plugins]. *)
Definition dependants (Plugins : list (string * Plugin)) (dep : string) :
    list string :=
  Plugins ≫= λ '(plugin, p),
    (λ _, plugin) <$> filter (λ d, d = dep) (default [] (dependencies p)).

(** The names that are dependencies of some plugin. *)
Definition all_dependencies (Plugins : list (string * Plugin)) : list string :=
  Plugins ≫= λ '(_, p), default [] (dependencies p).

(** The names a plain object inherits a value for. *)
Definition object_prototype (k : string) : bool :=
  bool_decide (k ∈ ["constructor"; "hasOwnProperty"; "isPrototypeOf";
                    "propertyIsEnumerable"; "toLocaleString"; "toString";
                    "valueOf"; "__proto__"; "__defineGetter__";
                    "__defineSetter__"; "__lookupGetter__";
                    "__lookupSetter__"]).

(** ** Switching a plugin on and off *)

(** What [toggleEnabled] does to its surroundings, in the order in which it
    does it. *)
Inductive effect :=
  | StartDependenciesRecursive
  | LoggerError (msg : string)
  | ShowNotice (msg : string)
  | ShowErrorToast (msg : string)
  | SetEnabled (b : bool)
  | OnRestartNeeded (pluginName : string)
  | StartPlugin
  | StopPlugin
  | ThrowTypeError.

#[global] Instance effect_eq_dec : EqDecision effect.
Proof. solve_decision. Defined.

(** What the plugin manager answers: the result of
    [startDependenciesRecursive], of [startPlugin] and of [stopPlugin]. *)
Record answers := mkAnswers {
  restartNeeded : bool;
  failures : list string;
  startPlugin : bool;
  stopPlugin : bool
}.

(** [l.join(sep)] *)
Fixpoint join (sep : string) (l : list string) : string :=
  match l with
  | [] => EmptyString
  | [s] => s
  | s :: l => s +:+ sep +:+ join sep l
  end.

(** [function isEnabled() { return pluginSettings?.enabled ||
    plugin.started; }], where [pluginSettings] is [None] for a plugin
    without entry in the settings. *)
Definition isEnabled (pluginSettings : option bool) (plugin : Plugin) : bool :=
  default false pluginSettings || started plugin.

(** [pluginSettings.enabled = b;] followed by [k]: without entry the
    assignment throws. *)
Definition set_enabled (pluginSettings : option bool) (b : bool)
    (k : list effect) : list effect :=
  match pluginSettings with
  | Some _ => SetEnabled b :: k
  | None => [ThrowTypeError]
  end.

(** [function toggleEnabled()] of [PluginCard]: the part after the
    dependencies, [rest], is what follows the first [if]. *)
Definition toggleEnabled (plugin : Plugin) (pluginSettings : option bool)
    (ans : answers) : list effect :=
  let wasEnabled := isEnabled pluginSettings plugin in
  let rest :=
    if patches plugin then
      set_enabled pluginSettings (negb wasEnabled)
        [OnRestartNeeded (name plugin)]
    else if wasEnabled && negb (started plugin) then
      set_enabled pluginSettings (negb wasEnabled) []
    else
      let result := if wasEnabled then stopPlugin ans else startPlugin ans in
      let action := if wasEnabled then "stop" else "start" in
      (if wasEnabled then StopPlugin else StartPlugin)
      :: if negb result then
           [LoggerError ("Failed to " +:+ action +:+ " plugin "
                           +:+ name plugin);
            ShowErrorToast ("Failed to " +:+ action +:+ " plugin: "
                              +:+ name plugin)]
         else set_enabled pluginSettings (negb wasEnabled) [] in
  if negb wasEnabled then
    StartDependenciesRecursive
    :: if negb (length (failures ans) =? 0) then
         [LoggerError ("Failed to start dependencies for " +:+ name plugin
                         +:+ ": " +:+ join ", " (failures ans));
          ShowNotice ("Failed to start dependencies: "
                        +:+ join ", " (failures ans))]
       else if restartNeeded ans then
         set_enabled pluginSettings true [OnRestartNeeded (name plugin)]
       else rest
  else rest.

(** [o] holds the lists [L], and no empty one. *)
Definition table (L : string → list string) (o : gmap string (list string)) :
    Prop :=
  ∀ dep, o !! dep = match L dep with [] => None | l => Some l end.

(** * Properties *)

(** ** What [lock] and [unlock] compute *)

(** Unfold the monadic plumbing of a method body. *)
Ltac mrun := cbv [mbind M_bind mret M_ret exec eval]; cbn.

Lemma exec_bind {A B} (c : M A) (k : A → M B) m :
  exec (c ≫= k) m = exec (k (eval c m)) (exec c m).
Proof. unfold exec, eval, mbind, M_bind. destruct (c m). reflexivity. Qed.

Lemma eval_bind {A B} (c : M A) (k : A → M B) m :
  eval (c ≫= k) m = eval (k (eval c m)) (exec c m).
Proof. unfold exec, eval, mbind, M_bind. destruct (c m). reflexivity. Qed.

Section Methods.
Variable m : machine.

Lemma lock_free :
  locked (mutex m) = false →
  lock m =
    (length (heap m),
     Machine (mkMutex true (queue (mutex m)))
             (heap m ++ [Promise (Settled (Fulfilled VUndefined)) []])
             (jobs m) (trace m ++ [EvLock (length (heap m))])).
Proof. intros H. unfold lock. mrun. rewrite H. reflexivity. Qed.

Lemma lock_held :
  locked (mutex m) = true →
  lock m =
    (length (heap m),
     Machine (mkMutex true (queue (mutex m) ++ [length (heap m)]))
             (heap m ++ [Promise Pending []])
             (jobs m) (trace m ++ [EvLock (length (heap m))])).
Proof. intros H. unfold lock. mrun. rewrite H. cbn. rewrite H. reflexivity. Qed.

Lemma unlock_empty :
  queue (mutex m) = [] →
  unlock m =
    (tt, Machine (mkMutex false []) (heap m) (jobs m) (trace m ++ [EvUnlock])).
Proof.
  intros H. unfold unlock, set_locked. mrun. rewrite H. cbn. rewrite H.
  reflexivity.
Qed.

Lemma unlock_waiter r q rs :
  queue (mutex m) = r :: q →
  heap m !! r = Some (Promise Pending rs) →
  unlock m =
    (tt, Machine (mkMutex (locked (mutex m)) q)
                 (<[r := Promise (Settled (Fulfilled VUndefined)) []]> (heap m))
                 (jobs m ++ map (λ x, JReaction x (Fulfilled VUndefined)) rs)
                 (trace m ++ [EvUnlock; EvSettle r (Fulfilled VUndefined)])).
Proof.
  intros Hq Hr. unfold unlock. mrun. rewrite Hq. cbn.
  unfold shift, settle. cbn. rewrite Hq. cbn. rewrite Hr.
  rewrite <- app_assoc. reflexivity.
Qed.
End Methods.

(** ** Well-formedness is kept by every step *)

Lemma elem_of_targets m t :
  t ∈ targets m ↔
  (∃ j, j ∈ jobs m ∧ jtarget j = t) ∨
  (∃ p pr r, heap m !! p = Some pr ∧ r ∈ reactions pr ∧ rtarget r = t).
Proof.
  unfold targets. rewrite elem_of_app, list_elem_of_fmap, list_elem_of_bind.
  split.
  - intros [(j & -> & Hj)|(pr & Ht & Hpr)].
    + left. eauto.
    + right. apply list_elem_of_fmap in Ht as (r & -> & Hr).
      apply list_elem_of_lookup in Hpr as [p Hp]. eauto 6.
  - intros [(j & Hj & <-)|(p & pr & r & Hp & Hr & <-)].
    + left. eauto.
    + right. exists pr. split.
      * apply list_elem_of_fmap. eauto.
      * apply list_elem_of_lookup. eauto.
Qed.

#[global] Arguments targets : simpl never.

Lemma wf_init : wf init.
Proof.
  split; cbn.
  - intros p Hp. inversion Hp.
  - constructor.
  - intros t Ht. inversion Ht.
  - reflexivity.
Qed.

Lemma queue_lt m p : wf m → p ∈ queue (mutex m) → p < length (heap m).
Proof.
  intros Hwf Hp. destruct (wf_queue _ Hwf p Hp) as [rs Hrs].
  eapply lookup_lt_Some, Hrs.
Qed.

Lemma ext_refl m : ext m m.
Proof. split; [lia | auto]. Qed.

Lemma ext_trans m1 m2 m3 : ext m1 m2 → ext m2 m3 → ext m1 m3.
Proof.
  intros [Hl1 Hq1] [Hl2 Hq2]. split; [lia|].
  intros p Hp. destruct (Hq2 p Hp) as [H|H].
  - destruct (Hq1 p H); [auto | right; lia].
  - right. lia.
Qed.

Lemma ok_ext m m' t : ok m t → ext m m' → ok m' t.
Proof.
  intros [Hlt Hq] [Hl Hq']. split; [lia|].
  intros Hin. destruct (Hq' t Hin); [auto | lia].
Qed.

Lemma ok_fresh m : wf m → ∀ s, ok (exec (new_promise s) m) (length (heap m)).
Proof.
  intros Hwf s. split; cbn.
  - rewrite length_app. cbn. lia.
  - intros Hin. apply (queue_lt _ _ Hwf) in Hin. lia.
Qed.

Lemma ext_atomic m m' : atomic m m' → ext m m'.
Proof.
  destruct 1 as [m|m|m cb|m s|m p r _|m p o _|m j _|m j js _].
  - destruct (locked (mutex m)) eqn:E; unfold exec.
    + rewrite lock_held by done. split; cbn.
      * rewrite length_app. lia.
      * intros p [Hp|Hp%list_elem_of_singleton]%elem_of_app; [auto|right; lia].
    + rewrite lock_free by done. split; cbn; [rewrite length_app; lia | auto].
  - unfold exec, unlock. mrun. destruct (queue (mutex m)) as [|r q] eqn:E; cbn.
    + unfold set_locked. cbn. rewrite E. split; cbn; [lia | by intros p Hp; inversion Hp].
    + unfold shift, settle. cbn. rewrite E. cbn.
      destruct (heap m !! r) as [[[|o] rs]|]; cbn;
        (split; cbn; [rewrite ?length_insert; lia |]);
        intros p Hp; left; rewrite E; by apply list_elem_of_further.
  - split; cbn; [lia | auto].
  - split; cbn; [rewrite length_app; lia | auto].
  - unfold exec, subscribe. destruct (heap m !! p) as [[[|o] rs]|]; cbn;
      (split; cbn; [rewrite ?length_insert; lia | auto]).
  - unfold exec, settle. destruct (heap m !! p) as [[[|o'] rs]|]; cbn;
      (split; cbn; [rewrite ?length_insert; lia | auto]).
  - split; cbn; [lia | auto].
  - split; cbn; [lia | auto].
Qed.

Lemma ext_steps m m' : steps m m' → ext m m'.
Proof.
  induction 1 as [|m1 m2 m3 H _ IH]; [apply ext_refl|].
  eapply ext_trans; [by apply ext_atomic | done].
Qed.

(** A heap update that leaves the queued promises alone and adds no target
    keeps the state well formed. *)
Lemma wf_update m mx' hp' js' tr' :
  wf m →
  length (heap m) ≤ length hp' →
  (∀ p, p ∈ queue mx' → p ∈ queue (mutex m) ∧ hp' !! p = heap m !! p) →
  NoDup (queue mx') →
  (∀ t, t ∈ targets (Machine mx' hp' js' tr') → t ∈ targets m) →
  (locked mx' = false → queue mx' = []) →
  wf (Machine mx' hp' js' tr').
Proof.
  intros Hwf Hlen Hq Hnd Ht Hfree. split; cbn; auto.
  - intros p Hp. destruct (Hq p Hp) as [Hin ->]. by apply (wf_queue _ Hwf).
  - intros t Hin. destruct (wf_targets _ Hwf t (Ht t Hin)) as [Hlt Hnq].
    split; cbn; [lia|]. intros Hin'. by destruct (Hq t Hin').
Qed.

Lemma wf_emit e m : wf m → wf (exec (emit e) m).
Proof.
  intros Hwf. apply (wf_update m); try done.
  - by apply (wf_nodup _ Hwf).
  - by apply (wf_free _ Hwf).
Qed.

Lemma wf_new s m : wf m → wf (exec (new_promise s) m).
Proof.
  intros Hwf. apply (wf_update m); cbn; try done.
  - rewrite length_app. lia.
  - intros p Hp. split; [done|].
    apply lookup_app_l. by apply queue_lt.
  - by apply (wf_nodup _ Hwf).
  - intros t. rewrite !elem_of_targets. cbn.
    intros [?|(p & pr & r & Hp & Hr & Ht)]; [by left|right].
    apply lookup_app_Some in Hp as [Hp|[_ Hp]].
    + eauto 6.
    + apply list_lookup_singleton_Some in Hp as [_ <-]. inversion Hr.
  - by apply (wf_free _ Hwf).
Qed.

Lemma wf_enqueue j m : wf m → ok m (jtarget j) → wf (exec (enqueue j) m).
Proof.
  intros Hwf Hok. split; cbn; try apply Hwf.
  intros t. rewrite elem_of_targets. cbn.
  intros [(j' & [Hj|Hj%list_elem_of_singleton]%elem_of_app & <-)|H].
  - apply (wf_targets _ Hwf), elem_of_targets. left. eauto.
  - by subst j'.
  - apply (wf_targets _ Hwf), elem_of_targets. by right.
Qed.

Lemma wf_dequeue m j js :
  wf m → jobs m = j :: js →
  wf (Machine (mutex m) (heap m) js (trace m)) ∧ ok m (jtarget j).
Proof.
  intros Hwf Hj. split.
  - apply (wf_update m); try done; try apply Hwf.
    intros t. rewrite !elem_of_targets. cbn. rewrite Hj.
    intros [(j' & Hin & <-)|H]; [left|by right].
    exists j'. split; [by apply list_elem_of_further | done].
  - apply (wf_targets _ Hwf), elem_of_targets. left. exists j.
    rewrite Hj. split; [apply list_elem_of_here | done].
Qed.

Lemma targets_settle mx hp js tr mx' tr' p rs o t :
  hp !! p = Some (Promise Pending rs) →
  t ∈ targets (Machine mx' (<[p := Promise (Settled o) []]> hp)
                       (js ++ map (λ r, JReaction r o) rs) tr') →
  t ∈ targets (Machine mx hp js tr).
Proof.
  intros Hp. rewrite !elem_of_targets. cbn.
  intros [(j & [Hj|Hj]%elem_of_app & <-)|(q & pr & r & Hq & Hr & <-)].
  - left. eauto.
  - right. apply list_elem_of_fmap in Hj as (r & -> & Hr). cbn. eauto 6.
  - right. apply list_lookup_insert_Some in Hq as [(<- & <- & _)|[_ Hq]].
    + inversion Hr.
    + eauto 6.
Qed.

Lemma wf_settle p o m :
  wf m → p ∉ queue (mutex m) → wf (exec (settle p o) m).
Proof.
  intros Hwf Hp. unfold exec, settle.
  destruct (heap m !! p) as [[[|o'] rs]|] eqn:E; cbn; try done.
  apply (wf_update m); cbn; try apply Hwf.
  - rewrite length_insert. lia.
  - intros q Hq. split; [done|].
    apply list_lookup_insert_ne. by intros ->.
  - intros t Ht. destruct m. by eapply targets_settle.
Qed.

Lemma wf_subscribe p r m :
  wf m → ok m (rtarget r) → wf (exec (subscribe p r) m).
Proof.
  intros Hwf Hok. unfold exec, subscribe.
  destruct (heap m !! p) as [[[|o] rs]|] eqn:E; cbn; try done.
  - split; cbn; try apply Hwf.
    + intros q Hq. destruct (decide (q = p)) as [->|Hne].
      * exists (rs ++ [r]). apply list_lookup_insert_eq.
        by eapply lookup_lt_Some.
      * rewrite list_lookup_insert_ne by done. by apply (wf_queue _ Hwf).
    + assert (∀ t, ok m t →
        ok (Machine (mutex m) (<[p:=Promise Pending (rs ++ [r])]> (heap m))
                    (jobs m) (trace m)) t) as Hmono.
      { intros t [? ?]. split; cbn; [by rewrite length_insert | done]. }
      intros t. rewrite elem_of_targets. cbn.
      intros [H|(q & pr & r' & Hq & Hr & <-)].
      * apply Hmono, (wf_targets _ Hwf), elem_of_targets. by left.
      * apply Hmono.
        apply list_lookup_insert_Some in Hq as [(<- & <- & _)|[_ Hq]].
        -- cbn in Hr. apply elem_of_app in Hr as [Hr|Hr%list_elem_of_singleton].
           ++ apply (wf_targets _ Hwf), elem_of_targets. right. eauto 6.
           ++ by subst r'.
        -- apply (wf_targets _ Hwf), elem_of_targets. right. eauto 6.
  - by apply (wf_enqueue (JReaction r o)).
Qed.

Lemma wf_lock m : wf m → wf (exec lock m).
Proof.
  intros Hwf. pose proof (wf_new Pending m Hwf) as Hnew.
  assert (∀ s t, t ∈ targets (exec (new_promise s) m) → t ∈ targets m) as Ht.
  { intros s t. rewrite !elem_of_targets. cbn.
    intros [?|(p & pr & r & Hp & Hr & Ht)]; [by left|right].
    apply lookup_app_Some in Hp as [Hp|[_ Hp]]; [eauto 6|].
    apply list_lookup_singleton_Some in Hp as [_ <-]. inversion Hr. }
  unfold exec. destruct (locked (mutex m)) eqn:E.
  - rewrite lock_held by done. split; cbn.
    + intros p [Hp|Hp%list_elem_of_singleton]%elem_of_app.
      * destruct (wf_queue _ Hwf p Hp) as [rs Hrs]. exists rs.
        by apply lookup_app_l_Some.
      * subst p. exists []. by apply list_lookup_middle.
    + apply NoDup_app. split; [apply Hwf|]. split; [|apply NoDup_singleton].
      intros p Hp Hx%list_elem_of_singleton.
      apply (queue_lt _ _ Hwf) in Hp. lia.
    + intros t Hin. apply (Ht Pending), (wf_targets _ Hwf) in Hin as [Hlt Hnq].
      split; cbn; [rewrite length_app; lia|].
      intros [?|Hx%list_elem_of_singleton]%elem_of_app; [done|lia].
    + done.
  - rewrite lock_free by done. apply (wf_update m); cbn; try apply Hwf.
    + rewrite length_app. lia.
    + intros p Hp. split; [done|]. apply lookup_app_l. by apply queue_lt.
    + apply (Ht (Settled (Fulfilled VUndefined))).
    + done.
Qed.

Lemma wf_unlock m : wf m → wf (exec unlock m).
Proof.
  intros Hwf. unfold exec. destruct (queue (mutex m)) as [|r q] eqn:E.
  - rewrite unlock_empty by done. apply (wf_update m); cbn; try done.
    + intros p Hp. inversion Hp.
    + constructor.
  - destruct (wf_queue _ Hwf r) as [rs Hrs]; [rewrite E; left|].
    pose proof (wf_nodup _ Hwf) as Hnd. rewrite E in Hnd.
    rewrite (unlock_waiter m r q rs) by done.
    apply (wf_update m); cbn.
    + done.
    + rewrite length_insert. lia.
    + intros p Hp. split; [rewrite E; by right|].
      apply list_lookup_insert_ne. intros ->.
      by apply NoDup_cons_1_1 in Hnd.
    + by apply NoDup_cons_1_2 in Hnd.
    + intros t Hin. destruct m. by eapply targets_settle.
    + intros Hl. apply (wf_free _ Hwf) in Hl. congruence.
Qed.

Lemma wf_atomic m m' : wf m → atomic m m' → wf m'.
Proof.
  intros Hwf.
  destruct 1 as [m|m|m cb|m s|m p r Hok|m p o Hp|m j Hok|m j js Hj].
  - by apply wf_lock.
  - by apply wf_unlock.
  - by apply wf_emit.
  - by apply wf_new.
  - by apply wf_subscribe.
  - by apply wf_settle.
  - by apply wf_enqueue.
  - by apply (wf_dequeue m j js).
Qed.

Lemma wf_steps m m' : wf m → steps m m' → wf m'.
Proof.
  intros Hwf Hs. induction Hs as [|m1 m2 m3 H _ IH]; [done|].
  apply IH. by eapply wf_atomic.
Qed.

(** ** Every operation is a sequence of atomic steps *)

Lemma exec_ret {A} (a : A) m : exec (mret a) m = m.
Proof. reflexivity. Qed.

Lemma eval_ret {A} (a : A) m : eval (mret a) m = a.
Proof. reflexivity. Qed.

Ltac mnorm :=
  repeat first [rewrite exec_bind | rewrite eval_bind
               | rewrite exec_ret | rewrite eval_ret].

Lemma good_refl m : wf m → good m m.
Proof. intros H. split; [apply rtc_refl | done]. Qed.

Lemma good_step m0 m m' : good m0 m → atomic m m' → good m0 m'.
Proof.
  intros [Hs Hwf] Ha. split.
  - eapply rtc_r; eauto.
  - eapply wf_atomic; eauto.
Qed.

Lemma good_ok m0 m t : good m0 m → ok m0 t → ok m t.
Proof. intros [Hs _] Hok. eapply ok_ext; [done | by apply ext_steps]. Qed.

Lemma good_trans m0 m1 m2 : good m0 m1 → good m1 m2 → good m0 m2.
Proof.
  intros [Hs1 _] [Hs2 Hwf]. split; [|done].
  eapply rtc_trans; eauto.
Qed.

Lemma good_new m s : wf m → good m (exec (new_promise s) m).
Proof. intros H. eapply good_step; [by apply good_refl | apply at_new]. Qed.

Lemma good_settle m p o : wf m → ok m p → good m (exec (settle p o) m).
Proof.
  intros H [_ Hp]. eapply good_step; [by apply good_refl | by apply at_settle].
Qed.

Lemma good_unlock m : wf m → good m (exec unlock m).
Proof. intros H. eapply good_step; [by apply good_refl | apply at_unlock]. Qed.

Lemma good_then m p f :
  wf m →
  good m (exec (then_ p f) m) ∧
  ok (exec (then_ p f) m) (eval (then_ p f) m).
Proof.
  intros Hwf. unfold then_. mnorm.
  change (eval (new_promise Pending) m) with (length (heap m)).
  pose proof (good_new m Pending Hwf) as H1.
  pose proof (ok_fresh m Hwf Pending) as Hok.
  assert (good m (exec (subscribe p (OnFulfilled f (length (heap m))))
                       (exec (new_promise Pending) m))) as H2.
  { eapply good_step; [exact H1 | by apply at_subscribe]. }
  split; [done|].
  eapply ok_ext; [exact Hok|]. apply ext_atomic. by apply at_subscribe.
Qed.

Lemma good_lock m : wf m → good m (exec lock m).
Proof. intros H. eapply good_step; [by apply good_refl | apply at_lock]. Qed.

Lemma good_with m cb : wf m → good m (exec (with_ cb) m).
Proof.
  intros Hwf. unfold with_. mnorm.
  change (eval (new_promise Pending) m) with (length (heap m)).
  set (m1 := exec (new_promise Pending) m).
  pose proof (good_new m Pending Hwf) as H1. fold m1 in H1.
  pose proof (ok_fresh m Hwf Pending) as Hpw. fold m1 in Hpw.
  set (m2 := exec lock m1). set (pl := eval lock m1).
  assert (good m1 m2) as H2 by (apply good_lock, H1).
  destruct (good_then m2 pl (CbBody cb)) as [H3 Hpt]; [apply H2|].
  set (m3 := exec (then_ pl (CbBody cb)) m2) in *.
  set (pt := eval (then_ pl (CbBody cb)) m2) in *.
  assert (ok m3 (length (heap m))) as Hpw3.
  { eapply good_ok; [|exact Hpw]. eapply good_trans; eauto. }
  eapply good_step.
  - eapply good_trans; [exact H1|]. eapply good_trans; eauto.
  - by apply at_subscribe.
Qed.

Lemma good_call m f :
  wf m → good m (exec (call f) m).
Proof.
  intros Hwf. destruct f as [[e|v|s]|]; unfold call, invoke; mnorm; cbn.
  - eapply good_step; [by apply good_refl | apply at_invoke].
  - eapply good_step; [|apply at_unlock].
    eapply good_step; [by apply good_refl | apply at_invoke].
  - set (m1 := exec (emit (EvInvoke (ActAsync s))) m).
    assert (good m m1) as H1.
    { eapply good_step; [by apply good_refl | apply at_invoke]. }
    set (m2 := exec (new_promise s) m1).
    assert (good m m2) as H2 by (eapply good_step; [exact H1 | apply at_new]).
    eapply good_trans; [exact H2|].
    apply good_then, H2.
  - by apply good_unlock.
Qed.

Lemma good_resolve m d r : wf m → ok m d → good m (exec (resolve_fn d r) m).
Proof.
  intros Hwf Hok. destruct r as [v|q]; cbn.
  - by apply good_settle.
  - eapply good_step; [by apply good_refl | by apply at_enqueue].
Qed.

Lemma good_run_job m j : wf m → ok m (jtarget j) → good m (exec (run_job j) m).
Proof.
  intros Hwf Hok. destruct j as [[f d|t] [v|e]|q t]; cbn in Hok; unfold run_job.
  - mnorm. pose proof (good_call m f Hwf) as Hc.
    pose proof (good_ok _ _ _ Hc Hok) as Hd.
    eapply good_trans; [exact Hc|].
    destruct (eval (call f) m) as [r|e].
    + apply good_resolve; [apply Hc | done].
    + apply good_settle; [apply Hc | done].
  - by apply good_settle.
  - by apply good_resolve.
  - by apply good_settle.
  - eapply good_step; [by apply good_refl | by apply at_subscribe].
Qed.

Lemma good_tick m : wf m → good m (exec tick m).
Proof.
  intros Hwf. unfold exec, tick. destruct (jobs m) as [|j js] eqn:E.
  - by apply good_refl.
  - destruct (wf_dequeue m j js Hwf E) as [Hwf' Hok].
    eapply good_trans.
    + eapply good_step; [by apply good_refl | by apply (at_dequeue m j js)].
    + by apply good_run_job.
Qed.

Lemma good_env_settle m p o : wf m → good m (exec (env_settle p o) m).
Proof.
  intros Hwf. unfold exec, env_settle. case_bool_decide as Hp.
  - by apply good_refl.
  - eapply good_step; [by apply good_refl | by apply at_settle].
Qed.

Lemma good_op m o : wf m → good m (exec (step o) m).
Proof.
  intros Hwf. destruct o as [| |cb| |p o]; unfold step; mnorm.
  - by apply good_lock.
  - by apply good_unlock.
  - by apply good_with.
  - by apply good_tick.
  - by apply good_env_settle.
Qed.

Lemma run_snoc os o m : run (os ++ [o]) m = exec (step o) (run os m).
Proof. unfold run. by rewrite foldl_app. Qed.

Lemma run_app os1 os2 m : run (os1 ++ os2) m = run os2 (run os1 m).
Proof. unfold run. by rewrite foldl_app. Qed.

Lemma good_run os m : wf m → good m (run os m).
Proof.
  intros Hwf. induction os as [|o os IH] using rev_ind.
  - by apply good_refl.
  - rewrite run_snoc. eapply good_trans; [exact IH|]. apply good_op, IH.
Qed.

Lemma drain_steps n m : wf m → good m (drain n m).
Proof.
  revert m. induction n as [|n IH]; intros m Hwf; cbn.
  - by apply good_refl.
  - destruct (jobs m) eqn:E; [by apply good_refl|].
    pose proof (good_tick m Hwf) as Ht.
    eapply good_trans; [exact Ht|]. apply IH, Ht.
Qed.

(** ** Settled promises stay as they are *)

Lemma state_of_app mx hp js tr mx' l js' tr' p o :
  state_of (Machine mx hp js tr) p = Settled o →
  state_of (Machine mx' (hp ++ l) js' tr') p = Settled o.
Proof.
  unfold state_of. cbn. destruct (hp !! p) as [pr|] eqn:E; [|done].
  by rewrite (lookup_app_l_Some _ _ _ _ E).
Qed.

Lemma state_of_insert mx hp js tr mx' js' tr' q rs pr p o :
  hp !! q = Some (Promise Pending rs) →
  state_of (Machine mx hp js tr) p = Settled o →
  state_of (Machine mx' (<[q := pr]> hp) js' tr') p = Settled o.
Proof.
  unfold state_of. cbn. intros Hq Hp.
  destruct (decide (q = p)) as [->|Hne].
  - by rewrite Hq in Hp.
  - by rewrite list_lookup_insert_ne.
Qed.

Lemma settled_settle m q o' p o :
  state_of m p = Settled o → state_of (exec (settle q o') m) p = Settled o.
Proof.
  intros Hp. unfold exec, settle.
  destruct (heap m !! q) as [[[|o''] rs]|] eqn:E; cbn; try done.
  destruct m. by eapply state_of_insert.
Qed.

Lemma settled_atomic m m' p o :
  atomic m m' → state_of m p = Settled o → state_of m' p = Settled o.
Proof.
  destruct 1 as [m|m|m cb|m s|m q r _|m q o' _|m j _|m j js _]; intros Hp.
  - unfold exec. destruct (locked (mutex m)) eqn:E.
    + rewrite lock_held by done. destruct m. by eapply state_of_app.
    + rewrite lock_free by done. destruct m. by eapply state_of_app.
  - unfold exec, unlock. mrun. destruct (queue (mutex m)) as [|r q] eqn:E; cbn.
    + done.
    + unfold shift. cbn. rewrite E. cbn.
      apply (settled_settle
               (Machine (mkMutex (locked (mutex m)) q) (heap m) (jobs m)
                        (trace m ++ [EvUnlock]))); done.
  - done.
  - destruct m. by eapply state_of_app.
  - unfold exec, subscribe.
    destruct (heap m !! q) as [[[|o''] rs]|] eqn:E; cbn; try done.
    destruct m. by eapply state_of_insert.
  - by apply settled_settle.
  - done.
  - done.
Qed.

Lemma settled_steps m m' p o :
  steps m m' → state_of m p = Settled o → state_of m' p = Settled o.
Proof.
  induction 1 as [|m1 m2 m3 H _ IH]; [done|].
  intros Hp. by apply IH, (settled_atomic m1).
Qed.

(** ** How the queue moves *)

Lemma unlocks_app tr1 tr2 : unlocks (tr1 ++ tr2) = unlocks tr1 + unlocks tr2.
Proof.
  induction tr1 as [|[] tr1 IH]; cbn; rewrite ?IH; reflexivity.
Qed.

Lemma state_of_insert_eq mx hp js tr p pr :
  p < length hp →
  state_of (Machine mx (<[p := pr]> hp) js tr) p = state pr.
Proof.
  intros Hp. unfold state_of. cbn. by rewrite list_lookup_insert_eq.
Qed.

(** A step either is no call of [unlock] and leaves the waiters in place,
    or is a call of [unlock], which serves the waiter at the front. *)
Lemma atomic_progress m m' :
  wf m → atomic m m' →
  (unlocks (trace m') = unlocks (trace m) ∧
   ∃ q', queue (mutex m') = queue (mutex m) ++ q') ∨
  (unlocks (trace m') = S (unlocks (trace m)) ∧
   match queue (mutex m) with
   | [] => queue (mutex m') = []
   | r :: q => queue (mutex m') = q ∧ granted m' r
   end).
Proof.
  intros Hwf.
  destruct 1 as [m|m|m cb|m s|m q r _|m q o' _|m j _|m j js _].
  - left. unfold exec. destruct (locked (mutex m)) eqn:E.
    + rewrite lock_held by done. cbn. rewrite unlocks_app. cbn.
      split; [lia | eauto].
    + rewrite lock_free by done. cbn. rewrite unlocks_app. cbn.
      split; [lia | exists []; by rewrite app_nil_r].
  - right. unfold exec. destruct (queue (mutex m)) as [|r q] eqn:E.
    + rewrite unlock_empty by done. cbn. rewrite unlocks_app. cbn.
      split; [lia | done].
    + destruct (wf_queue _ Hwf r) as [rs Hrs]; [rewrite E; left|].
      rewrite (unlock_waiter m r q rs) by done. cbn.
      rewrite unlocks_app. cbn. split; [lia|]. split; [done|].
      unfold granted. rewrite state_of_insert_eq; [done|].
      by eapply lookup_lt_Some.
  - left. cbn. rewrite unlocks_app. cbn.
    split; [lia | exists []; by rewrite app_nil_r].
  - left. cbn. split; [done | exists []; by rewrite app_nil_r].
  - left. unfold exec, subscribe.
    destruct (heap m !! q) as [[[|o''] rs]|]; cbn;
      (split; [done | exists []; by rewrite app_nil_r]).
  - left. unfold exec, settle.
    destruct (heap m !! q) as [[[|o''] rs]|]; cbn;
      rewrite ?unlocks_app; cbn;
      (split; [lia | exists []; by rewrite app_nil_r]).
  - left. cbn. split; [done | exists []; by rewrite app_nil_r].
  - left. cbn. split; [done | exists []; by rewrite app_nil_r].
Qed.

(** The waiter with [length q1] waiters in front of it is served by the
    call of [unlock] number [length q1 + 1], and not before. *)
Lemma queue_position m m' q1 h q2 :
  wf m → steps m m' →
  queue (mutex m) = q1 ++ h :: q2 →
  ∃ n, unlocks (trace m') = unlocks (trace m) + n ∧
       (n ≤ length q1 →
        ∃ q', queue (mutex m') = drop n q1 ++ h :: q2 ++ q') ∧
       (length q1 < n → granted m' h).
Proof.
  intros Hwf Hs Hq. revert m' Hs.
  apply (rtc_ind_r (λ m', ∃ n, unlocks (trace m') = unlocks (trace m) + n ∧
       (n ≤ length q1 →
        ∃ q', queue (mutex m') = drop n q1 ++ h :: q2 ++ q') ∧
       (length q1 < n → granted m' h))); [|intros m1 m2 Hs Ha IH].
  - exists 0. split; [lia|]. split; [|lia].
    intros _. exists []. by rewrite app_nil_r.
  - destruct IH as (n & Hn & Hle & Hgt).
    pose proof (wf_steps _ _ Hwf Hs) as Hwf1.
    destruct (atomic_progress _ _ Hwf1 Ha) as [[Hu [q' Hq']]|[Hu Hm]].
    + exists n. split; [lia|]. split.
      * intros Hl. destruct (Hle Hl) as [q0 Hq0]. exists (q0 ++ q').
        rewrite Hq', Hq0, <- app_assoc. cbn. by rewrite <- app_assoc.
      * intros Hl. by apply (settled_atomic m1), Hgt.
    + exists (S n). split; [lia|]. split.
      * intros Hl. destruct Hle as [q0 Hq0]; [lia|].
        destruct (lookup_lt_is_Some_2 q1 n) as [x Hx]; [lia|].
        rewrite (drop_S _ _ _ Hx) in Hq0. rewrite Hq0 in Hm. cbn in Hm.
        destruct Hm as [Hm _]. eauto.
      * intros Hl. destruct (decide (n ≤ length q1)) as [Hn'|Hn'].
        -- destruct (Hle Hn') as [q0 Hq0].
           rewrite drop_ge in Hq0 by lia. rewrite Hq0 in Hm. cbn in Hm.
           apply Hm.
        -- apply (settled_atomic m1); [done|]. apply Hgt. lia.
Qed.

(** ** Waiting and being served *)

Lemma pending_not_granted m h : pending m h → ¬ granted m h.
Proof. unfold pending, granted. congruence. Qed.

Lemma queued_pending m h : wf m → h ∈ queue (mutex m) → pending m h.
Proof.
  intros Hwf Hh. destruct (wf_queue _ Hwf h Hh) as [rs Hrs].
  unfold pending, state_of. by rewrite Hrs.
Qed.

(** In every execution, the waiter with [length q1] waiters in front of it
    holds a completed handle exactly when more than [length q1] calls of
    [unlock] have been made since. *)
Lemma grant_iff m h q1 q2 os :
  wf m →
  queue (mutex m) = q1 ++ h :: q2 →
  let m' := run os m in
  let n := unlocks (trace m') - unlocks (trace m) in
  (granted m' h ↔ length q1 < n) ∧
  (pending m' h ∧ h ∈ queue (mutex m') ↔ n ≤ length q1).
Proof.
  intros Hwf Hq m' n. destruct (good_run os m Hwf) as [Hs Hwf'].
  fold m' in Hs, Hwf'.
  destruct (queue_position m m' q1 h q2 Hwf Hs Hq) as (k & Hk & Hle & Hgt).
  assert (n = k) as -> by (unfold n; lia).
  destruct (decide (k ≤ length q1)) as [Hc|Hc].
  - destruct (Hle Hc) as [q' Hq'].
    assert (h ∈ queue (mutex m')) as Hin.
    { rewrite Hq'. apply elem_of_app. right. left. }
    pose proof (queued_pending _ _ Hwf' Hin) as Hp.
    split; split; try done; try lia.
    intros Hg. by apply pending_not_granted in Hp.
  - assert (granted m' h) as Hg by (apply Hgt; lia).
    split; split; try done; try lia.
    intros [Hp _]. by apply pending_not_granted in Hp.
Qed.

Lemma lock_eval m : eval lock m = length (heap m).
Proof.
  unfold eval. destruct (locked (mutex m)) eqn:E.
  - by rewrite lock_held.
  - by rewrite lock_free.
Qed.

Lemma lock_held_exec m :
  locked (mutex m) = true →
  exec lock m =
    Machine (mkMutex true (queue (mutex m) ++ [length (heap m)]))
            (heap m ++ [Promise Pending []])
            (jobs m) (trace m ++ [EvLock (length (heap m))]).
Proof. intros H. unfold exec. by rewrite lock_held. Qed.

Lemma lock_free_exec m :
  locked (mutex m) = false →
  exec lock m =
    Machine (mkMutex true (queue (mutex m)))
            (heap m ++ [Promise (Settled (Fulfilled VUndefined)) []])
            (jobs m) (trace m ++ [EvLock (length (heap m))]).
Proof. intros H. unfold exec. by rewrite lock_free. Qed.

Lemma state_of_fresh mx hp js tr s :
  state_of (Machine mx (hp ++ [Promise s []]) js tr) (length hp) = s.
Proof. unfold state_of. cbn. by rewrite list_lookup_middle. Qed.

(** ** The claims about [lock] and [unlock] *)

(** C4. [lock] on a free mutex returns a handle that is completed already
    and marks the mutex held.  [lock] on a held mutex appends the caller to
    the end of the queue and returns a pending handle; in every later
    execution that handle is completed exactly when the calls of [unlock]
    made since outnumber the waiters that were queued before it. *)
Theorem lock_acquires_or_queues (m : machine) :
  wf m →
  let h := eval lock m in
  let m' := exec lock m in
  (locked (mutex m) = false →
     granted m' h ∧ locked (mutex m') = true ∧
     queue (mutex m') = queue (mutex m)) ∧
  (locked (mutex m) = true →
     queue (mutex m') = queue (mutex m) ++ [h] ∧
     locked (mutex m') = true ∧ pending m' h ∧
     ∀ os, granted (run os m') h ↔
           length (queue (mutex m)) <
           unlocks (trace (run os m')) - unlocks (trace m')).
Proof.
  intros Hwf h m'. subst h m'. rewrite lock_eval. split; intros E.
  - rewrite lock_free_exec by done. cbn. split; [|done].
    apply state_of_fresh.
  - pose proof (wf_lock m Hwf) as Hwf'.
    rewrite lock_held_exec in * by done. cbn.
    split; [done|]. split; [done|]. split; [apply state_of_fresh|].
    intros os. by eapply grant_iff.
Qed.

(** C5. [unlock] with a waiter in the queue takes the earliest one out and
    completes its handle; [locked] is [true] before, after, and in between
    every two of the statements that [unlock] executes.  [unlock] with an
    empty queue sets [locked] to [false]. *)
Theorem unlock_hands_over (m : machine) :
  wf m →
  match queue (mutex m) with
  | r :: q =>
      let m1 := exec (emit EvUnlock) m in
      let m2 := exec shift m1 in
      let m3 := exec (resolve_fn r (Plain VUndefined)) m2 in
      pending m r ∧ locked (mutex m) = true ∧
      eval shift m1 = Some r ∧ exec unlock m = m3 ∧
      queue (mutex m3) = q ∧ granted m3 r ∧
      locked (mutex m1) = true ∧ locked (mutex m2) = true ∧
      locked (mutex m3) = true
  | [] =>
      locked (mutex (exec unlock m)) = false ∧
      queue (mutex (exec unlock m)) = []
  end.
Proof.
  intros Hwf. destruct (queue (mutex m)) as [|r q] eqn:E.
  - unfold exec. by rewrite unlock_empty.
  - destruct (wf_queue _ Hwf r) as [rs Hrs]; [rewrite E; left|].
    assert (locked (mutex m) = true) as Hl.
    { destruct (locked (mutex m)) eqn:El; [done|].
      apply (wf_free _ Hwf) in El. congruence. }
    assert (pending m r) as Hp by (apply queued_pending; [done|rewrite E; left]).
    assert (exec unlock m = (unlock m).2) as -> by done.
    rewrite (unlock_waiter m r q rs) by done.
    unfold exec, eval, shift, emit, resolve_fn, settle. cbn.
    rewrite E. cbn. rewrite Hrs. cbn.
    repeat split; try done.
    + by rewrite <- app_assoc.
    + unfold granted. apply state_of_insert_eq. by eapply lookup_lt_Some.
Qed.

(** C9. [unlock] on a mutex that is free and has no waiter leaves the
    mutex, the heap and the job queue as they are. *)
Theorem unlock_free_noop (m : machine) :
  locked (mutex m) = false →
  queue (mutex m) = [] →
  mutex (exec unlock m) = mutex m ∧
  heap (exec unlock m) = heap m ∧
  jobs (exec unlock m) = jobs m.
Proof.
  intros Hl Hq. unfold exec. rewrite unlock_empty by done. cbn.
  destruct (mutex m) as [lk q]. cbn in *. by subst.
Qed.

(** C7. [lock] is a total function of the state, so it cannot throw; the
    handle it returns is completed or pending, and in no later execution
    is it rejected: at every later time it is either completed, or pending
    with its resolving function still in the queue. *)
Theorem lock_never_fails (m : machine) :
  wf m →
  let h := eval lock m in
  let m' := exec lock m in
  lock m = (h, m') ∧
  (granted m' h ∨ pending m' h) ∧
  ∀ os,
    ¬ rejected (run os m') h ∧
    (granted (run os m') h ∨
     pending (run os m') h ∧ h ∈ queue (mutex (run os m'))).
Proof.
  intros Hwf h m'. split; [unfold h, m', eval, exec; by destruct (lock m)|].
  subst h m'. rewrite lock_eval.
  pose proof (wf_lock m Hwf) as Hwf'.
  destruct (locked (mutex m)) eqn:E.
  - rewrite lock_held_exec in * by done.
    set (m' := Machine _ _ _ _) in *.
    split; [right; apply state_of_fresh|].
    intros os.
    destruct (grant_iff m' (length (heap m)) (queue (mutex m)) [] os Hwf' eq_refl)
      as [Hg Hp].
    assert (granted (run os m') (length (heap m)) ∨
            pending (run os m') (length (heap m)) ∧
            length (heap m) ∈ queue (mutex (run os m'))) as Hcase.
    { destruct (decide (length (queue (mutex m)) <
                        unlocks (trace (run os m')) - unlocks (trace m'))).
      - left. by apply Hg.
      - right. apply Hp. lia. }
    split; [|done]. intros [e He].
    destruct Hcase as [Hc|[Hc _]]; unfold granted, pending in Hc; congruence.
  - rewrite lock_free_exec in * by done.
    set (m' := Machine _ _ _ _) in *.
    assert (granted m' (length (heap m))) as Hg by apply state_of_fresh.
    split; [by left|]. intros os.
    assert (granted (run os m') (length (heap m))) as Hg'.
    { eapply settled_steps; [apply (good_run os m' Hwf') | done]. }
    split; [|by left]. intros [e He]. unfold granted in Hg'. congruence.
Qed.

(** C8. When [lock] is called on a mutex that is held, in every execution
    that contains no call of [unlock] the returned handle stays pending. *)
Theorem reentrant_lock_deadlocks (m : machine) (os : list op) :
  wf m →
  locked (mutex m) = true →
  let h := eval lock m in
  let m' := exec lock m in
  unlocks (trace (run os m')) = unlocks (trace m') →
  pending (run os m') h.
Proof.
  intros Hwf E h m'. subst h m'. rewrite lock_eval.
  pose proof (wf_lock m Hwf) as Hwf'.
  rewrite lock_held_exec in * by done.
  set (m' := Machine _ _ _ _) in *. intros Hu.
  destruct (grant_iff m' (length (heap m)) (queue (mutex m)) [] os Hwf' eq_refl)
    as [_ Hp].
  apply Hp. lia.
Qed.

Lemma lock_held_queue m :
  locked (mutex m) = true →
  locked (mutex (exec lock m)) = true ∧
  queue (mutex (exec lock m)) = queue (mutex m) ++ [eval lock m].
Proof.
  intros E. rewrite lock_eval, lock_held_exec by done. done.
Qed.

Lemma unlock_count m :
  wf m → unlocks (trace (exec unlock m)) = S (unlocks (trace m)).
Proof.
  intros Hwf. unfold exec. destruct (queue (mutex m)) as [|r q] eqn:E.
  - rewrite unlock_empty by done. cbn. rewrite unlocks_app. cbn. lia.
  - destruct (wf_queue _ Hwf r) as [rs Hrs]; [rewrite E; left|].
    rewrite (unlock_waiter m r q rs) by done. cbn.
    rewrite unlocks_app. cbn. lia.
Qed.

(** C3. Let A, B and C call [lock], in this order, on a held mutex.  In
    every later execution A's handle is completed exactly from the first
    call of [unlock] that finds no earlier waiter, B's from the call after
    that one, and C's from the one after that.  In particular, with no
    earlier waiter, three calls of [unlock] complete the handles of A, of
    B and of C, one per call, in this order. *)
Theorem waiters_served_in_arrival_order (m : machine) :
  wf m →
  locked (mutex m) = true →
  let a := eval lock m in
  let m1 := exec lock m in
  let b := eval lock m1 in
  let m2 := exec lock m1 in
  let c := eval lock m2 in
  let m3 := exec lock m2 in
  let k := length (queue (mutex m)) in
  queue (mutex m3) = queue (mutex m) ++ [a; b; c] ∧
  (∀ os,
     let n := unlocks (trace (run os m3)) - unlocks (trace m3) in
     (granted (run os m3) a ↔ k < n) ∧
     (granted (run os m3) b ↔ k + 1 < n) ∧
     (granted (run os m3) c ↔ k + 2 < n)) ∧
  (queue (mutex m) = [] →
     let u1 := exec unlock m3 in
     let u2 := exec unlock u1 in
     let u3 := exec unlock u2 in
     (granted u1 a ∧ pending u1 b ∧ pending u1 c) ∧
     (granted u2 a ∧ granted u2 b ∧ pending u2 c) ∧
     (granted u3 a ∧ granted u3 b ∧ granted u3 c)).
Proof.
  intros Hwf E a m1 b m2 c m3 k.
  destruct (lock_held_queue m E) as [E1 Hq1]. fold m1 a in E1, Hq1.
  destruct (lock_held_queue m1 E1) as [E2 Hq2]. fold m2 b in E2, Hq2.
  destruct (lock_held_queue m2 E2) as [E3 Hq3]. fold m3 c in E3, Hq3.
  assert (wf m3) as Hwf3 by (do 3 apply wf_lock; done).
  assert (queue (mutex m3) = queue (mutex m) ++ a :: [b; c]) as Ha.
  { rewrite Hq3, Hq2, Hq1. by rewrite <- !app_assoc. }
  assert (queue (mutex m3) = (queue (mutex m) ++ [a]) ++ b :: [c]) as Hb.
  { rewrite Hq3, Hq2, Hq1. by rewrite <- !app_assoc. }
  assert (queue (mutex m3) = (queue (mutex m) ++ [a; b]) ++ c :: []) as Hc.
  { rewrite Hq3, Hq2, Hq1. by rewrite <- !app_assoc. }
  assert (length (queue (mutex m) ++ [a]) = k + 1) as Hk1.
  { rewrite length_app. done. }
  assert (length (queue (mutex m) ++ [a; b]) = k + 2) as Hk2.
  { rewrite length_app. done. }
  pose proof (λ os, grant_iff m3 a _ _ os Hwf3 Ha) as Ga.
  pose proof (λ os, grant_iff m3 b _ _ os Hwf3 Hb) as Gb.
  pose proof (λ os, grant_iff m3 c _ _ os Hwf3 Hc) as Gc.
  cbn zeta in Ga, Gb, Gc. rewrite Hk1 in Gb. rewrite Hk2 in Gc. fold k in Ga.
  split; [done|]. split.
  - intros os n. split; [apply Ga|]. split; [apply Gb | apply Gc].
  - intros Hq u1 u2 u3.
    assert (k = 0) as Hk0 by (unfold k; by rewrite Hq).
    assert (wf u1) as Hw1 by by apply wf_unlock.
    assert (wf u2) as Hw2 by by apply wf_unlock.
    pose proof (unlock_count m3 Hwf3) as C1. fold u1 in C1.
    pose proof (unlock_count u1 Hw1) as C2. fold u2 in C2.
    pose proof (unlock_count u2 Hw2) as C3. fold u3 in C3.
    repeat split.
    + apply (Ga [OUnlock]). cbn. fold u1. lia.
    + apply (Gb [OUnlock]). cbn. fold u1. lia.
    + apply (Gc [OUnlock]). cbn. fold u1. lia.
    + apply (Ga [OUnlock; OUnlock]). cbn. fold u1 u2. lia.
    + apply (Gb [OUnlock; OUnlock]). cbn. fold u1 u2. lia.
    + apply (Gc [OUnlock; OUnlock]). cbn. fold u1 u2. lia.
    + apply (Ga [OUnlock; OUnlock; OUnlock]). cbn. fold u1 u2 u3. lia.
    + apply (Gb [OUnlock; OUnlock; OUnlock]). cbn. fold u1 u2 u3. lia.
    + apply (Gc [OUnlock; OUnlock; OUnlock]). cbn. fold u1 u2 u3. lia.
Qed.

(** ** Callers that pair [lock] with [unlock] *)

Lemma cinv_init : cinv clients_init.
Proof.
  split; [apply wf_init|]. split; [constructor|]. split.
  - intros h Hh. inversion Hh.
  - exists []. cbn. split; [done|]. split; [|done].
    intros h Hh. inversion Hh.
Qed.

Lemma cinv_acquire c :
  cinv c →
  cinv (Clients (exec lock (mach c)) (arrived c ++ [eval lock (mach c)])
                (released c)).
Proof.
  intros (Hwf & Hnd & Hlt & cur & Harr & Hgr & Hcur).
  set (m := mach c) in *. rewrite lock_eval.
  assert (∀ h, granted m h → granted (exec lock m) h) as Hkeep.
  { intros h Hh. eapply settled_atomic; [apply at_lock | done]. }
  split; [by apply wf_lock|]. cbn. split; [|split].
  - apply NoDup_app. split; [done|]. split; [|apply NoDup_singleton].
    intros h Hh Hx%list_elem_of_singleton. apply Hlt in Hh. lia.
  - assert (length (heap (exec lock m)) = S (length (heap m))) as ->.
    { destruct (locked (mutex m)) eqn:E;
        [rewrite lock_held_exec by done | rewrite lock_free_exec by done];
        cbn; rewrite length_app; cbn; lia. }
    intros h [Hh|Hh%list_elem_of_singleton]%elem_of_app.
    + apply Hlt in Hh. lia.
    + lia.
  - destruct (locked (mutex m)) eqn:E.
    + destruct Hcur as [x ->]. exists [x].
      rewrite lock_held_exec by done. cbn. split; [|split].
      * rewrite Harr. by rewrite <- !app_assoc.
      * intros h Hh. specialize (Hkeep h (Hgr h Hh)).
        by rewrite lock_held_exec in Hkeep.
      * eauto.
    + subst cur. exists [length (heap m)].
      pose proof (wf_free _ Hwf E) as Hq.
      rewrite lock_free_exec by done. cbn. split; [|split].
      * rewrite Harr, Hq. by rewrite <- !app_assoc.
      * intros h [Hh|Hh%list_elem_of_singleton]%elem_of_app.
        -- assert (granted m h) as Hg.
           { apply Hgr. rewrite app_nil_r. done. }
           specialize (Hkeep h Hg). by rewrite lock_free_exec in Hkeep.
        -- subst h. apply state_of_fresh.
      * eauto.
Qed.

(** Who holds the mutex is the one handle between the released ones and
    the waiters. *)
Lemma holder_is_current c cur h :
  wf (mach c) →
  arrived c = released c ++ cur ++ queue (mutex (mach c)) →
  holds c h → h ∈ cur.
Proof.
  intros Hwf Harr (Hin & Hg & Hnr). rewrite Harr in Hin.
  apply elem_of_app in Hin as [Hin|Hin]; [done|].
  apply elem_of_app in Hin as [Hin|Hin]; [done|].
  by apply queued_pending, pending_not_granted in Hin.
Qed.

Lemma cinv_release c h :
  cinv c → holds c h →
  cinv (Clients (exec unlock (mach c)) (arrived c) (released c ++ [h])).
Proof.
  intros (Hwf & Hnd & Hlt & cur & Harr & Hgr & Hcur) Hh.
  pose proof (holder_is_current c cur h Hwf Harr Hh) as Hc.
  set (m := mach c) in *.
  assert (locked (mutex m) = true ∧ cur = [h]) as [E ->].
  { destruct (locked (mutex m)).
    - destruct Hcur as [x ->]. apply list_elem_of_singleton in Hc. by subst.
    - subst cur. inversion Hc. }
  assert (∀ x, granted m x → granted (exec unlock m) x) as Hkeep.
  { intros x Hx. eapply settled_atomic; [apply at_unlock | done]. }
  assert (length (heap (exec unlock m)) = length (heap m)) as Hlen.
  { unfold exec, unlock. mrun. destruct (queue (mutex m)) as [|r q] eqn:Eq; cbn.
    - done.
    - unfold shift, settle. cbn. rewrite Eq. cbn.
      destruct (heap m !! r) as [[[|o] rs]|]; cbn; by rewrite ?length_insert. }
  split; [by apply wf_unlock|]. cbn. split; [done|]. split.
  - intros x Hx. rewrite Hlen. by apply Hlt.
  - destruct (queue (mutex m)) as [|r q] eqn:Eq.
    + exists []. unfold exec in *. rewrite unlock_empty in * by done. cbn.
      split; [|split; [|done]].
      * rewrite Harr. by rewrite <- !app_assoc.
      * intros x Hx. rewrite app_nil_r in Hx. by apply Hkeep, Hgr.
    + exists [r]. destruct (wf_queue _ Hwf r) as [rs Hrs]; [rewrite Eq; left|].
      unfold exec in *. rewrite (unlock_waiter m r q rs) in * by done. cbn.
      split; [|split].
      * rewrite Harr. by rewrite <- !app_assoc.
      * intros x [Hx|Hx%list_elem_of_singleton]%elem_of_app.
        -- by apply Hkeep, Hgr.
        -- subst x. unfold granted. apply state_of_insert_eq.
           by eapply lookup_lt_Some.
      * rewrite E. eauto.
Qed.

Lemma cinv_step r c c' : cinv c → client_step r c = Some c' → cinv c'.
Proof.
  intros Hinv. destruct r as [|h]; cbn.
  - pose proof (cinv_acquire c Hinv) as H. unfold eval, exec in H.
    destruct (lock (mach c)) as [h m']. by intros [= <-].
  - destruct (decide (holds c h)) as [Hh|]; [|done].
    intros [= <-]. by apply cinv_release.
Qed.

Lemma cinv_run rs c c' : cinv c → client_run rs c = Some c' → cinv c'.
Proof.
  revert c. induction rs as [|r rs IH]; intros c Hinv; cbn.
  - by intros [= <-].
  - destruct (client_step r c) as [c1|] eqn:E; [|done].
    apply IH. by eapply cinv_step.
Qed.

(** C2. Start from a fresh mutex and let callers call [lock] and [unlock]
    in any order, every [unlock] being called by a caller that holds the
    mutex.  Then at every moment at most one caller holds it, there is a
    holder exactly when [locked] is set, and a caller whose handle is
    completed finds that every caller who arrived before it has already
    released. *)
Theorem at_most_one_holder (rs : list request) (c : clients) :
  client_run rs clients_init = Some c →
  (∀ h1 h2, holds c h1 → holds c h2 → h1 = h2) ∧
  (locked (mutex (mach c)) = true ↔ ∃ h, holds c h) ∧
  (∀ i j hi hj,
     i < j →
     arrived c !! i = Some hi →
     arrived c !! j = Some hj →
     granted (mach c) hj →
     hi ∈ released c ∧ ¬ holds c hi).
Proof.
  intros Hrun.
  destruct (cinv_run rs _ c cinv_init Hrun)
    as (Hwf & Hnd & Hlt & cur & Harr & Hgr & Hcur).
  assert (length cur ≤ 1) as Hlen.
  { destruct (locked (mutex (mach c))); [destruct Hcur as [x ->]|subst cur];
      cbn; lia. }
  split.
  - intros h1 h2 H1 H2.
    apply (holder_is_current c cur h1 Hwf Harr) in H1.
    apply (holder_is_current c cur h2 Hwf Harr) in H2.
    destruct cur as [|x [|y cur]]; cbn in Hlen; [inversion H1| |lia].
    apply list_elem_of_singleton in H1, H2. congruence.
  - split; [split|].
    + intros E. rewrite E in Hcur. destruct Hcur as [x ->]. exists x.
      split; [rewrite Harr; set_solver|]. split; [apply Hgr; set_solver|].
      rewrite Harr in Hnd. apply NoDup_app in Hnd as (_ & Hnd & _).
      intros Hx. apply (Hnd x Hx). set_solver.
    + intros [h Hh]. apply (holder_is_current c cur h Hwf Harr) in Hh.
      destruct (locked (mutex (mach c))); [done|]. subst cur. inversion Hh.
    + intros i j hi hj Hij Hi Hj Hg.
      assert (j < length (released c ++ cur)) as Hjlt.
      { destruct (decide (j < length (released c ++ cur))) as [|Hge]; [done|].
        exfalso. rewrite Harr, app_assoc in Hj.
        rewrite lookup_app_r in Hj by lia.
        apply list_elem_of_lookup_2 in Hj.
        by apply queued_pending, pending_not_granted in Hj. }
      rewrite length_app in Hjlt.
      assert (hi ∈ released c) as Hrel.
      { rewrite Harr in Hi. rewrite lookup_app_l in Hi by lia.
        by apply list_elem_of_lookup_2 in Hi. }
      split; [done|]. by intros (_ & _ & Hn).
Qed.

(** ** Evaluating [with] on a heap with an unknown prefix *)

Lemma lookup_app_plus {A} (l1 l2 : list A) k :
  (l1 ++ l2) !! (length l1 + k) = l2 !! k.
Proof. rewrite lookup_app_r by lia. f_equal. lia. Qed.

Lemma lookup_app_zero {A} (l1 l2 : list A) :
  (l1 ++ l2) !! length l1 = l2 !! 0.
Proof. rewrite <- (lookup_app_plus l1 l2 0). f_equal. lia. Qed.

Lemma insert_app_zero {A} (l1 l2 : list A) x :
  <[length l1 := x]> (l1 ++ l2) = l1 ++ <[0 := x]> l2.
Proof. rewrite <- (insert_app_r l1 l2 0). f_equal. lia. Qed.

Lemma drain_cons n mx hp j js tr :
  drain (S n) (Machine mx hp (j :: js) tr) =
  drain n (exec (run_job j) (Machine mx hp js tr)).
Proof. reflexivity. Qed.

Lemma drain_nil n mx hp tr :
  drain n (Machine mx hp [] tr) = Machine mx hp [] tr.
Proof. destruct n; reflexivity. Qed.

Lemma drain_idle n m : idle m → drain n m = m.
Proof. unfold idle. intros H. destruct n; cbn; [|rewrite H]; reflexivity. Qed.

#[global] Arguments drain : simpl never.

(** Brings the heap to the form [h ++ l] with [l] explicit, and every
    promise name to the form [length h + k]. *)
Ltac heap_norm :=
  repeat first
    [ progress rewrite <- ?app_assoc
    | progress rewrite ?length_app
    | progress rewrite <- ?Nat.add_assoc
    | progress rewrite ?lookup_app_plus, ?lookup_app_zero
    | progress rewrite ?insert_app_r, ?insert_app_zero
    | progress cbn ].

Lemma not_queued_nil (p : nat) : bool_decide (p ∈ @nil nat) = false.
Proof. apply bool_decide_eq_false_2, not_elem_of_nil. Qed.

Ltac mstep :=
  cbv [with_ lock unlock then_ call invoke run_job tick resolve_fn
       get_mutex set_locked push shift emit enqueue new_promise
       settle subscribe env_settle mbind M_bind mret M_ret exec eval
       at_rest held queued_state granted_state waiting
       fulfilled failed undef];
  cbn; rewrite ?not_queued_nil; heap_norm.

Ltac mdrain :=
  repeat first [rewrite drain_nil | rewrite drain_cons; mstep].

(** Fuel [k + n] with [k] a numeral, so that [drain] can take [k] jobs. *)
Ltac fuel n k :=
  let d := fresh "d" in
  let E := fresh "E" in
  destruct (Nat.le_exists_sub k n) as (d & E & _); [lia|];
  rewrite Nat.add_comm in E; cbn in E; subst n.


(** ** What a call of [with] does, step by step *)

Section WithRuns.
Variables (hp : list promise) (tr : list event).

Lemma with_call cb :
  with_ cb (at_rest hp tr) =
    (length hp, granted_state hp (tr ++ [EvLock (length hp + 1)]) cb).
Proof. mstep. reflexivity. Qed.

Lemma with_exec cb :
  exec (with_ cb) (at_rest hp tr) =
    granted_state hp (tr ++ [EvLock (length hp + 1)]) cb.
Proof. unfold exec. by rewrite with_call. Qed.

(** A call of [with] on a held mutex with no job to run: nothing moves. *)
Lemma with_on_held cb q :
  with_ cb (Machine (mkMutex true q) hp [] tr) =
    (length hp, queued_state q hp (tr ++ [EvLock (length hp + 1)]) cb).
Proof. mstep. reflexivity. Qed.

Lemma queued_handover cb :
  exec unlock (queued_state [] hp tr cb) =
    granted_state hp
      (tr ++ [EvUnlock; EvSettle (length hp + 1) (Fulfilled undef)]) cb.
Proof. mstep. reflexivity. Qed.

Lemma body_return v n :
  5 ≤ n →
  drain n (granted_state hp tr (ActReturn v)) =
    Machine fresh_mutex
      (hp ++ [fulfilled undef; fulfilled undef; fulfilled undef]) []
      (tr ++ [EvInvoke (ActReturn v); EvUnlock;
              EvSettle (length hp + 2) (Fulfilled undef);
              EvSettle (length hp) (Fulfilled undef)]).
Proof. intros Hn. fuel n 5. mstep. mdrain. reflexivity. Qed.

Lemma body_throw e n :
  5 ≤ n →
  drain n (granted_state hp tr (ActThrow e)) =
    Machine (mkMutex true [])
      (hp ++ [failed e; fulfilled undef; failed e]) []
      (tr ++ [EvInvoke (ActThrow e);
              EvSettle (length hp + 2) (Rejected e);
              EvSettle (length hp) (Rejected e)]).
Proof. intros Hn. fuel n 5. mstep. mdrain. reflexivity. Qed.

Lemma body_async_fulfilled v n :
  5 ≤ n →
  drain n (granted_state hp tr (ActAsync (Settled (Fulfilled v)))) =
    Machine fresh_mutex
      (hp ++ [fulfilled undef; fulfilled undef; fulfilled undef;
              fulfilled v; fulfilled undef]) []
      (tr ++ [EvInvoke (ActAsync (Settled (Fulfilled v)));
              EvUnlock; EvSettle (length hp + 4) (Fulfilled undef);
              EvSettle (length hp + 2) (Fulfilled undef);
              EvSettle (length hp) (Fulfilled undef)]).
Proof. intros Hn. fuel n 5. mstep. mdrain. reflexivity. Qed.

Lemma body_async_rejected e n :
  5 ≤ n →
  drain n (granted_state hp tr (ActAsync (Settled (Rejected e)))) =
    Machine (mkMutex true [])
      (hp ++ [failed e; fulfilled undef; failed e; failed e; failed e]) []
      (tr ++ [EvInvoke (ActAsync (Settled (Rejected e)));
              EvSettle (length hp + 4) (Rejected e);
              EvSettle (length hp + 2) (Rejected e);
              EvSettle (length hp) (Rejected e)]).
Proof. intros Hn. fuel n 5. mstep. mdrain. reflexivity. Qed.

Lemma body_async_pending n :
  5 ≤ n →
  drain n (granted_state hp tr (ActAsync Pending)) =
    waiting hp (tr ++ [EvInvoke (ActAsync Pending)]).
Proof. intros Hn. fuel n 5. mstep. mdrain. reflexivity. Qed.

Lemma waiting_then_fulfilled v n :
  5 ≤ n →
  drain n (exec (env_settle (length hp + 3) (Fulfilled v)) (waiting hp tr)) =
    Machine fresh_mutex
      (hp ++ [fulfilled undef; fulfilled undef; fulfilled undef;
              fulfilled v; fulfilled undef]) []
      (tr ++ [EvSettle (length hp + 3) (Fulfilled v); EvUnlock;
              EvSettle (length hp + 4) (Fulfilled undef);
              EvSettle (length hp + 2) (Fulfilled undef);
              EvSettle (length hp) (Fulfilled undef)]).
Proof. intros Hn. fuel n 5. mstep. mdrain. reflexivity. Qed.

Lemma waiting_then_rejected e n :
  5 ≤ n →
  drain n (exec (env_settle (length hp + 3) (Rejected e)) (waiting hp tr)) =
    Machine (mkMutex true [])
      (hp ++ [failed e; fulfilled undef; failed e; failed e; failed e]) []
      (tr ++ [EvSettle (length hp + 3) (Rejected e);
              EvSettle (length hp + 4) (Rejected e);
              EvSettle (length hp + 2) (Rejected e);
              EvSettle (length hp) (Rejected e)]).
Proof. intros Hn. fuel n 5. mstep. mdrain. reflexivity. Qed.
End WithRuns.

Lemma unlock_trace m :
  ∃ evs, trace (exec unlock m) = trace m ++ EvUnlock :: evs.
Proof.
  unfold exec, unlock. mrun. destruct (queue (mutex m)) as [|r q] eqn:E; cbn.
  - by exists [].
  - unfold shift, settle. cbn. rewrite E. cbn.
    destruct (heap m !! r) as [[[|o] rs]|]; cbn; rewrite <- ?app_assoc; eauto.
Qed.

Lemma invocations_app tr1 tr2 :
  invocations (tr1 ++ tr2) = invocations tr1 + invocations tr2.
Proof.
  induction tr1 as [|[] tr1 IH]; cbn; rewrite ?IH; reflexivity.
Qed.

Ltac observe :=
  unfold idle, granted, pending, rejected, state_of,
    at_rest, held, queued_state, granted_state, waiting,
    fulfilled, failed, undef;
  cbn; heap_norm.

(** Where [with] stands once its handle from [lock] is fulfilled: at once
    on a free mutex, after the holder's [unlock] on a held one. *)
Lemma with_granted hp tr lk cb :
  let m := Machine (mkMutex lk []) hp [] tr in
  let m1 := exec (with_ cb) m in
  eval (with_ cb) m = length hp ∧
  (lk = true → m1 = queued_state [] hp (tr ++ [EvLock (length hp + 1)]) cb) ∧
  exec (holder_unlocks m) m1 =
    granted_state hp
      (tr ++ EvLock (length hp + 1) ::
         (if lk then [EvUnlock; EvSettle (length hp + 1) (Fulfilled undef)]
          else [])) cb.
Proof.
  cbn zeta. unfold holder_unlocks, eval. destruct lk; cbn [mutex locked].
  - unfold exec at 1 3. rewrite with_on_held. cbn [fst snd].
    split; [done|]. split; [done|].
    rewrite queued_handover. by rewrite <- app_assoc.
  - change (Machine (mkMutex false []) hp [] tr) with (at_rest hp tr).
    unfold exec. rewrite with_call. cbn [fst snd]. done.
Qed.

(** ** The claims about [with] *)

(** C6. [with] is called in a state with no job waiting to run and no
    waiter in the queue.  It first calls [lock]; on a held mutex nothing
    else happens until the holder calls [unlock].  Once the handle from
    [lock] is fulfilled the action is called, once.  When the action
    returns a plain value, or a promise that is fulfilled (already, or later
    by the application), [unlock] is called after that and before the
    promise that [with] returned is fulfilled.  When the action throws or
    its promise is rejected, the action has been called once as well and
    the trace is as given. *)
Theorem with_runs_action_under_lock (m : machine) (cb : action) (n : nat) :
  idle m →
  queue (mutex m) = [] →
  5 ≤ n →
  let h := length (heap m) in
  let m1 := exec (with_ cb) m in
  let m1' := exec (holder_unlocks m) m1 in
  let m2 := drain n m1' in
  let t := trace m1' in
  let done := Fulfilled VUndefined in
  eval (with_ cb) m = h ∧
  trace m1 = trace m ++ [EvLock (h + 1)] ∧
  locked (mutex m1) = true ∧
  (locked (mutex m) = true → idle m1 ∧ pending m1 (h + 1)) ∧
  granted m1' (h + 1) ∧
  locked (mutex m1') = true ∧
  invocations t = invocations (trace m) ∧
  idle m2 ∧
  match cb with
  | ActReturn v =>
      trace m2 = t ++
        [EvInvoke cb; EvUnlock; EvSettle (h + 2) done; EvSettle h done] ∧
      mutex m2 = fresh_mutex
  | ActAsync (Settled (Fulfilled v)) =>
      trace m2 = t ++
        [EvInvoke cb; EvUnlock;
         EvSettle (h + 4) done; EvSettle (h + 2) done; EvSettle h done] ∧
      mutex m2 = fresh_mutex
  | ActAsync Pending =>
      trace m2 = t ++ [EvInvoke cb] ∧
      locked (mutex m2) = true ∧
      pending m2 (h + 3) ∧ pending m2 h ∧
      ∀ v,
        let m3 := drain n (exec (env_settle (h + 3) (Fulfilled v)) m2) in
        idle m3 ∧
        trace m3 = trace m2 ++
          [EvSettle (h + 3) (Fulfilled v); EvUnlock;
           EvSettle (h + 4) done; EvSettle (h + 2) done; EvSettle h done] ∧
        mutex m3 = fresh_mutex
  | ActThrow e =>
      trace m2 = t ++
        [EvInvoke cb; EvSettle (h + 2) (Rejected e); EvSettle h (Rejected e)]
  | ActAsync (Settled (Rejected e)) =>
      trace m2 = t ++
        [EvInvoke cb; EvSettle (h + 4) (Rejected e);
         EvSettle (h + 2) (Rejected e); EvSettle h (Rejected e)]
  end.
Proof.
  destruct m as [[lk q] hp js tr]. unfold idle. cbn. intros -> -> Hn.
  destruct (with_granted hp tr lk cb) as (He & Hq & Hg).
  assert (trace (exec (with_ cb) (Machine (mkMutex lk []) hp [] tr)) =
          tr ++ [EvLock (length hp + 1)] ∧
          locked (mutex (exec (with_ cb) (Machine (mkMutex lk []) hp [] tr)))
          = true) as [Ht Hl].
  { destruct lk.
    - by rewrite Hq.
    - change (Machine (mkMutex false []) hp [] tr) with (at_rest hp tr).
      unfold exec. by rewrite with_call. }
  split; [done|]. split; [done|]. split; [done|]. split.
  { intros ->. rewrite Hq by done. split; [done | by observe]. }
  rewrite Hg. clear He Hq Hg Ht Hl.
  split; [by observe|]. split; [done|]. split.
  { cbn. rewrite invocations_app. destruct lk; cbn; lia. }
  destruct cb as [e|v|[|[v|e]]].
  - rewrite body_throw by done. done.
  - rewrite body_return by done. done.
  - rewrite body_async_pending by done.
    split; [done|]. split; [done|]. split; [done|].
    split; [by observe|]. split; [by observe|].
    intros v. rewrite waiting_then_fulfilled by done. done.
  - rewrite body_async_fulfilled by done. done.
  - rewrite body_async_rejected by done. done.
Qed.

(** C10. The arrow function that [with] hands to [then] calls the action
    and, when that returns a plain value, calls [unlock] next, in the same
    job.  A call of [with] with such an action takes the lock and queues
    the job of this function; the job calls the action once and releases
    in the same step, before the promise of [with] is settled; at the end
    the mutex is free.  The same holds for a call that had to wait for the
    holder's [unlock]. *)
Theorem with_plain_return_releases (m : machine) (v : value) (n : nat) :
  (call (CbBody (ActReturn v)) m =
     (Returned (Plain VUndefined),
      exec unlock (exec (invoke (ActReturn v)) m)) ∧
   eval (invoke (ActReturn v)) m = Returned (Plain v) ∧
   ∃ evs, trace (exec (call (CbBody (ActReturn v))) m) =
          trace m ++ EvInvoke (ActReturn v) :: EvUnlock :: evs) ∧
  (idle m → mutex m = fresh_mutex → 5 ≤ n →
   let pw := eval (with_ (ActReturn v)) m in
   let m1 := exec (with_ (ActReturn v)) m in
   let m2 := exec tick m1 in
   let m' := drain n m1 in
   (locked (mutex m1) = true ∧
    jobs m1 = [JReaction (OnFulfilled (CbBody (ActReturn v)) (pw + 2))
                 (Fulfilled VUndefined)] ∧
    trace m1 = trace m ++ [EvLock (pw + 1)]) ∧
   (mutex m2 = fresh_mutex ∧ pending m2 pw ∧
    trace m2 = trace m ++ [EvLock (pw + 1); EvInvoke (ActReturn v); EvUnlock;
                           EvSettle (pw + 2) (Fulfilled VUndefined)]) ∧
   idle m' ∧ mutex m' = fresh_mutex ∧
   granted m' (eval (with_ (ActReturn v)) m) ∧
   trace m' = trace m ++ [EvLock (pw + 1); EvInvoke (ActReturn v); EvUnlock;
                          EvSettle (pw + 2) (Fulfilled VUndefined);
                          EvSettle pw (Fulfilled VUndefined)]) ∧
  (idle m → mutex m = mkMutex true [] → 5 ≤ n →
   let pw := eval (with_ (ActReturn v)) m in
   let m1 := exec (with_ (ActReturn v)) m in
   let m' := drain n (exec unlock m1) in
   (idle m1 ∧ queue (mutex m1) = [pw + 1] ∧
    trace m1 = trace m ++ [EvLock (pw + 1)]) ∧
   idle m' ∧ mutex m' = fresh_mutex ∧ granted m' pw ∧
   trace m' = trace m ++ [EvLock (pw + 1); EvUnlock;
                          EvSettle (pw + 1) (Fulfilled VUndefined);
                          EvInvoke (ActReturn v); EvUnlock;
                          EvSettle (pw + 2) (Fulfilled VUndefined);
                          EvSettle pw (Fulfilled VUndefined)]).
Proof.
  split; [|split].
  - assert (call (CbBody (ActReturn v)) m =
            (Returned (Plain VUndefined),
             exec unlock (exec (invoke (ActReturn v)) m))) as Hcall.
    { unfold call, invoke, exec. mrun. by destruct (unlock _) as [[] m']. }
    split; [done|]. split; [done|].
    unfold exec at 1. rewrite Hcall. cbn.
    destruct (unlock_trace (exec (invoke (ActReturn v)) m)) as [evs ->].
    exists evs. change (trace (exec (invoke (ActReturn v)) m))
      with (trace m ++ [EvInvoke (ActReturn v)]).
    by rewrite <- app_assoc.
  - destruct m as [mx hp js tr]. unfold idle. cbn. intros -> -> Hn.
    change (Machine fresh_mutex hp [] tr) with (at_rest hp tr).
    rewrite !with_exec. unfold eval. rewrite with_call. cbn [fst snd].
    split; [done|]. split.
    + unfold granted_state. mstep.
      split; [done|]. split; [by observe|]. done.
    + rewrite body_return by done.
      split; [done|]. split; [done|]. split; [by observe|].
      cbn. by rewrite <- ?app_assoc.
  - destruct m as [mx hp js tr]. unfold idle. cbn. intros -> -> Hn.
    assert (exec (with_ (ActReturn v)) (Machine (mkMutex true []) hp [] tr)
            = queued_state [] hp (tr ++ [EvLock (length hp + 1)]) (ActReturn v))
      as -> by (unfold exec; by rewrite with_on_held).
    unfold eval. rewrite with_on_held. cbn [fst snd].
    split; [done|].
    rewrite queued_handover, body_return by done.
    split; [done|]. split; [done|]. split; [by observe|].
    cbn. by rewrite <- ?app_assoc.
Qed.

(** On a held mutex with nothing to run, a call of [with] only queues. *)
Lemma later_with_blocked hp tr cb k :
  let m := held hp tr in
  let m' := drain k (exec (with_ cb) m) in
  pending m' (eval (with_ cb) m) ∧
  invocations (trace m') = invocations (trace m).
Proof.
  cbn zeta. unfold exec, eval, held. rewrite with_on_held. cbn [fst snd].
  rewrite drain_idle by done. split.
  - by observe.
  - cbn. rewrite invocations_app. cbn. lia.
Qed.

(** C1, on the code: when the action throws, or returns a promise that is
    rejected, or one that the application rejects later, the promise that
    [with] returned is rejected with the same value, but [unlock] has not
    been called and the mutex stays held; a later call of [with] does not
    get to call its action. *)
Theorem with_failure_keeps_lock (m : machine) (e : value) (n : nat) :
  idle m →
  mutex m = fresh_mutex →
  5 ≤ n →
  let pw := length (heap m) in
  let left_held m' :=
    idle m' ∧ state_of m' pw = Settled (Rejected e) ∧
    mutex m' = mkMutex true [] ∧
    unlocks (trace m') = unlocks (trace m) ∧
    ∀ cb k,
      let m'' := drain k (exec (with_ cb) m') in
      pending m'' (eval (with_ cb) m') ∧
      invocations (trace m'') = invocations (trace m') in
  left_held (drain n (exec (with_ (ActThrow e)) m)) ∧
  left_held (drain n (exec (with_ (ActAsync (Settled (Rejected e)))) m)) ∧
  left_held (drain n (exec (env_settle (pw + 3) (Rejected e))
                       (drain n (exec (with_ (ActAsync Pending)) m)))).
Proof.
  destruct m as [mx hp js tr]. unfold idle. cbn. intros -> -> Hn.
  change (Machine fresh_mutex hp [] tr) with (at_rest hp tr).
  rewrite !with_exec.
  rewrite body_throw, body_async_rejected, body_async_pending by done.
  rewrite waiting_then_rejected by done.
  split; [|split].
  - split; [done|]. split; [by observe|]. split; [done|]. split.
    + cbn. rewrite !unlocks_app. cbn. lia.
    + intros cb k. apply later_with_blocked.
  - split; [done|]. split; [by observe|]. split; [done|]. split.
    + cbn. rewrite !unlocks_app. cbn. lia.
    + intros cb k. apply later_with_blocked.
  - split; [done|]. split; [by observe|]. split; [done|]. split.
    + cbn. rewrite !unlocks_app. cbn. lia.
    + intros cb k. apply later_with_blocked.
Qed.

(** ** Once nobody is left to call [unlock] *)

Lemma with_on_held_any cb lk q hp js tr :
  lk = true →
  with_ cb (Machine (mkMutex lk q) hp js tr) =
    (length hp,
     Machine (mkMutex true (q ++ [length hp + 1]))
       (hp ++ [Promise Pending [];
               Promise Pending [OnFulfilled (CbBody cb) (length hp + 2)];
               Promise Pending [Forward (length hp)]]) js
       (tr ++ [EvLock (length hp + 1)])).
Proof. intros ->. mstep. reflexivity. Qed.

Lemma stuck_settle m p o :
  stuck m → p ∉ queue (mutex m) →
  let m' := exec (settle p o) m in
  stuck m' ∧
  invocations (trace m') = invocations (trace m) ∧
  unlocks (trace m') = unlocks (trace m).
Proof.
  intros (Hwf & Hl & Hj & Hr) Hp m'.
  assert (wf m') as Hwf' by by apply wf_settle.
  subst m'. unfold exec, settle in *.
  destruct (heap m !! p) as [[[|o'] rs]|] eqn:E; cbn in *; try done.
  rewrite invocations_app, unlocks_app. cbn.
  split; [|lia]. split; [done|]. split; [done|]. split.
  - intros j [Hin|Hin]%elem_of_app; [by apply Hj|].
    apply list_elem_of_fmap in Hin as (r & -> & Hin).
    destruct (Hr p _ r E Hin) as [Hf|Hq]; [|done].
    by destruct r.
  - intros q pr r Hq Hin.
    apply list_lookup_insert_Some in Hq as [(<- & <- & _)|[_ Hq]].
    + inversion Hin.
    + by eapply Hr.
Qed.

Lemma stuck_subscribe m q t :
  stuck m → ok m t →
  let m' := exec (subscribe q (Forward t)) m in
  stuck m' ∧ trace m' = trace m.
Proof.
  intros (Hwf & Hl & Hj & Hr) Hok m'.
  assert (wf m') as Hwf' by by apply wf_subscribe.
  subst m'. unfold exec, subscribe in *.
  destruct (heap m !! q) as [[[|o'] rs]|] eqn:E; cbn in *; try done.
  - split; [|done]. split; [done|]. split; [done|]. split; [done|].
    intros p pr r Hp Hin.
    apply list_lookup_insert_Some in Hp as [(<- & <- & _)|[_ Hp]].
    + cbn in Hin. apply elem_of_app in Hin as [Hin|Hin%list_elem_of_singleton].
      * by eapply Hr.
      * subst r. by left.
    + by eapply Hr.
  - split; [|done]. split; [done|]. split; [done|]. split; [|done].
    intros j [Hin|Hin%list_elem_of_singleton]%elem_of_app; [by apply Hj|].
    by subst j.
Qed.

Lemma stuck_op m o :
  stuck m → indirect o →
  let m' := exec (step o) m in
  stuck m' ∧
  invocations (trace m') = invocations (trace m) ∧
  unlocks (trace m') = unlocks (trace m).
Proof.
  intros Hs Ho m'. pose proof Hs as (Hwf & Hl & Hj & Hr).
  subst m'. destruct o as [| |cb| |p o]; try done; unfold step; mnorm.
  - pose proof (wf_lock m Hwf) as Hwf'.
    rewrite lock_held_exec in * by done. cbn.
    rewrite invocations_app, unlocks_app. cbn.
    split; [|lia]. split; [done|]. split; [done|]. split; [done|].
    intros p pr r Hp Hin. apply lookup_app_Some in Hp as [Hp|[_ Hp]].
    + destruct (Hr p pr r Hp Hin) as [?|?]; [by left|right].
      apply elem_of_app. by left.
    + apply list_lookup_singleton_Some in Hp as [_ <-]. inversion Hin.
  - destruct (good_with m cb Hwf) as [_ Hwf'].
    destruct m as [[lk q] hp js tr]. cbn in Hl.
    unfold exec in *. rewrite with_on_held_any in * by done. cbn in *.
    rewrite invocations_app, unlocks_app. cbn.
    split; [|lia]. split; [done|]. split; [done|]. split; [done|].
    intros p pr r Hp Hin. apply lookup_app_Some in Hp as [Hp|[Hge Hp]].
    + destruct (Hr p pr r Hp Hin) as [?|?]; [by left|right].
      apply elem_of_app. by left.
    + assert (p = length hp + (p - length hp)) as Hpe by lia.
      destruct (p - length hp) as [|[|[|k]]]; cbn in Hp.
      * injection Hp as <-. inversion Hin.
      * right. apply elem_of_app. right. apply list_elem_of_singleton. lia.
      * injection Hp as <-. apply list_elem_of_singleton in Hin. subst r.
        by left.
      * done.
  - unfold exec, tick in *. destruct (jobs m) as [|j js] eqn:E; [done|].
    destruct (wf_dequeue m j js Hwf E) as [Hwf0 Hok].
    assert (stuck (Machine (mutex m) (heap m) js (trace m))) as Hs0.
    { split; [done|]. split; [done|]. split; [|done].
      intros j' Hin. apply Hj. by right. }
    assert (inert_job j) as Hi by (apply Hj; left).
    destruct j as [[f d|t] [v|e]|q t]; cbn in Hi; try done; cbn.
    + apply (stuck_settle _ t (Fulfilled v) Hs0), Hok.
    + apply (stuck_settle _ t (Rejected e) Hs0), Hok.
    + destruct (stuck_subscribe _ q t Hs0 Hok) as [H1 H2].
      split; [done|]. unfold exec in H2. by rewrite H2.
  - unfold exec, env_settle in *. case_bool_decide as Hp; [done|].
    by apply stuck_settle.
Qed.

(** X6. Once the mutex is held and no callback is left that would call
    [unlock], it stays held: whatever is done short of a direct call of
    [unlock], no action is called any more. *)
Lemma stuck_forever m os :
  stuck m → Forall indirect os →
  let m' := run os m in
  stuck m' ∧
  invocations (trace m') = invocations (trace m) ∧
  unlocks (trace m') = unlocks (trace m).
Proof.
  intros Hs Hos. induction os as [|o os IH] using rev_ind; cbn zeta.
  - done.
  - apply Forall_app in Hos as [Hos Ho]. rewrite Forall_singleton in Ho.
    destruct (IH Hos) as (Hs' & Hi & Hu). rewrite run_snoc.
    destruct (stuck_op _ o Hs' Ho) as (Hs'' & Hi' & Hu').
    split; [done|]. split; congruence.
Qed.

(** A call of [with] whose action throws leaves such a state behind. *)
Lemma failed_with_is_stuck e n :
  5 ≤ n → stuck (drain n (exec (with_ (ActThrow e)) init)).
Proof.
  intros Hn. split.
  - eapply wf_steps; [|apply drain_steps]; apply good_with, wf_init.
  - change init with (at_rest [] []). rewrite with_exec, body_throw by done.
    cbn. split; [done|]. split; [intros j Hj; inversion Hj|].
    intros p pr r Hp Hin.
    destruct p as [|[|[|p]]]; cbn in Hp; try done;
      injection Hp as <-; inversion Hin.
Qed.

(** ** Reachable states and concrete runs *)

Lemma reachable_wf os : wf (run os init).
Proof. apply (good_run os init wf_init). Qed.

(** Without the pairing of [lock] and [unlock] two callers hold the mutex:
    the first caller releases twice, which frees the mutex under the
    second one. *)
Lemma unpaired_unlock_two_holders :
  let c := unchecked_run
             [Acquire; Acquire; Release 0; Release 0; Acquire] clients_init in
  holds c 1 ∧ holds c 2.
Proof. cbn zeta. apply (bool_decide_unpack _). vm_compute. reflexivity. Qed.

(** One caller runs a slow action under [with]; a second caller calls
    [lock] meanwhile and waits until the action is done and [with] has
    called [unlock]; after the second caller's [unlock] a third caller gets
    the mutex at once. *)
Lemma serialised_scenario :
  let m1 := run [OWith (ActAsync Pending); OTick; OTick; OLock; OTick] init in
  let m2 := run [OSettle 3 (Fulfilled VUndefined); OTick] m1 in
  let m3 := run [OUnlock; OLock] m2 in
  (pending m1 5 ∧ queue (mutex m1) = [5]) ∧
  (granted m2 5 ∧ mutex m2 = mkMutex true []) ∧
  (granted m3 6 ∧ mutex m3 = mkMutex true []).
Proof. vm_compute. done. Qed.

Lemma at_most_one_holder_witness :
  ∃ c, client_run [Acquire; Acquire; Release 0; Acquire] clients_init = Some c ∧
       holds c 1 ∧
       (∀ h, holds c h → h = 1) ∧
       (granted (mach c) 1 → 0 ∈ released c).
Proof.
  eexists. split; [vm_compute; reflexivity|].
  match goal with |- holds ?c _ ∧ _ =>
    assert (client_run [Acquire; Acquire; Release 0; Acquire] clients_init
            = Some c) as Hrun by (vm_compute; reflexivity);
    assert (holds c 1) as H1
      by (apply (bool_decide_unpack _); vm_compute; reflexivity);
    destruct (at_most_one_holder _ c Hrun) as (Huniq & _ & Hord)
  end.
  split; [exact H1|]. split.
  - intros h Hh. exact (Huniq h 1 Hh H1).
  - intros Hg. exact (proj1 (Hord 0 1 0 1 (le_n 1) eq_refl eq_refl Hg)).
Defined.

Lemma waiters_served_in_arrival_order_witness :
  let m := exec lock init in
  let m3 := exec lock (exec lock (exec lock m)) in
  let u1 := exec unlock m3 in
  let u2 := exec unlock u1 in
  let u3 := exec unlock u2 in
  wf m ∧ locked (mutex m) = true ∧
  queue (mutex m3) = [1; 2; 3] ∧
  (granted u1 1 ∧ pending u1 2 ∧ pending u1 3) ∧
  (granted u2 2 ∧ pending u2 3) ∧
  granted u3 3.
Proof.
  intros m m3 u1 u2 u3.
  assert (wf m) as Hwf by apply wf_lock, wf_init.
  destruct (waiters_served_in_arrival_order m Hwf eq_refl) as (Hq & _ & H).
  destruct (H eq_refl) as ((A1 & B1 & C1) & (A2 & B2 & C2) & (A3 & B3 & C3)).
  split; [exact Hwf|]. split; [reflexivity|]. split; [exact Hq|].
  split; [exact (conj A1 (conj B1 C1))|]. split; [exact (conj B2 C2)|].
  exact C3.
Defined.

Lemma lock_acquires_or_queues_witness :
  let m := exec lock init in
  wf init ∧ wf m ∧
  locked (mutex init) = false ∧ granted m 0 ∧ locked (mutex m) = true ∧
  pending (exec lock m) 1 ∧ queue (mutex (exec lock m)) = [1] ∧
  granted (run [OUnlock] (exec lock m)) 1.
Proof.
  intros m. assert (wf m) as Hwf by apply wf_lock, wf_init.
  destruct (lock_acquires_or_queues init wf_init) as [Hfree _].
  destruct (Hfree eq_refl) as (Hg & Hl & _).
  destruct (lock_acquires_or_queues m Hwf) as [_ Hheld].
  destruct (Hheld eq_refl) as (Hq & _ & Hp & Hiff).
  split; [exact wf_init|]. split; [exact Hwf|]. split; [reflexivity|].
  split; [exact Hg|]. split; [exact Hl|]. split; [exact Hp|].
  split; [exact Hq|].
  apply (Hiff [OUnlock]). vm_compute. lia.
Defined.

Lemma unlock_hands_over_witness :
  let m := exec lock (exec lock init) in
  let m' := exec unlock m in
  wf m ∧ queue (mutex m) = [1] ∧ pending m 1 ∧
  granted m' 1 ∧ queue (mutex m') = [] ∧ locked (mutex m') = true ∧
  locked (mutex (exec unlock m')) = false.
Proof.
  intros m m'.
  assert (wf m) as Hwf by (do 2 apply wf_lock; apply wf_init).
  assert (wf m') as Hwf' by apply wf_unlock, Hwf.
  pose proof (unlock_hands_over m Hwf) as H.
  pose proof (unlock_hands_over m' Hwf') as H'.
  vm_compute in H, H'.
  destruct H as (Hp & _ & _ & _ & Hq & Hg & _ & _ & Hl).
  destruct H' as [Hl' _].
  split; [exact Hwf|]. split; [reflexivity|]. split; [exact Hp|].
  split; [exact Hg|]. split; [exact Hq|]. split; [exact Hl|]. exact Hl'.
Defined.

Lemma unlock_free_noop_witness :
  locked (mutex init) = false ∧ queue (mutex init) = [] ∧
  mutex (exec unlock init) = fresh_mutex ∧ heap (exec unlock init) = [].
Proof.
  destruct (unlock_free_noop init eq_refl eq_refl) as (Hm & Hh & _).
  split; [reflexivity|]. split; [reflexivity|]. split; [exact Hm | exact Hh].
Defined.

Lemma lock_never_fails_witness :
  let m := exec lock init in
  let os := [OWith (ActThrow (VStr "boom")); OTick; OUnlock; OTick; OTick] in
  wf m ∧ pending (exec lock m) 1 ∧ ¬ rejected (run os (exec lock m)) 1.
Proof.
  intros m os. assert (wf m) as Hwf by apply wf_lock, wf_init.
  destruct (lock_never_fails m Hwf) as (_ & _ & H).
  split; [exact Hwf|]. split; [reflexivity|]. exact (proj1 (H os)).
Defined.

Lemma reentrant_lock_deadlocks_witness :
  let m := exec lock init in
  let os := [OLock; OWith (ActReturn VUndefined); OTick; OTick] in
  wf m ∧ locked (mutex m) = true ∧
  unlocks (trace (run os (exec lock m))) = unlocks (trace (exec lock m)) ∧
  pending (run os (exec lock m)) 1.
Proof.
  intros m os. assert (wf m) as Hwf by apply wf_lock, wf_init.
  split; [exact Hwf|]. split; [reflexivity|]. split; [reflexivity|].
  exact (reentrant_lock_deadlocks m os Hwf eq_refl eq_refl).
Defined.

Lemma with_runs_action_under_lock_witness :
  let m := exec lock init in
  let cb := ActAsync Pending in
  let done := Fulfilled VUndefined in
  let m1 := exec (with_ cb) m in
  let m2 := drain 5 (exec unlock m1) in
  let m3 := drain 5 (exec (env_settle 4 (Fulfilled (VNum 7))) m2) in
  idle m ∧ queue (mutex m) = [] ∧ 5 ≤ 5 ∧
  trace m1 = [EvLock 0; EvLock 2] ∧
  trace m2 = [EvLock 0; EvLock 2; EvUnlock; EvSettle 2 done; EvInvoke cb] ∧
  locked (mutex m2) = true ∧
  trace m3 =
    [EvLock 0; EvLock 2; EvUnlock; EvSettle 2 done; EvInvoke cb;
     EvSettle 4 (Fulfilled (VNum 7)); EvUnlock;
     EvSettle 5 done; EvSettle 3 done; EvSettle 1 done] ∧
  mutex m3 = fresh_mutex.
Proof.
  intros m cb done m1 m2 m3.
  destruct (with_runs_action_under_lock m cb 5 eq_refl eq_refl (le_n 5))
    as (_ & Ht1 & _ & _ & _ & _ & _ & _ & Ht & Hl & _ & _ & H).
  destruct (H (VNum 7)) as (_ & Ht3 & Hm3).
  split; [reflexivity|]. split; [reflexivity|]. split; [exact (le_n 5)|].
  split; [exact Ht1|]. split; [exact Ht|]. split; [exact Hl|].
  split; [exact Ht3 | exact Hm3].
Defined.

Lemma with_plain_return_releases_witness :
  let m1 := exec (with_ (ActReturn (VNum 1))) init in
  let m' := drain 5 m1 in
  idle init ∧ mutex init = fresh_mutex ∧ 5 ≤ 5 ∧
  locked (mutex m1) = true ∧
  mutex (exec tick m1) = fresh_mutex ∧ pending (exec tick m1) 0 ∧
  idle m' ∧ mutex m' = fresh_mutex ∧ granted m' 0 ∧
  trace m' = [EvLock 1; EvInvoke (ActReturn (VNum 1)); EvUnlock;
              EvSettle 2 (Fulfilled VUndefined);
              EvSettle 0 (Fulfilled VUndefined)].
Proof.
  intros m1 m'.
  destruct (with_plain_return_releases init (VNum 1) 5) as (_ & H & _).
  destruct (H eq_refl eq_refl (le_n 5))
    as ((Hl & _) & (Hm2 & Hp2 & _) & Hi & Hm & Hg & Ht).
  split; [reflexivity|]. split; [reflexivity|]. split; [exact (le_n 5)|].
  split; [exact Hl|]. split; [exact Hm2|]. split; [exact Hp2|].
  split; [exact Hi|]. split; [exact Hm|]. split; [exact Hg | exact Ht].
Defined.

Lemma with_failure_keeps_lock_witness :
  let m' := drain 5 (exec (with_ (ActThrow (VStr "X"))) init) in
  idle init ∧ mutex init = fresh_mutex ∧ 5 ≤ 5 ∧
  idle m' ∧ state_of m' 0 = Settled (Rejected (VStr "X")) ∧
  locked (mutex m') = true ∧ unlocks (trace m') = 0.
Proof.
  intros m'.
  destruct (with_failure_keeps_lock init (VStr "X") 5 eq_refl eq_refl (le_n 5))
    as [(Hi & Hs & Hm & Hu & _) _].
  split; [reflexivity|]. split; [reflexivity|]. split; [exact (le_n 5)|].
  split; [exact Hi|]. split; [exact Hs|].
  split; [exact (f_equal locked Hm) | exact Hu].
Defined.

(** * Further properties *)

(** ** Balanced use of [lock] and [unlock] *)

Lemma locks_keep_held n :
  ∀ m, wf m → locked (mutex m) = true →
  let m' := repeat_call n lock m in
  wf m' ∧ locked (mutex m') = true ∧
  queue (mutex m') = queue (mutex m) ++ seq (length (heap m)) n ∧
  ∀ p o, state_of m p = Settled o → state_of m' p = Settled o.
Proof.
  induction n as [|n IH]; intros m Hwf Hl; cbn.
  - rewrite app_nil_r. done.
  - pose proof (wf_lock m Hwf) as Hwf1.
    destruct (lock_held_queue m Hl) as [Hl1 Hq1].
    destruct (IH (exec lock m) Hwf1 Hl1) as (Hwf' & Hl' & Hq & Hs).
    split; [done|]. split; [done|]. split.
    + rewrite Hq, Hq1, lock_eval, lock_held_exec by done. cbn.
      rewrite length_app, <- app_assoc. cbn. do 3 f_equal. lia.
    + intros p o Hp. apply Hs. eapply settled_atomic; [apply at_lock|done].
Qed.

Lemma unlocks_empty_queue q :
  ∀ m, wf m → locked (mutex m) = true → queue (mutex m) = q →
  let m' := repeat_call (S (length q)) unlock m in
  mutex m' = fresh_mutex ∧ (∀ p, p ∈ q → granted m' p) ∧
  ∀ p o, state_of m p = Settled o → state_of m' p = Settled o.
Proof.
  induction q as [|r q IH]; intros m Hwf Hl Hq.
  - cbn. unfold exec. rewrite unlock_empty by done. cbn.
    split; [done|]. split; [intros p Hp; inversion Hp | done].
  - change (repeat_call (S (length (r :: q))) unlock m)
      with (repeat_call (S (length q)) unlock (exec unlock m)).
    pose proof (wf_unlock m Hwf) as Hwf1.
    destruct (wf_queue _ Hwf r) as [rs Hrs]; [rewrite Hq; left|].
    assert (locked (mutex (exec unlock m)) = true ∧
            queue (mutex (exec unlock m)) = q ∧
            granted (exec unlock m) r) as (Hl1 & Hq1 & Hg1).
    { unfold exec. rewrite (unlock_waiter m r q rs) by done. cbn.
      split; [done|]. split; [done|].
      unfold granted. apply state_of_insert_eq. by eapply lookup_lt_Some. }
    destruct (IH (exec unlock m) Hwf1 Hl1 Hq1) as (Hm & Hg & Hs).
    split; [done|]. split.
    + intros p [->|Hp]%elem_of_cons; [by apply Hs | by apply Hg].
    + intros p o Hp. apply Hs. eapply settled_atomic; [apply at_unlock|done].
Qed.

(** X1. On a free mutex, [n] calls of [lock] followed by [n] calls of
    [unlock] leave the mutex free with an empty queue, and each of the [n]
    handles has been completed. *)
Theorem balanced_calls_free_the_mutex (m : machine) (n : nat) :
  wf m →
  locked (mutex m) = false →
  let m' := repeat_call n unlock (repeat_call n lock m) in
  mutex m' = fresh_mutex ∧
  ∀ i, i < n → granted m' (length (heap m) + i).
Proof.
  intros Hwf Hl. destruct n as [|n].
  - cbn. split; [|lia]. pose proof (wf_free _ Hwf Hl) as Hq.
    destruct (mutex m) as [lk q]. cbn in *. by subst.
  - cbn zeta.
    change (repeat_call (S n) lock m) with (repeat_call n lock (exec lock m)).
    pose proof (wf_lock m Hwf) as Hwf1.
    pose proof (wf_free _ Hwf Hl) as Hq.
    assert (locked (mutex (exec lock m)) = true ∧
            queue (mutex (exec lock m)) = [] ∧
            length (heap (exec lock m)) = S (length (heap m)) ∧
            granted (exec lock m) (length (heap m))) as (Hl1 & Hq1 & Hlen1 & Hg1).
    { rewrite lock_free_exec by done. cbn. rewrite length_app. cbn.
      repeat split; try done; try lia. apply state_of_fresh. }
    destruct (locks_keep_held n (exec lock m) Hwf1 Hl1)
      as (Hwf2 & Hl2 & Hq2 & Hs2).
    rewrite Hq1, Hlen1 in Hq2. cbn in Hq2.
    set (m2 := repeat_call n lock (exec lock m)) in *.
    destruct (unlocks_empty_queue _ m2 Hwf2 Hl2 Hq2) as (Hm & Hg & Hs).
    rewrite length_seq in Hm, Hg, Hs.
    split; [done|]. intros i Hi. destruct i as [|i].
    + rewrite Nat.add_0_r. by apply Hs, Hs2.
    + apply Hg. apply elem_of_seq. lia.
Qed.

Lemma balanced_calls_free_the_mutex_witness :
  let m' := repeat_call 3 unlock (repeat_call 3 lock init) in
  wf init ∧ locked (mutex init) = false ∧
  mutex m' = fresh_mutex ∧ granted m' 0 ∧ granted m' 1 ∧ granted m' 2.
Proof.
  intros m'.
  destruct (balanced_calls_free_the_mutex init 3 wf_init eq_refl) as [Hm Hg].
  split; [exact wf_init|]. split; [reflexivity|]. split; [exact Hm|].
  split; [exact (Hg 0 ltac:(lia))|].
  split; [exact (Hg 1 ltac:(lia)) | exact (Hg 2 ltac:(lia))].
Defined.

(** X2. In every state reached from a fresh mutex by calls of [lock],
    [unlock] and [with], jobs, and settlements by the application, a free
    mutex has no waiter, and the queued resolving functions belong to
    promises that are pending and pairwise distinct. *)
Theorem queue_invariant (os : list op) :
  let m := run os init in
  (locked (mutex m) = false → queue (mutex m) = []) ∧
  NoDup (queue (mutex m)) ∧
  ∀ p, p ∈ queue (mutex m) → pending m p.
Proof.
  cbn zeta. destruct (good_run os init wf_init) as [_ Hwf].
  split; [apply Hwf|]. split; [apply Hwf|].
  intros p Hp. by apply queued_pending.
Qed.

(** ** The callbacks of [with], one at a time *)

Lemma locks_app tr1 tr2 : locks (tr1 ++ tr2) = locks tr1 + locks tr2.
Proof.
  induction tr1 as [|[] tr1 IH]; cbn; rewrite ?IH; reflexivity.
Qed.

Lemma cbs_app rs1 rs2 : cbs (rs1 ++ rs2) = cbs rs1 ++ cbs rs2.
Proof. apply omap_app. Qed.

Lemma live_settled rs o :
  omap live (map (λ r, JReaction r o) rs) =
  match o with Fulfilled _ => cbs rs | Rejected _ => [] end.
Proof.
  induction rs as [|[f d|t] rs IH]; destruct o; cbn in *; rewrite ?IH; done.
Qed.

#[global] Arguments cbs : simpl never.

Lemma cbs_nil : cbs [] = [].
Proof. reflexivity. Qed.

Lemma cbs_forward rs t : cbs (rs ++ [Forward t]) = cbs rs.
Proof. unfold cbs. rewrite omap_app. cbn. by rewrite app_nil_r. Qed.

Lemma cbs_on_fulfilled rs f d : cbs (rs ++ [OnFulfilled f d]) = cbs rs ++ [f].
Proof. unfold cbs. by rewrite omap_app. Qed.

Section Shape.
Variable P : action → Prop.

Lemma shape_invoke L J U n a m cb :
  shape P L J U n (S a) m →
  shape P L J U (S n) a (exec (emit (EvInvoke cb)) m).
Proof.
  intros [Hwf Hl Hj Hq Ho Hr Hc Hk].
  split; cbn; try done.
  - by apply wf_emit.
  - rewrite invocations_app, unlocks_app. cbn. lia.
  - rewrite invocations_app, locks_app. cbn. lia.
Qed.

Lemma shape_new L J U n a m s :
  shape P L J U n a m → shape P L J U n a (exec (new_promise s) m).
Proof.
  intros [Hwf Hl Hj Hq Ho Hr Hc Hk].
  split; cbn; try done.
  - by apply wf_new.
  - intros p pr Hp Hin. apply lookup_app_Some in Hp as [Hp|[Hge Hp]].
    + by eapply Hq.
    + apply (queue_lt _ _ Hwf) in Hin. lia.
  - intros p pr Hp Hin. apply lookup_app_Some in Hp as [Hp|[Hge Hp]].
    + by eapply Ho.
    + apply list_lookup_singleton_Some in Hp as [_ <-]. cbn.
      rewrite cbs_nil. case_decide as HU; [|done].
      destruct (Hr p HU) as (_ & rs & Hrs). apply lookup_lt_Some in Hrs. lia.
  - intros pa HU. destruct (Hr pa HU) as (Hnq & rs & Hrs).
    split; [done|]. exists rs. by apply lookup_app_l_Some.
Qed.

Lemma shape_settle L J U n a m p o :
  shape P L J U n a m →
  p ∉ queue (mutex m) →
  shape P L
    (J ++ if decide (U = Some p)
          then match o with Fulfilled _ => [CbUnlock] | Rejected _ => [] end
          else [])
    (if decide (U = Some p) then None else U) n a
    (exec (settle p o) m).
Proof.
  intros [Hwf Hl Hj Hq Ho Hr Hc Hk] Hp.
  pose proof (wf_settle p o m Hwf Hp) as Hwf'.
  unfold exec, settle in *.
  destruct (heap m !! p) as [[[|o'] rs]|] eqn:E; cbn in *.
  - split; cbn; try done.
    + rewrite omap_app, Hj, live_settled. f_equal.
      specialize (Ho p _ E Hp). cbn [reactions] in Ho. rewrite Ho.
      case_decide; by destruct o.
    + intros q pr Hq' Hin.
      rewrite list_lookup_insert_ne in Hq' by (by intros ->). by eapply Hq.
    + intros q pr Hq' Hin.
      apply list_lookup_insert_Some in Hq' as [(<- & <- & _)|[Hne Hq']].
      * cbn. rewrite cbs_nil. repeat case_decide; congruence.
      * rewrite (Ho q pr Hq' Hin). repeat case_decide; congruence.
    + intros pa HU. assert (U = Some pa ∧ pa ≠ p) as [HU' Hne].
      { case_decide; [done|]. split; [done|]. congruence. }
      destruct (Hr pa HU') as (Hnq & rs' & Hrs). split; [done|].
      exists rs'. by rewrite list_lookup_insert_ne.
    + rewrite invocations_app, unlocks_app. cbn. lia.
    + rewrite invocations_app, locks_app. cbn. lia.
  - assert (U ≠ Some p) as HU.
    { intros HU. destruct (Hr p HU) as (_ & rs' & Hrs). congruence. }
    rewrite !decide_False by done. rewrite app_nil_r. by split.
  - assert (U ≠ Some p) as HU.
    { intros HU. destruct (Hr p HU) as (_ & rs' & Hrs). congruence. }
    rewrite !decide_False by done. rewrite app_nil_r. by split.
Qed.

Lemma shape_subscribe_forward L J U n a m q t :
  shape P L J U n a m → ok m t →
  shape P L J U n a (exec (subscribe q (Forward t)) m).
Proof.
  intros [Hwf Hl Hj Hq Ho Hr Hc Hk] Hok.
  pose proof (wf_subscribe q (Forward t) m Hwf Hok) as Hwf'.
  unfold exec, subscribe in *.
  destruct (heap m !! q) as [[[|o'] rs]|] eqn:E; cbn in *.
  - pose proof (cbs_forward rs t) as Hcb.
    split; cbn; try done.
    + intros p pr Hp Hin.
      apply list_lookup_insert_Some in Hp as [(<- & <- & _)|[Hne Hp]].
      * cbn. rewrite Hcb. by apply (Hq q _ E).
      * by eapply Hq.
    + intros p pr Hp Hin.
      apply list_lookup_insert_Some in Hp as [(<- & <- & _)|[Hne Hp]].
      * cbn. rewrite Hcb. by apply (Ho q _ E).
      * by eapply Ho.
    + intros pa HU. destruct (Hr pa HU) as (Hnq & rs' & Hrs).
      split; [done|]. destruct (decide (q = pa)) as [->|Hne].
      * eexists. apply list_lookup_insert_eq. by eapply lookup_lt_Some.
      * exists rs'. by rewrite list_lookup_insert_ne.
  - split; cbn; try done. rewrite omap_app, Hj. cbn. by rewrite app_nil_r.
  - by split.
Qed.

Lemma shape_thenable L J U n a m q t :
  shape P L J U n a m → ok m t →
  shape P L J U n a (exec (enqueue (JThenable q t)) m).
Proof.
  intros [Hwf Hl Hj Hq Ho Hr Hc Hk] Hok.
  split; cbn; try done.
  - by apply (wf_enqueue (JThenable q t)).
  - rewrite omap_app, Hj. cbn. by rewrite app_nil_r.
Qed.
End Shape.

Section Shape2.
Variable P : action → Prop.

(** [ret.then(() => { this.unlock(); })] on the promise an action has just
    returned. *)
Lemma shape_subscribe_unlock L J n a m pa d s :
  shape P L J None n a m →
  heap m !! pa = Some (Promise s []) →
  pa ∉ queue (mutex m) →
  ok m d →
  let m' := exec (subscribe pa (OnFulfilled CbUnlock d)) m in
  match s with
  | Pending => shape P L J (Some pa) n a m'
  | Settled (Fulfilled _) => shape P L (J ++ [CbUnlock]) None n a m'
  | Settled (Rejected _) => shape P L J None n a m'
  end.
Proof.
  intros [Hwf Hl Hj Hq Ho Hr Hc Hk] Hpa Hnq Hok m'.
  pose proof (wf_subscribe pa (OnFulfilled CbUnlock d) m Hwf Hok) as Hwf'.
  subst m'. unfold exec, subscribe in *. rewrite Hpa in *.
  destruct s as [|[v|e]]; cbn in *.
  - split; cbn; try done.
    + intros p pr Hp Hin.
      apply list_lookup_insert_Some in Hp as [(<- & <- & _)|[Hne Hp]]; [done|].
      by eapply Hq.
    + intros p pr Hp Hin.
      apply list_lookup_insert_Some in Hp as [(<- & <- & _)|[Hne Hp]].
      * cbn. by rewrite decide_True.
      * rewrite (Ho p pr Hp Hin). repeat case_decide; congruence.
    + intros pa' [= <-]. split; [done|]. eexists.
      apply list_lookup_insert_eq. by eapply lookup_lt_Some.
  - split; cbn; try done. by rewrite omap_app, Hj.
  - split; cbn; try done. rewrite omap_app, Hj. cbn. by rewrite app_nil_r.
Qed.

Lemma shape_unlock J U n a m :
  shape P true J U (S n) a m →
  match queue (mutex m) with
  | [] => shape P false J U n a (exec unlock m)
  | r :: q => ∃ cb, P cb ∧ shape P true (J ++ [CbBody cb]) U n (S a)
                                   (exec unlock m)
  end.
Proof.
  intros [Hwf Hl Hj Hq Ho Hr Hc Hk].
  pose proof (wf_unlock m Hwf) as Hwf'. unfold exec in *.
  destruct (queue (mutex m)) as [|r q] eqn:E.
  - rewrite unlock_empty in * by done. split; cbn; try done.
    + rewrite invocations_app, unlocks_app. cbn. lia.
    + rewrite invocations_app, locks_app. cbn in *. lia.
  - destruct (wf_queue _ Hwf r) as [rs Hrs]; [rewrite E; left|].
    pose proof (wf_nodup _ Hwf) as Hnd. rewrite E in Hnd.
    apply NoDup_cons in Hnd as [Hrq Hnd].
    destruct (Hq r _ Hrs) as (cb & Hcb & Hcbs); [left|].
    cbn [reactions] in Hcbs.
    rewrite (unlock_waiter m r q rs) in * by done.
    exists cb. split; [done|]. split; cbn; try done.
    + by rewrite omap_app, Hj, live_settled, Hcbs.
    + intros p pr Hp Hin.
      rewrite list_lookup_insert_ne in Hp by (by intros ->).
      apply (Hq p pr Hp). by right.
    + intros p pr Hp Hin.
      apply list_lookup_insert_Some in Hp as [(<- & <- & _)|[Hne Hp]].
      * cbn. rewrite cbs_nil. case_decide as HU; [|done].
        destruct (Hr r HU) as [Hnr _]. exfalso. apply Hnr. left.
      * apply (Ho p pr Hp). intros [?|?]%elem_of_cons; done.
    + intros pa HU. destruct (Hr pa HU) as (Hnq & rs' & Hrs').
      apply not_elem_of_cons in Hnq as [Hne Hnq].
      split; [done|]. exists rs'. by rewrite list_lookup_insert_ne.
    + rewrite invocations_app, unlocks_app. cbn. lia.
    + rewrite invocations_app, locks_app. cbn in *. lia.
Qed.

Lemma shape_dequeue L J U n a m j js :
  shape P L J U n a m →
  jobs m = j :: js →
  let m0 := Machine (mutex m) (heap m) js (trace m) in
  ∃ J', J = option_list (live j) ++ J' ∧
        shape P L J' U n a m0 ∧ ok m0 (jtarget j).
Proof.
  intros [Hwf Hl Hj Hq Ho Hr Hc Hk] E m0.
  destruct (wf_dequeue m j js Hwf E) as [Hwf0 Hok].
  exists (omap live js). split.
  - rewrite <- Hj, E. cbn. by destruct (live j).
  - split; [by split|done].
Qed.

Lemma with_on_free_any cb q hp js tr :
  with_ cb (Machine (mkMutex false q) hp js tr) =
    (length hp,
     Machine (mkMutex true q)
       (hp ++ [Promise Pending []; fulfilled undef;
               Promise Pending [Forward (length hp)]])
       (js ++ [JReaction (OnFulfilled (CbBody cb) (length hp + 2))
                 (Fulfilled undef)])
       (tr ++ [EvLock (length hp + 1)])).
Proof. mstep. reflexivity. Qed.

(** The promises a call of [with] creates carry nothing but its own
    callbacks. *)
Lemma lookup_three {A} (hp : list A) x y z p pr :
  (hp ++ [x; y; z]) !! p = Some pr →
  hp !! p = Some pr ∨
  (p = length hp ∧ pr = x) ∨ (p = length hp + 1 ∧ pr = y) ∨
  (p = length hp + 2 ∧ pr = z).
Proof.
  intros [H|[Hge H]]%lookup_app_Some; [by left|right].
  destruct (p - length hp) as [|[|[|k]]] eqn:Ek; cbn in H; try done;
    injection H as <-; [left|right; left|right; right]; split; try done; lia.
Qed.

Lemma shape_with L J U n a m cb :
  shape P L J U n a m →
  P cb →
  let m' := exec (with_ cb) m in
  if L then shape P true J U n a m'
  else shape P true (J ++ [CbBody cb]) U n (S a) m'.
Proof.
  intros [Hwf Hl Hj Hq Ho Hr Hc Hk] Hcb m'.
  destruct (good_with m cb Hwf) as [_ Hwf']. subst m'.
  assert (∀ pa, U = Some pa → pa < length (heap m)) as Hlt.
  { intros pa HU. destruct (Hr pa HU) as (_ & rs & Hrs).
    by eapply lookup_lt_Some. }
  destruct m as [[lk q] hp js tr]. cbn in *. subst lk. unfold exec in *.
  destruct L.
  - rewrite with_on_held_any in * by done. split; cbn; try done.
    + intros p pr Hp Hin. apply lookup_three in Hp as [Hp|Hp].
      * apply (Hq p pr Hp). apply elem_of_app in Hin as [?|Hx]; [done|].
        apply list_elem_of_singleton in Hx. apply lookup_lt_Some in Hp. lia.
      * apply elem_of_app in Hin as [Hin|Hx].
        { apply (queue_lt _ _ Hwf) in Hin. cbn in Hin. lia. }
        apply list_elem_of_singleton in Hx.
        destruct Hp as [[-> _]|[[_ ->]|[-> _]]]; try lia.
        exists cb. split; [done|]. reflexivity.
    + intros p pr Hp Hin. apply not_elem_of_app in Hin as [Hin Hx].
      apply lookup_three in Hp as [Hp|Hp]; [by apply Ho|].
      rewrite list_elem_of_singleton in Hx.
      destruct Hp as [[-> ->]|[[-> _]|[-> ->]]]; try done;
        (case_decide as HU; [apply Hlt in HU; lia | reflexivity]).
    + intros pa HU. destruct (Hr pa HU) as (Hnq & rs & Hrs). split.
      * intros [?|Hx]%elem_of_app; [done|].
        apply list_elem_of_singleton in Hx. apply Hlt in HU. lia.
      * exists rs. by apply lookup_app_l_Some.
    + rewrite invocations_app, unlocks_app. cbn. lia.
    + rewrite invocations_app, locks_app, length_app. cbn. lia.
  - rewrite with_on_free_any in *. split; cbn; try done.
    + rewrite omap_app, Hj. done.
    + intros p pr Hp Hin. apply lookup_three in Hp as [Hp|Hp].
      * by apply (Hq p pr Hp).
      * apply (queue_lt _ _ Hwf) in Hin. cbn in Hin. lia.
    + intros p pr Hp Hin.
      apply lookup_three in Hp as [Hp|Hp]; [by apply Ho|].
      destruct Hp as [[-> ->]|[[-> ->]|[-> ->]]];
        (case_decide as HU; [apply Hlt in HU; lia | reflexivity]).
    + intros pa HU. destruct (Hr pa HU) as (Hnq & rs & Hrs).
      split; [done|]. exists rs. by apply lookup_app_l_Some.
    + rewrite invocations_app, unlocks_app. cbn. lia.
    + rewrite invocations_app, locks_app. cbn. lia.
Qed.
End Shape2.

Section Serial.
Variable P : action → Prop.

Lemma shape_settle_idle L J n a m p o :
  shape P L J None n a m → p ∉ queue (mutex m) →
  shape P L J None n a (exec (settle p o) m).
Proof.
  intros Hs Hp. pose proof (shape_settle P L J None n a m p o Hs Hp) as H.
  rewrite decide_False in H by done. rewrite decide_False in H by done.
  by rewrite app_nil_r in H.
Qed.

Lemma serial_settle ph m p o :
  serial P ph m → p ∉ queue (mutex m) →
  ∃ ph', serial P ph' (exec (settle p o) m) ∧ (calm ph → calm ph').
Proof.
  intros Hs Hp. destruct ph as [|cb|pa| |]; cbn in Hs.
  - exists Free. split; [|done]. by apply shape_settle_idle.
  - exists (Armed cb). split; [|done].
    destruct Hs as [Hcb Hs]. split; [done|]. by apply shape_settle_idle.
  - pose proof (shape_settle P _ _ _ _ _ m p o Hs Hp) as H.
    destruct (decide (Some pa = Some p)) as [_|_]; [destruct o as [v|e]|].
    + exists Releasing. by split.
    + exists Stuck. by split.
    + exists (Running pa). by split.
  - exists Releasing. split; [|done]. by apply shape_settle_idle.
  - exists Stuck. split; [|done]. by apply shape_settle_idle.
Qed.

Lemma serial_keep ph m m' :
  (∀ L J U n a, shape P L J U n a m → shape P L J U n a m') →
  serial P ph m → serial P ph m'.
Proof.
  intros H Hs. destruct ph; cbn in *; try by apply H.
  split; [apply Hs | apply H, Hs].
Qed.

(** A job that calls no callback of the class. *)
Lemma serial_inert ph m j :
  serial P ph m → live j = None → ok m (jtarget j) →
  ∃ ph', serial P ph' (exec (run_job j) m) ∧ (calm ph → calm ph').
Proof.
  intros Hs Hl Hok. destruct j as [[f d|t] [v|e]|q t]; cbn in *;
    try discriminate.
  - apply serial_settle; [done | apply Hok].
  - apply serial_settle; [done | apply Hok].
  - apply serial_settle; [done | apply Hok].
  - exists ph. split; [|done]. eapply serial_keep; [|done].
    intros L J U n a Hsh. by apply shape_subscribe_forward.
Qed.
(** The call of [unlock] that follows an action, and the settlement of the
    promise [d] of the [then] it belongs to. *)
Lemma serial_release m d :
  shape P true [] None 1 0 m → ok m d →
  ∃ ph', serial P ph' (exec (settle d (Fulfilled VUndefined)) (exec unlock m))
         ∧ calm ph'.
Proof.
  intros Hs Hok.
  pose proof (good_ok _ _ _ (good_unlock m (sh_wf _ _ _ _ _ _ _ Hs)) Hok)
    as [_ Hd].
  pose proof (shape_unlock P _ _ _ _ _ Hs) as H.
  destruct (queue (mutex m)) as [|r q].
  - exists Free. split; [|done]. by apply shape_settle_idle.
  - destruct H as (cb & Hcb & H). exists (Armed cb). split; [|done].
    split; [done|]. by apply shape_settle_idle.
Qed.

(** The job that runs the closure of [with]. *)
Lemma serial_body m cb d v :
  P cb → shape P true [] None 0 1 m → ok m d →
  let j := JReaction (OnFulfilled (CbBody cb) d) (Fulfilled v) in
  ∃ ph', serial P ph' (exec (run_job j) m) ∧ (completes_at_once cb → calm ph').
Proof.
  intros Hcb Hs Hok j. subst j.
  pose proof (sh_wf _ _ _ _ _ _ _ Hs) as Hwf.
  pose proof (shape_invoke P _ _ _ _ _ _ cb Hs) as H1.
  pose proof (good_step _ _ _ (good_refl m Hwf) (at_invoke m cb)) as G1.
  pose proof (good_ok _ _ _ G1 Hok) as Hok1.
  set (m1 := exec (emit (EvInvoke cb)) m) in *.
  destruct cb as [e|v'|s].
  - unfold run_job, call, invoke; mnorm; cbn; fold m1.
    exists Stuck. split; [|done]. apply shape_settle_idle; [done|apply Hok1].
  - unfold run_job, call, invoke; mnorm; cbn; fold m1.
    destruct (serial_release m1 d H1 Hok1) as (ph' & Hph & Hc). by exists ph'.
  - set (pa := length (heap m)).
    set (m2 := exec (new_promise s) m1).
    set (m3 := exec (new_promise Pending) m2).
    set (m4 := exec (subscribe pa (OnFulfilled CbUnlock (S pa))) m3).
    assert (exec (run_job (JReaction (OnFulfilled (CbBody (ActAsync s)) d)
                                     (Fulfilled v))) m
            = exec (enqueue (JThenable (S pa) d)) m4) as ->.
    { unfold run_job, call, invoke, then_. mnorm. cbn.
      subst m4 m3 m2 m1 pa. cbn. rewrite length_app, Nat.add_comm.
      reflexivity. }
    pose proof (shape_new P _ _ _ _ _ _ s H1) as H2. fold m2 in H2.
    pose proof (shape_new P _ _ _ _ _ _ Pending H2) as H3. fold m3 in H3.
    pose proof (good_new m1 s (sh_wf _ _ _ _ _ _ _ H1)) as G2. fold m2 in G2.
    pose proof (good_new m2 Pending (sh_wf _ _ _ _ _ _ _ H2)) as G3.
    fold m3 in G3.
    pose proof (good_ok _ _ _ G3 (good_ok _ _ _ G2 Hok1)) as Hok3.
    assert (ok m3 (S pa)) as Hd3.
    { pose proof (ok_fresh m2 (sh_wf _ _ _ _ _ _ _ H2) Pending) as Hf.
      fold m3 in Hf. replace (S pa) with (length (heap m2)); [done|].
      subst m2 m1 pa. cbn. rewrite length_app. cbn. lia. }
    assert (heap m3 !! pa = Some (Promise s [])) as Hpa.
    { subst m3 m2 m1 pa. cbn. rewrite <- app_assoc. cbn.
      by rewrite lookup_app_zero. }
    assert (pa ∉ queue (mutex m3)) as Hnq.
    { intros Hin. apply (queue_lt _ _ Hwf) in Hin. subst pa. lia. }
    pose proof (shape_subscribe_unlock P _ _ _ _ m3 pa (S pa) s H3 Hpa Hnq Hd3)
      as H4. fold m4 in H4. cbn zeta in H4.
    assert (ok m4 d) as Hok4.
    { eapply good_ok; [|exact Hok3]. eapply good_step.
      - apply good_refl, (sh_wf _ _ _ _ _ _ _ H3).
      - by apply at_subscribe. }
    destruct s as [|[w|e]].
    + exists (Running pa). split; [|done]. by apply shape_thenable.
    + exists Releasing. split; [|done]. by apply shape_thenable.
    + exists Stuck. split; [|done]. by apply shape_thenable.
Qed.
Lemma serial_tick ph m :
  serial P ph m →
  ∃ ph', serial P ph' (exec tick m) ∧
         ((∀ cb, P cb → completes_at_once cb) → calm ph → calm ph').
Proof.
  intros Hs. unfold exec at 1, tick. destruct (jobs m) as [|j js] eqn:E.
  { exists ph. by split. }
  set (m0 := Machine (mutex m) (heap m) js (trace m)).
  change ((run_job j m0).2) with (exec (run_job j) m0).
  destruct (live j) as [f|] eqn:Hl.
  - destruct j as [[f' d|t] [v|e]|q t]; try discriminate.
    injection Hl as ->.
    destruct ph as [|cb|pa| |]; cbn in Hs;
      try (destruct (shape_dequeue P _ _ _ _ _ m _ js Hs E)
             as (J' & HJ & _); discriminate).
    + destruct Hs as [Hcb Hs].
      destruct (shape_dequeue P _ _ _ _ _ m _ js Hs E) as (J' & HJ & H0 & Hok).
      injection HJ as <- <-. fold m0 in H0, Hok.
      destruct (serial_body m0 cb d v Hcb H0 Hok) as (ph' & Hph & Hc).
      exists ph'. split; [done|]. intros HP _. by apply Hc, HP.
    + destruct (shape_dequeue P _ _ _ _ _ m _ js Hs E) as (J' & HJ & H0 & Hok).
      injection HJ as <- <-. fold m0 in H0, Hok.
      assert (exec (run_job (JReaction (OnFulfilled CbUnlock d) (Fulfilled v)))
                m0 = exec (settle d (Fulfilled VUndefined)) (exec unlock m0))
        as ->.
      { unfold run_job, call. mnorm. reflexivity. }
      destruct (serial_release m0 d H0 Hok) as (ph' & Hph & Hc).
      by exists ph'.
  - assert (serial P ph m0 ∧ ok m0 (jtarget j)) as [Hs0 Hok].
    { destruct ph as [|cb|pa| |]; cbn in Hs |- *;
        [|destruct Hs as [Hcb Hs]| | |];
        destruct (shape_dequeue P _ _ _ _ _ m _ js Hs E)
          as (J' & HJ & H0 & Hok);
        rewrite Hl in HJ; cbn in HJ; subst J'; done. }
    destruct (serial_inert ph m0 j Hs0 Hl Hok) as (ph' & Hph & Hc).
    exists ph'. split; [done|]. intros _. exact Hc.
Qed.

Lemma serial_with ph m cb :
  serial P ph m → P cb →
  ∃ ph', serial P ph' (exec (with_ cb) m) ∧ (calm ph → calm ph').
Proof.
  intros Hs Hcb. destruct ph as [|cb'|pa| |]; cbn in Hs.
  - exists (Armed cb). split; [|done]. split; [done|].
    apply (shape_with P _ _ _ _ _ m cb Hs Hcb).
  - exists (Armed cb'). split; [|done]. destruct Hs as [Hcb' Hs].
    split; [done|]. apply (shape_with P _ _ _ _ _ m cb Hs Hcb).
  - exists (Running pa). split; [|done].
    apply (shape_with P _ _ _ _ _ m cb Hs Hcb).
  - exists Releasing. split; [|done].
    apply (shape_with P _ _ _ _ _ m cb Hs Hcb).
  - exists Stuck. split; [|done].
    apply (shape_with P _ _ _ _ _ m cb Hs Hcb).
Qed.

Lemma serial_step ph m o :
  serial P ph m → with_only P o →
  ∃ ph', serial P ph' (exec (step o) m) ∧
         ((∀ cb, P cb → completes_at_once cb) → calm ph → calm ph').
Proof.
  intros Hs Ho. destruct o as [| |cb| |p o]; cbn in Ho; try done.
  - unfold step. mnorm.
    destruct (serial_with ph m cb Hs Ho) as (ph' & Hph & Hc).
    exists ph'. split; [done|]. intros _. exact Hc.
  - by apply serial_tick.
  - unfold step, exec, env_settle. case_bool_decide as Hp.
    + exists ph. by split.
    + destruct (serial_settle ph m p o Hs Hp) as (ph' & Hph & Hc).
      exists ph'. split; [done|]. intros _. exact Hc.
Qed.

Lemma serial_run os :
  Forall (with_only P) os →
  ∃ ph, serial P ph (run os init) ∧
        ((∀ cb, P cb → completes_at_once cb) → calm ph).
Proof.
  induction os as [|o os IH] using rev_ind; intros Hos.
  - exists Free. split; [|done]. cbn. split; cbn; try done.
    apply wf_init.
  - apply Forall_app in Hos as [Hos Ho]. rewrite Forall_singleton in Ho.
    destruct (IH Hos) as (ph & Hs & Hc). rewrite run_snoc.
    destruct (serial_step ph _ o Hs Ho) as (ph' & Hs' & Hc').
    exists ph'. split; [done|]. intros HP. by apply Hc', Hc.
Qed.
End Serial.

(** ** The job queue empties *)

Lemma sum_list_insert {A} (f : A → nat) (l : list A) i x y :
  l !! i = Some y →
  sum_list_with f (<[i := x]> l) + f y = sum_list_with f l + f x.
Proof.
  revert i. induction l as [|z l IH]; intros [|i] H; try done.
  - injection H as ->. clear IH. simpl. lia.
  - simpl in H. specialize (IH i H). simpl. lia.
Qed.

Lemma weight_reactions o rs :
  sum_list_with job_weight (map (λ r, JReaction r o) rs) =
  sum_list_with reaction_weight rs.
Proof. induction rs as [|r rs IH]; simpl; [done|]. by rewrite IH. Qed.

Lemma weight_settle p o m : weight (exec (settle p o) m) = weight m.
Proof.
  unfold exec, settle.
  destruct (heap m !! p) as [[[|o'] rs]|] eqn:E; cbn; try done.
  unfold weight. cbn.
  pose proof (sum_list_insert promise_weight (heap m) p
                (Promise (Settled o) []) _ E) as H.
  rewrite sum_list_with_app, weight_reactions.
  unfold promise_weight at 2 4 in H. cbn in H. lia.
Qed.

Lemma weight_subscribe p r m :
  weight (exec (subscribe p r) m) ≤ weight m + reaction_weight r.
Proof.
  unfold exec, subscribe.
  destruct (heap m !! p) as [[[|o'] rs]|] eqn:E; cbn; [| |lia].
  - unfold weight. cbn.
    pose proof (sum_list_insert promise_weight (heap m) p
                  (Promise Pending (rs ++ [r])) _ E) as H.
    unfold promise_weight at 2 4 in H. cbn in H.
    rewrite sum_list_with_app in H. cbn in H. lia.
  - unfold weight. cbn. rewrite sum_list_with_app. cbn. lia.
Qed.

Lemma weight_new s m : weight (exec (new_promise s) m) = weight m.
Proof. unfold weight. cbn. rewrite sum_list_with_app. cbn. lia. Qed.

Lemma weight_unlock m : weight (exec unlock m) = weight m.
Proof.
  destruct m as [[lk [|r q]] hp js tr]; [reflexivity|].
  apply (weight_settle r (Fulfilled VUndefined)
           (Machine (mkMutex lk q) hp js (tr ++ [EvUnlock]))).
Qed.

Lemma weight_emit e m : weight (exec (emit e) m) = weight m.
Proof. reflexivity. Qed.

Lemma weight_enqueue j m :
  weight (exec (enqueue j) m) = weight m + job_weight j.
Proof. unfold weight. cbn. rewrite sum_list_with_app. cbn. lia. Qed.

(** Each job leaves less work than it took away. *)
Lemma weight_run_job j m :
  weight (exec (run_job j) m) < weight m + job_weight j.
Proof.
  destruct j as [[[[e|v'|s]|] d|t] [v|e']|q t]; unfold run_job, call, invoke,
    then_, resolve_fn; mnorm; cbn [job_weight reaction_weight cb_weight];
    rewrite ?weight_settle, ?weight_unlock, ?weight_emit; try (cbn; lia).
  - rewrite weight_enqueue. cbn [job_weight].
    match goal with |- context [exec (subscribe ?p ?r) ?m0] =>
      pose proof (weight_subscribe p r m0) as H;
      set (w := weight (exec (subscribe p r) m0)) in * end.
    rewrite !weight_new, weight_emit in H.
    cbn [reaction_weight cb_weight] in H. lia.
  - pose proof (weight_subscribe q (Forward t) m) as H. cbn in H. lia.
Qed.

Lemma weight_tick m : jobs m ≠ [] → weight (exec tick m) < weight m.
Proof.
  intros Hj. unfold exec at 1, tick. destruct (jobs m) as [|j js] eqn:E; [done|].
  pose proof (weight_run_job j (Machine (mutex m) (heap m) js (trace m))) as H.
  set (w := weight (run_job j _).2) in *.
  change (weight (exec (run_job j) _)) with w in H.
  unfold weight in *. rewrite E. cbn in *. lia.
Qed.

Lemma drain_weight n m : weight m ≤ n → idle (drain n m).
Proof.
  revert m. induction n as [|n IH]; intros m Hn.
  - unfold idle, weight in *. destruct (jobs m) as [|j js] eqn:E.
    + unfold drain. exact E.
    + exfalso. destruct j as [[[]|] ?|]; cbn in Hn; lia.
  - unfold drain. fold drain. destruct (jobs m) as [|j js] eqn:E; [exact E|].
    apply IH. pose proof (weight_tick m) as H. rewrite E in H.
    specialize (H ltac:(done)). lia.
Qed.

(** Draining is a run of the job queue. *)
Lemma drain_run n m : drain n m = run (replicate n OTick) m.
Proof.
  revert m. induction n as [|n IH]; intros m; [done|].
  unfold drain; fold drain. cbn [replicate]. unfold run. cbn [foldl].
  fold (run (replicate n OTick) (exec (step OTick) m)). rewrite <- IH.
  destruct (jobs m) as [|j js] eqn:E; [|done].
  assert (exec (step OTick) m = m) as ->.
  { unfold step, exec, tick. by rewrite E. }
  symmetry. by apply drain_idle.
Qed.

(** X3. Whatever calls of [with], jobs and settlements of the application's
    own promises have happened, at most one action has been called and not
    yet followed by [unlock]; and while the mutex is free, every call of
    [with] has run its action and released. *)
Theorem with_serialises_actions os :
  Forall (with_only (λ _, True)) os →
  let m := run os init in
  unlocks (trace m) ≤ invocations (trace m) ≤ S (unlocks (trace m)) ∧
  (locked (mutex m) = false →
   invocations (trace m) = locks (trace m) ∧
   unlocks (trace m) = locks (trace m)).
Proof.
  intros Hos m. destruct (serial_run _ os Hos) as (ph & Hs & _). fold m in Hs.
  destruct ph as [|cb|pa| |]; cbn in Hs; [|destruct Hs as [_ Hs]| | |];
    destruct Hs as [Hwf Hl Hj Hq Ho Hr Hc Hk];
    (split; [lia|]); intros Hf; try congruence.
  rewrite (wf_free _ Hwf Hf) in Hk. cbn in Hk. lia.
Qed.

Lemma with_serialises_actions_witness :
  let os := [OWith (ActAsync Pending); OWith (ActReturn (VNum 1)); OTick;
             OSettle 3 (Fulfilled VUndefined)] in
  let m := run os init in
  Forall (with_only (λ _, True)) os ∧
  unlocks (trace m) ≤ invocations (trace m) ≤ S (unlocks (trace m)) ∧
  (locked (mutex m) = false →
   invocations (trace m) = locks (trace m) ∧
   unlocks (trace m) = locks (trace m)).
Proof.
  intros os m.
  assert (Forall (with_only (λ _, True)) os) as H by (repeat constructor).
  split; [exact H|]. exact (with_serialises_actions os H).
Defined.

Lemma drain_add a b m : drain (a + b) m = drain b (drain a m).
Proof.
  revert m. induction a as [|a IH]; intros m; [done|].
  cbn [Nat.add]. unfold drain; fold drain.
  destruct (jobs m) as [|j js] eqn:E; [|apply IH].
  symmetry. by apply drain_idle.
Qed.

(** X5. The job queue empties: from any state, after at most [weight m]
    jobs none is left, so the callbacks of the class never keep the queue
    busy for ever; running with more fuel gives the same state. *)
Theorem job_queue_empties m n :
  weight m ≤ n → idle (drain n m) ∧ drain n m = drain (weight m) m.
Proof.
  intros Hn. split; [by apply drain_weight|].
  replace n with (weight m + (n - weight m)) by lia.
  rewrite drain_add. by apply drain_idle, drain_weight.
Qed.

Lemma job_queue_empties_witness :
  let m := exec (with_ (ActAsync Pending))
             (exec (with_ (ActReturn VUndefined)) init) in
  weight m ≤ 12 ∧ idle (drain 12 m) ∧ drain 12 m = drain (weight m) m.
Proof.
  intros m.
  assert (weight m ≤ 12) as H by (vm_compute; lia).
  split; [exact H|]. exact (job_queue_empties m 12 H).
Defined.

Lemma stuck_forever_witness :
  let m := drain 5 (exec (with_ (ActThrow (VStr "X"))) init) in
  let os := [OWith (ActReturn VUndefined); OTick; OTick; OLock;
             OSettle 0 (Fulfilled VUndefined); OTick] in
  let m' := run os m in
  stuck m ∧ Forall indirect os ∧
  stuck m' ∧
  invocations (trace m') = invocations (trace m) ∧
  unlocks (trace m') = unlocks (trace m).
Proof.
  intros m os m'.
  assert (stuck m) as Hs by (apply failed_with_is_stuck; lia).
  assert (Forall indirect os) as Ho by (repeat constructor).
  split; [exact Hs|]. split; [exact Ho|]. exact (stuck_forever m os Hs Ho).
Defined.

(** ** Actions run in the order of the calls of [with] *)

Lemma invoked_app tr1 tr2 : invoked (tr1 ++ tr2) = invoked tr1 ++ invoked tr2.
Proof.
  induction tr1 as [|[] tr1 IH]; cbn; rewrite ?IH; reflexivity.
Qed.

Lemma submitted_app os1 os2 :
  submitted (os1 ++ os2) = submitted os1 ++ submitted os2.
Proof. apply omap_app. Qed.

Lemma pending_keep m m' :
  omap body_of (omap live (jobs m')) = omap body_of (omap live (jobs m)) →
  queue (mutex m') = queue (mutex m) →
  (∀ p, p ∈ queue (mutex m) → promise_cbs m' p = promise_cbs m p) →
  pending_actions m' = pending_actions m.
Proof.
  intros Hj Hq Hp. unfold pending_actions. rewrite !omap_app, Hj, Hq.
  f_equal. f_equal. apply Forall_bind_ext, Forall_forall, Hp.
Qed.

Lemma fifo_keep W m m' :
  invoked (trace m') = invoked (trace m) →
  omap body_of (omap live (jobs m')) = omap body_of (omap live (jobs m)) →
  queue (mutex m') = queue (mutex m) →
  (∀ p, p ∈ queue (mutex m) → promise_cbs m' p = promise_cbs m p) →
  fifo W m → fifo W m'.
Proof.
  intros Hi Hj Hq Hp. unfold fifo. by rewrite Hi, (pending_keep m m').
Qed.

Lemma fifo_new W m s : wf m → fifo W m → fifo W (exec (new_promise s) m).
Proof.
  intros Hwf. apply fifo_keep; try done.
  intros p Hp. unfold promise_cbs. cbn.
  apply (wf_queue _ Hwf) in Hp as [rs Hp].
  by rewrite (lookup_app_l_Some _ _ _ _ Hp), Hp.
Qed.

Lemma fifo_enqueue W m q t : fifo W m → fifo W (exec (enqueue (JThenable q t)) m).
Proof.
  apply fifo_keep; try done. cbn. rewrite omap_app. cbn. by rewrite app_nil_r.
Qed.

Lemma fifo_subscribe W m p r :
  (∀ f, cb_of r = Some f → body_of f = None ∧ p ∉ queue (mutex m)) →
  fifo W m → fifo W (exec (subscribe p r) m).
Proof.
  intros Hr. unfold exec, subscribe.
  destruct (heap m !! p) as [[[|o] rs]|] eqn:E; cbn; [| |done].
  - apply fifo_keep; try done.
    intros q Hq. unfold promise_cbs. cbn.
    destruct (decide (q = p)) as [->|Hne].
    + rewrite list_lookup_insert_eq by (by eapply lookup_lt_Some).
      rewrite E. cbn. rewrite cbs_app. unfold cbs at 2. cbn.
      destruct (cb_of r) as [f|] eqn:Ef; [|by rewrite app_nil_r].
      by destruct (Hr f eq_refl) as [_ []].
    + by rewrite list_lookup_insert_ne.
  - apply fifo_keep; try done. cbn. rewrite !omap_app. cbn.
    destruct r as [f d|t]; destruct o as [v|e]; cbn; rewrite ?app_nil_r; try done.
    destruct (Hr f eq_refl) as [-> _]. by rewrite app_nil_r.
Qed.

Section Fifo.
Variable P : action → Prop.

Lemma fifo_settle W L J U n a m p o :
  shape P L J U n a m → p ∉ queue (mutex m) →
  fifo W m → fifo W (exec (settle p o) m).
Proof.
  intros [Hwf Hl Hj Hq Ho Hr Hc Hk] Hp. unfold exec, settle.
  destruct (heap m !! p) as [[[|o'] rs]|] eqn:E; cbn; try done.
  apply fifo_keep; cbn; try done.
  - rewrite invoked_app. cbn. by rewrite app_nil_r.
  - rewrite !omap_app, live_settled. pose proof (Ho p _ E Hp) as Hcb.
    cbn in Hcb. rewrite Hcb.
    destruct o; [case_decide|]; cbn; by rewrite app_nil_r.
  - intros q Hin. unfold promise_cbs. cbn.
    rewrite list_lookup_insert_ne; [done|]. by intros ->.
Qed.

Lemma fifo_unlock W m : wf m → fifo W m → fifo W (exec unlock m).
Proof.
  intros Hwf. unfold exec. destruct (queue (mutex m)) as [|r q] eqn:E.
  - rewrite unlock_empty by done. unfold fifo, pending_actions. cbn.
    rewrite E, invoked_app. cbn. by rewrite !app_nil_r.
  - destruct (wf_queue _ Hwf r) as [rs Hrs]; [rewrite E; left|].
    pose proof (wf_nodup _ Hwf) as Hnd. rewrite E in Hnd.
    apply NoDup_cons in Hnd as [Hrq Hnd].
    rewrite (unlock_waiter m r q rs) by done.
    unfold fifo, pending_actions. cbn. rewrite E, invoked_app. cbn.
    rewrite app_nil_r. intros <-. f_equal.
    rewrite !omap_app, live_settled. unfold promise_cbs at 2. rewrite Hrs. cbn.
    rewrite <- app_assoc. f_equal. f_equal. f_equal.
    apply Forall_bind_ext, Forall_forall. intros p Hp.
    unfold promise_cbs. cbn. rewrite list_lookup_insert_ne; [done|].
    by intros ->.
Qed.

Lemma fifo_with W m cb :
  wf m → fifo W m → fifo (W ++ [cb]) (exec (with_ cb) m).
Proof.
  intros Hwf. destruct m as [[[] q] hp js tr]; unfold exec.
  - rewrite with_on_held_any by done. unfold fifo, pending_actions. cbn.
    intros <-. rewrite invoked_app. cbn. rewrite app_nil_r, <- !app_assoc.
    f_equal. rewrite bind_app, !omap_app, <- app_assoc. f_equal.
    f_equal.
    + f_equal. apply Forall_bind_ext, Forall_forall. intros p Hp.
      unfold promise_cbs. cbn.
      apply (wf_queue _ Hwf) in Hp as [rs Hp]. cbn in Hp.
      by rewrite (lookup_app_l_Some _ _ _ _ Hp), Hp.
    + rewrite bind_singleton. unfold promise_cbs. cbn.
      rewrite lookup_app_plus. reflexivity.
  - rewrite with_on_free_any. unfold fifo, pending_actions. cbn.
    pose proof (wf_free _ Hwf eq_refl) as Hq. cbn in Hq. subst q.
    intros <-. rewrite invoked_app. cbn. rewrite !app_nil_r, !omap_app.
    cbn. by rewrite <- app_assoc.
Qed.
End Fifo.

Section Order.
Variable P : action → Prop.

Lemma serial_shape ph m : serial P ph m → ∃ L J U n a, shape P L J U n a m.
Proof.
  destruct ph as [|cb|pa| |]; cbn; [|intros [_ H]| | |]; try intros H;
    do 5 eexists; exact H.
Qed.

Lemma fifo_release W m d :
  shape P true [] None 1 0 m → ok m d → fifo W m →
  fifo W (exec (settle d (Fulfilled VUndefined)) (exec unlock m)).
Proof.
  intros Hs Hok Hf.
  pose proof (sh_wf _ _ _ _ _ _ _ Hs) as Hwf.
  pose proof (good_ok _ _ _ (good_unlock m Hwf) Hok) as [_ Hd].
  pose proof (shape_unlock P _ _ _ _ _ Hs) as H.
  pose proof (fifo_unlock W m Hwf Hf) as Hf'.
  destruct (queue (mutex m)) as [|r q].
  - by eapply fifo_settle.
  - destruct H as (cb & _ & H). by eapply fifo_settle.
Qed.

Lemma fifo_body W m cb d v :
  shape P true [] None 0 1 m → ok m d →
  fifo W (exec (emit (EvInvoke cb)) m) →
  let j := JReaction (OnFulfilled (CbBody cb) d) (Fulfilled v) in
  fifo W (exec (run_job j) m).
Proof.
  intros Hs Hok Hf j. subst j.
  pose proof (sh_wf _ _ _ _ _ _ _ Hs) as Hwf.
  pose proof (shape_invoke P _ _ _ _ _ _ cb Hs) as H1.
  pose proof (good_step _ _ _ (good_refl m Hwf) (at_invoke m cb)) as G1.
  pose proof (good_ok _ _ _ G1 Hok) as Hok1.
  set (m1 := exec (emit (EvInvoke cb)) m) in *.
  destruct cb as [e|v'|s].
  - unfold run_job, call, invoke; mnorm; cbn; fold m1.
    eapply fifo_settle; [exact H1 | apply Hok1 | done].
  - unfold run_job, call, invoke; mnorm; cbn; fold m1.
    by apply fifo_release.
  - set (pa := length (heap m)).
    set (m2 := exec (new_promise s) m1).
    set (m3 := exec (new_promise Pending) m2).
    set (m4 := exec (subscribe pa (OnFulfilled CbUnlock (S pa))) m3).
    assert (exec (run_job (JReaction (OnFulfilled (CbBody (ActAsync s)) d)
                                     (Fulfilled v))) m
            = exec (enqueue (JThenable (S pa) d)) m4) as ->.
    { unfold run_job, call, invoke, then_. mnorm. cbn.
      subst m4 m3 m2 m1 pa. cbn. rewrite length_app, Nat.add_comm.
      reflexivity. }
    pose proof (shape_new P _ _ _ _ _ _ s H1) as H2. fold m2 in H2.
    apply fifo_enqueue, fifo_subscribe.
    + intros f [= <-]. split; [done|].
      intros Hin. apply (queue_lt _ _ Hwf) in Hin. subst pa. lia.
    + apply fifo_new; [apply (sh_wf _ _ _ _ _ _ _ H2)|].
      apply fifo_new; [apply (sh_wf _ _ _ _ _ _ _ H1)|]. done.
Qed.

Lemma fifo_inert W ph m j :
  serial P ph m → live j = None → ok m (jtarget j) →
  fifo W m → fifo W (exec (run_job j) m).
Proof.
  intros Hs Hl Hok Hf. destruct (serial_shape _ _ Hs) as (L & J & U & n & a & H).
  destruct j as [[f d|t] [v|e]|q t]; cbn in *; try discriminate.
  - eapply fifo_settle; [exact H | apply Hok | done].
  - eapply fifo_settle; [exact H | apply Hok | done].
  - eapply fifo_settle; [exact H | apply Hok | done].
  - by apply fifo_subscribe.
Qed.

Lemma fifo_tick W ph m : serial P ph m → fifo W m → fifo W (exec tick m).
Proof.
  intros Hs Hf. unfold exec at 1, tick. destruct (jobs m) as [|j js] eqn:E.
  { done. }
  set (m0 := Machine (mutex m) (heap m) js (trace m)).
  change ((run_job j m0).2) with (exec (run_job j) m0).
  destruct (live j) as [f|] eqn:Hl.
  - destruct j as [[f' d|t] [v|e]|q t]; try discriminate.
    injection Hl as ->.
    destruct ph as [|cb|pa| |]; cbn in Hs;
      try (destruct (shape_dequeue P _ _ _ _ _ m _ js Hs E)
             as (J' & HJ & _); discriminate).
    + destruct Hs as [Hcb Hs].
      destruct (shape_dequeue P _ _ _ _ _ m _ js Hs E) as (J' & HJ & H0 & Hok).
      injection HJ as <- <-. fold m0 in H0, Hok.
      apply fifo_body; [done|done|].
      unfold fifo, pending_actions in *. rewrite E in Hf. cbn in *.
      rewrite invoked_app. cbn. by rewrite <- app_assoc.
    + destruct (shape_dequeue P _ _ _ _ _ m _ js Hs E) as (J' & HJ & H0 & Hok).
      injection HJ as <- <-. fold m0 in H0, Hok.
      assert (exec (run_job (JReaction (OnFulfilled CbUnlock d) (Fulfilled v)))
                m0 = exec (settle d (Fulfilled VUndefined)) (exec unlock m0))
        as ->.
      { unfold run_job, call. mnorm. reflexivity. }
      apply fifo_release; [done|done|].
      unfold fifo, pending_actions in *. by rewrite E in Hf.
  - assert (serial P ph m0 ∧ ok m0 (jtarget j)) as [Hs0 Hok].
    { destruct ph as [|cb|pa| |]; cbn in Hs |- *;
        [|destruct Hs as [Hcb Hs]| | |];
        destruct (shape_dequeue P _ _ _ _ _ m _ js Hs E)
          as (J' & HJ & H0 & Hok);
        rewrite Hl in HJ; cbn in HJ; subst J'; done. }
    apply (fifo_inert W ph); try done.
    unfold fifo, pending_actions in *. rewrite E in Hf. cbn in *.
    by rewrite Hl in Hf.
Qed.

Lemma order_run os :
  Forall (with_only P) os →
  ∃ ph, serial P ph (run os init) ∧ fifo (submitted os) (run os init) ∧
        ((∀ cb, P cb → completes_at_once cb) → calm ph).
Proof.
  induction os as [|o os IH] using rev_ind; intros Hos.
  - exists Free. split; [|done]. cbn. split; cbn; try done.
    apply wf_init.
  - apply Forall_app in Hos as [Hos Ho]. rewrite Forall_singleton in Ho.
    destruct (IH Hos) as (ph & Hs & Hf & Hc). rewrite run_snoc.
    destruct (serial_step P ph _ o Hs Ho) as (ph' & Hs' & Hc').
    exists ph'. split; [done|]. split; [|intros HP; by apply Hc', Hc].
    rewrite submitted_app.
    destruct (serial_shape _ _ Hs) as (L & J & U & n & a & H).
    destruct o as [| |cb| |p o]; cbn in Ho; try done; cbn [submitted omap].
    + unfold step. mnorm. apply fifo_with; [apply H | done].
    + rewrite app_nil_r. by eapply fifo_tick.
    + rewrite app_nil_r. unfold step, exec, env_settle.
      case_bool_decide as Hp; [done|]. by eapply fifo_settle.
Qed.
End Order.

Lemma invocations_invoked tr : invocations tr = length (invoked tr).
Proof. induction tr as [|[] tr IH]; cbn; rewrite ?IH; reflexivity. Qed.

Lemma submitted_ticks n : submitted (replicate n OTick) = [].
Proof. induction n as [|n IH]; [done|]. exact IH. Qed.

Lemma pending_none m :
  idle m → queue (mutex m) = [] → pending_actions m = [].
Proof. unfold idle, pending_actions. by intros -> ->. Qed.

(** X4. With actions that have completed when their call returns, as in
    [useBearStore], running the job queue to its end after any calls of
    [with] leaves the mutex free with an empty queue: every action has been
    called once, in the order of the calls of [with], and each call has been
    followed by its [unlock]. *)
Theorem immediate_actions_release os :
  Forall (with_only completes_at_once) os →
  let m := drain (weight (run os init)) (run os init) in
  idle m ∧ mutex m = fresh_mutex ∧
  invoked (trace m) = submitted os ∧
  unlocks (trace m) = length (submitted os).
Proof.
  intros Hos m.
  assert (idle m) as Hi by (by apply drain_weight).
  split; [done|].
  assert (Forall (with_only completes_at_once)
            (os ++ replicate (weight (run os init)) OTick)) as Hall.
  { apply Forall_app. split; [done|]. by apply Forall_replicate. }
  destruct (order_run _ _ Hall) as (ph & Hs & Hf & Hc).
  rewrite run_app, <- drain_run in Hs, Hf. fold m in Hs, Hf.
  rewrite submitted_app, submitted_ticks, app_nil_r in Hf.
  specialize (Hc ltac:(done)). pose proof Hi as Hj0. unfold idle in Hj0.
  destruct ph as [|cb|pa| |]; cbn in Hs, Hc; try done;
    [|destruct Hs as [_ Hs]|];
    destruct Hs as [Hwf Hl Hj Hq Ho Hr Hn Hk];
    rewrite Hj0 in Hj; try discriminate.
  pose proof (wf_free _ Hwf Hl) as Hq0.
  unfold fifo in Hf. rewrite (pending_none m Hi Hq0), app_nil_r in Hf.
  split; [|split; [done|]].
  - destruct (mutex m); cbn in *. by subst.
  - rewrite <- Hf, <- invocations_invoked. lia.
Qed.

Lemma immediate_actions_release_witness :
  let os := [OWith (ActAsync (Settled (Fulfilled VUndefined)));
             OWith (ActReturn (VNum 1)); OTick;
             OWith (ActAsync (Settled (Fulfilled (VNum 2))))] in
  let m := drain (weight (run os init)) (run os init) in
  Forall (with_only completes_at_once) os ∧
  idle m ∧ mutex m = fresh_mutex ∧
  invoked (trace m) = submitted os ∧
  unlocks (trace m) = length (submitted os).
Proof.
  intros os m.
  assert (Forall (with_only completes_at_once) os) as H
    by (repeat constructor).
  split; [exact H|]. exact (immediate_actions_release os H).
Defined.

(** X7. When the mutex is used through [with] only, the actions are called
    in the order of the calls of [with], each at most once; and once no job
    is left and the mutex is free, every one of them has been called. *)
Theorem with_runs_actions_in_call_order os :
  Forall (with_only (λ _, True)) os →
  let m := run os init in
  invoked (trace m) `prefix_of` submitted os ∧
  (idle m → locked (mutex m) = false → invoked (trace m) = submitted os).
Proof.
  intros Hos m. destruct (order_run _ os Hos) as (ph & Hs & Hf & _).
  fold m in Hs, Hf. unfold fifo in Hf. split.
  - exists (pending_actions m). by rewrite Hf.
  - intros Hi Hl. destruct (serial_shape _ _ _ Hs) as (L & J & U & n & a & H).
    pose proof (wf_free _ (sh_wf _ _ _ _ _ _ _ H) Hl) as Hq.
    by rewrite (pending_none m Hi Hq), app_nil_r in Hf.
Qed.

Lemma with_runs_actions_in_call_order_witness :
  let os := [OWith (ActAsync Pending); OWith (ActReturn (VNum 1));
             OWith (ActThrow (VStr "X")); OTick;
             OSettle 3 (Fulfilled VUndefined); OTick; OTick; OTick] in
  let m := run os init in
  Forall (with_only (λ _, True)) os ∧
  invoked (trace m) `prefix_of` submitted os ∧
  (idle m → locked (mutex m) = false → invoked (trace m) = submitted os).
Proof.
  intros os m.
  assert (Forall (with_only (λ _, True)) os) as H by (repeat constructor).
  split; [exact H|]. exact (with_runs_actions_in_call_order os H).
Defined.

(** * The decoration modal *)

Section Modal.
Context {D : Type}.
Variable hash : D → string.
Variable cl : string → string.
Variable thin : string.

Lemma shown_items (its : list D) :
  (renderItem cl <$> (ItemDecoration <$> its)) ≫= shown = its.
Proof.
  induction its as [|d its IH]; [done|]. cbn. by rewrite IH.
Qed.

Lemma titles_items (its : list (Item D)) :
  (renderItem cl <$> its) ≫= titles = [].
Proof.
  induction its as [|[| |d] its IH]; cbn; done.
Qed.

Lemma fragments_items (its : list D) :
  sum_list_with fragments (renderItem cl <$> (ItemDecoration <$> its)) = 0.
Proof.
  induction its as [|d its IH]; [done|]. cbn. by rewrite IH.
Qed.

(** X8. The decorations of the user that the modal lists as the user's own
    are exactly those whose hash no decoration of a preset has, each as
    often as the user has it and in the user's order: the rest of the
    user's decorations all share their hash with a decoration of a preset.
    So every decoration of the user is shown with its hash among the own or
    the presets' ones, and as long as no preset has a decoration all of
    them are the user's own. *)
Theorem own_decorations_split (decorations : list D)
    (presets : list (Preset D)) :
  let own := ownDecorations hash decorations presets in
  let pre := presetDecorations presets in
  own `sublist_of` decorations ∧
  (∀ d, d ∈ own ↔ d ∈ decorations ∧ ∀ p, p ∈ pre → hash p ≠ hash d) ∧
  (∃ rest, decorations ≡ₚ own ++ rest ∧
           ∀ d, d ∈ rest → ∃ p, p ∈ pre ∧ hash p = hash d) ∧
  (∀ l, l `sublist_of` decorations →
        (∀ d, d ∈ l → ∀ p, p ∈ pre → hash p ≠ hash d) →
        l `sublist_of` own) ∧
  (∀ d, d ∈ decorations → hash d ∈ hash <$> (own ++ pre)) ∧
  (pre = [] → own = decorations).
Proof.
  clear cl thin.
  intros own pre. subst own. unfold ownDecorations. fold pre.
  set (own_one := λ d, ¬ Exists (λ p, hash p = hash d) pre).
  assert (∀ d, own_one d ↔ ∀ p, p ∈ pre → hash p ≠ hash d) as Hone.
  { intros d. unfold own_one. rewrite Exists_exists. split.
    - intros Hn p Hp Heq. apply Hn. by exists p.
    - intros Hn (p & Hp & Heq). by apply (Hn p). }
  split; [apply sublist_filter|]. split; [|split; [|split; [|split]]].
  - intros d. rewrite list_elem_of_filter, Hone. tauto.
  - exists (filter (λ d, ¬ own_one d) decorations). split.
    + clear Hone. induction decorations as [|d ds IH]; [done|].
      rewrite !filter_cons. destruct (decide (own_one d)) as [Hd|Hd].
      * rewrite decide_False by tauto. cbn. by rewrite <- IH.
      * rewrite decide_True by done. rewrite <- Permutation_middle.
        by rewrite <- IH.
    + intros d [Hd _]%list_elem_of_filter. unfold own_one in Hd.
      apply dec_stable in Hd. apply Exists_exists in Hd as (p & Hp & Heq).
      by exists p.
  - intros l Hl Hgood. clear Hone.
    induction Hl as [|d l ds Hl IH|d l ds Hl IH].
    + done.
    + rewrite filter_cons_True.
      * apply sublist_skip, IH. intros d' Hd'. apply Hgood. by right.
      * unfold own_one. rewrite Exists_exists. intros (p & Hp & Heq).
        by apply (Hgood d (list_elem_of_here _ _) p).
    + rewrite filter_cons. destruct (decide (own_one d)).
      * by apply sublist_cons, IH.
      * by apply IH.
  - intros d Hd. rewrite fmap_app, elem_of_app.
    destruct (decide (Exists (λ p, hash p = hash d) pre)) as [He|Hn].
    + right. apply Exists_exists in He as (p & Hp & <-).
      by apply list_elem_of_fmap_2.
    + left. apply list_elem_of_fmap_2, list_elem_of_filter. by split.
  - intros ->. induction decorations as [|d ds IH]; [done|].
    rewrite filter_cons_True; [by rewrite IH|]. by intros ?%Exists_nil.
Qed.

(** X9. The list in the modal shows the user's own decorations and then
    those of the presets, preset by preset, under the title of the user's
    section and the names of the presets; the entries ["none"] and
    ["create"] of the first section are rendered as two elements without
    content. *)
Theorem decoration_list_content (decorations : list D)
    (presets : list (Preset D)) :
  let e := decoration_list hash cl thin decorations presets in
  shown e = ownDecorations hash decorations presets
              ++ presetDecorations presets ∧
  titles e = "Your Decor Decorations" :: (preset_name <$> presets) ∧
  fragments e = 2.
Proof.
  intros e. subst e.
  unfold decoration_list, SectionedGridList, masonryListData, Grid.
  cbn [fmap list_fmap shown titles fragments section_items title mbind
       list_bind sum_list_with].
  rewrite !fmap_app, !bind_app, !sum_list_with_app.
  rewrite shown_items, !titles_items, fragments_items. cbn.
  rewrite !app_nil_r. split; [|split].
  - f_equal. unfold presetDecorations.
    induction presets as [|p ps IH]; [done|]. cbn.
    rewrite shown_items, app_nil_r. by rewrite IH.
  - f_equal. induction presets as [|p ps IH]; [done|]. cbn.
    rewrite titles_items. cbn. by rewrite IH.
  - replace (sum_list_with _ _) with 0; [done|].
    induction presets as [|p ps IH]; [done|]. cbn.
    rewrite fragments_items. cbn. by rewrite <- IH.
Qed.
End Modal.

(** * The plugin settings *)

Section DepMap.
Variable inherited : string → bool.

Lemma add_dependant_spec plugin dep o L :
  table L o → (∀ d, L d ≠ [] → inherited d = false) →
  match add_dependant inherited plugin dep o with
  | Some o' =>
      table (λ d, L d ++ if decide (dep = d) then [plugin] else []) o' ∧
      inherited dep = false
  | None => inherited dep = true
  end.
Proof.
  intros Ht Hi. unfold add_dependant. pose proof (Ht dep) as Hd.
  destruct (L dep) as [|x l] eqn:E; rewrite Hd.
  - destruct (inherited dep) eqn:Ei; [done|]. split; [|done].
    intros d. destruct (decide (dep = d)) as [<-|Hne].
    + rewrite lookup_insert_eq, E. done.
    + rewrite lookup_insert_ne, app_nil_r by done. apply Ht.
  - split; [|apply Hi; by rewrite E].
    intros d. destruct (decide (dep = d)) as [<-|Hne].
    + rewrite lookup_insert_eq, E. done.
    + rewrite lookup_insert_ne, app_nil_r by done. apply Ht.
Qed.

Lemma add_dependants_spec plugin deps o L :
  table L o → (∀ d, L d ≠ [] → inherited d = false) →
  match add_dependants inherited plugin deps o with
  | Some o' =>
      table (λ d, L d ++ ((λ _, plugin) <$> filter (λ d', d' = d) deps)) o' ∧
      Forall (λ d, inherited d = false) deps
  | None => Exists (λ d, inherited d = true) deps
  end.
Proof.
  revert o L. induction deps as [|dep deps IH]; intros o L Ht Hi; cbn.
  - split; [|done]. intros d. rewrite app_nil_r. apply Ht.
  - pose proof (add_dependant_spec plugin dep o L Ht Hi) as H.
    destruct (add_dependant inherited plugin dep o) as [o'|]; cbn;
      [|by left].
    destruct H as [Ht' Hdep].
    specialize (IH o' _ Ht'). cbn in IH.
    destruct (add_dependants inherited plugin deps o') as [o''|].
    + destruct IH as [Ht'' Hall].
      { intros d Hd. destruct (decide (dep = d)) as [<-|Hne]; [done|].
        apply Hi. by rewrite app_nil_r in Hd. }
      split; [|by constructor]. intros d. rewrite (Ht'' d).
      destruct (decide (dep = d)) as [->|Hne].
      * by rewrite <- app_assoc.
      * by rewrite app_nil_r.
    + right. apply IH. intros d Hd.
      destruct (decide (dep = d)) as [<-|Hne]; [done|].
      apply Hi. by rewrite app_nil_r in Hd.
Qed.

Lemma table_ext L L' o : (∀ d, L d = L' d) → table L o → table L' o.
Proof. intros H Ht d. rewrite <- H. apply Ht. Qed.

Lemma dependants_cons plugin p Plugins d :
  dependants ((plugin, p) :: Plugins) d =
  ((λ _, plugin) <$> filter (λ d', d' = d) (default [] (dependencies p)))
    ++ dependants Plugins d.
Proof. reflexivity. Qed.

Lemma all_dependencies_cons plugin p Plugins :
  all_dependencies ((plugin, p) :: Plugins) =
  default [] (dependencies p) ++ all_dependencies Plugins.
Proof. reflexivity. Qed.

Lemma add_plugins_spec Plugins o L :
  table L o → (∀ d, L d ≠ [] → inherited d = false) →
  match add_plugins inherited Plugins o with
  | Some o' =>
      table (λ d, L d ++ dependants Plugins d) o' ∧
      Forall (λ d, inherited d = false) (all_dependencies Plugins)
  | None => Exists (λ d, inherited d = true) (all_dependencies Plugins)
  end.
Proof.
  revert o L. induction Plugins as [|[plugin p] Plugins IH]; intros o L Ht Hi.
  - cbn. split; [|done]. intros d. rewrite app_nil_r. apply Ht.
  - cbn [add_plugins]. rewrite all_dependencies_cons.
    destruct (dependencies p) as [deps|] eqn:Ed; cbn [default].
    + pose proof (add_dependants_spec plugin deps o L Ht Hi) as H.
      destruct (add_dependants inherited plugin deps o) as [o'|]; cbn;
        [|by apply Exists_app; left].
      destruct H as [Ht' Hall]. specialize (IH o' _ Ht').
      assert (∀ d, L d ++ ((λ _, plugin) <$> filter (λ d', d' = d) deps) ≠ []
                   → inherited d = false) as Hi'.
      { intros d Hd. destruct (L d) as [|x l] eqn:E; [|apply Hi; by rewrite E].
        cbn in Hd. destruct (filter _ deps) as [|y l'] eqn:Ef; [done|].
        assert (y ∈ filter (λ d', d' = d) deps) as Hy by (rewrite Ef; left).
        apply list_elem_of_filter in Hy as [-> Hy].
        by eapply Forall_forall in Hall. }
      specialize (IH Hi').
      destruct (add_plugins inherited Plugins o') as [o''|].
      * destruct IH as [Ht'' Hall']. split; [|by apply Forall_app].
        eapply table_ext; [|exact Ht'']. intros d. cbn beta.
        rewrite ?dependants_cons, Ed. cbn [default]. by rewrite <- app_assoc.
      * apply Exists_app. by right.
    + cbn. specialize (IH o L Ht Hi).
      destruct (add_plugins inherited Plugins o) as [o'|]; [|done].
      destruct IH as [Ht' Hall]. split; [|done].
      eapply table_ext; [|exact Ht']. intros d. cbn beta.
      rewrite ?dependants_cons, ?Ed. done.
Qed.

Lemma depMap_spec Plugins :
  match depMap inherited Plugins with
  | Some o =>
      table (dependants Plugins) o ∧
      Forall (λ d, inherited d = false) (all_dependencies Plugins)
  | None => Exists (λ d, inherited d = true) (all_dependencies Plugins)
  end.
Proof.
  pose proof (add_plugins_spec Plugins ∅ (λ _, [])) as H. unfold depMap.
  destruct (add_plugins inherited Plugins ∅) as [o|].
  - destruct H as [Ht Hall]; [intros d; apply lookup_empty | done |].
    split; [|done]. eapply table_ext; [|exact Ht]. done.
  - apply H; [intros d; apply lookup_empty | done].
Qed.

(** X10. [depMap] is the index of the dependencies turned round: under the
    name of a dependency it lists the plugins that name it, in the order of
    [Plugins], and it has no empty list.  Building it throws exactly when a
    dependency is named like a property that objects inherit. *)
Theorem depMap_reverse_index (Plugins : list (string * Plugin)) :
  match depMap inherited Plugins with
  | Some o =>
      (∀ dep, default [] (o !! dep) = dependants Plugins dep ∧
              o !! dep ≠ Some []) ∧
      Forall (λ d, inherited d = false) (all_dependencies Plugins)
  | None => Exists (λ d, inherited d = true) (all_dependencies Plugins)
  end.
Proof.
  pose proof (depMap_spec Plugins) as H.
  destruct (depMap inherited Plugins) as [o|]; [|done].
  destruct H as [Ht Hall]. split; [|done].
  intros dep. rewrite (Ht dep). by destruct (dependants Plugins dep).
Qed.
End DepMap.

Lemma filter_throwing_spec {A} (f : A → option bool) (l : list A) :
  match filter_throwing f l with
  | Some l' =>
      Forall (λ a, is_Some (f a)) l ∧ l' = filter (λ a, f a = Some true) l
  | None => Exists (λ a, f a = None) l
  end.
Proof.
  induction l as [|x l IH]; cbn; [done|].
  destruct (f x) as [b|] eqn:E; cbn; [|by left].
  destruct (filter_throwing f l) as [l'|]; cbn; [|by right].
  destruct IH as [Hall ->]. split; [constructor; [by rewrite E|done]|].
  by destruct b.
Qed.

Section Grids.
Variable inherited : string → bool.
Variable toLowerCase : string → string.
Variable includes : string → string → bool.
Variable settings : gmap string bool.

Lemma setting_enabled_spec d :
  (is_Some (setting_enabled inherited settings d) ↔
   is_Some (settings !! d) ∨ inherited d = true) ∧
  (setting_enabled inherited settings d = Some true ↔
   settings !! d = Some true).
Proof.
  unfold setting_enabled.
  destruct (settings !! d) as [e|]; [|destruct (inherited d)]; split; split;
    try done; try (by left); try (by right);
    try (by intros [[? [=]]|[=]]); by intros [? [=]].
Qed.

(** X11. For the [depMap] built from [Plugins], [dependencyCheck] gives
    the plugins that depend on the given one and have an entry in the
    settings that is enabled.  A dependant without entry is left out when
    it is named like an inherited property, and makes the call throw
    otherwise; the call also throws when no plugin depends on a plugin that
    is named like an inherited property. *)
Theorem dependencyCheck_enabled_dependants (Plugins : list (string * Plugin))
    (o : gmap string (list string)) (pluginName : string) :
  depMap inherited Plugins = Some o →
  let ds := dependants Plugins pluginName in
  dependencyCheck inherited settings pluginName o =
    if decide (ds = []) then
      if inherited pluginName then None else Some []
    else if decide (Forall (λ d, is_Some (settings !! d) ∨ inherited d = true)
                           ds) then
      Some (filter (λ d, settings !! d = Some true) ds)
    else None.
Proof.
  intros Ho ds. pose proof (depMap_spec inherited Plugins) as H.
  rewrite Ho in H. destruct H as [Ht _]. specialize (Ht pluginName).
  fold ds in Ht. unfold dependencyCheck, enabledDependants. rewrite Ht.
  destruct ds as [|d ds'] eqn:E.
  - rewrite decide_True by done. by destruct (inherited pluginName).
  - rewrite decide_False by done. unfold filter_enabled.
    pose proof (filter_throwing_spec (setting_enabled inherited settings)
                  (d :: ds')) as H.
    destruct (filter_throwing _ (d :: ds')) as [l'|]; cbn [fmap option_fmap
                                                           option_map default].
    + destruct H as [Hall ->]. rewrite decide_True.
      * f_equal. apply list_filter_iff. intros x.
        apply setting_enabled_spec.
      * eapply Forall_impl; [exact Hall|]. intros x.
        apply setting_enabled_spec.
    + rewrite decide_False; [done|]. intros Hall.
      apply Exists_exists in H as (x & Hx & Hn).
      eapply Forall_forall in Hall; [|exact Hx].
      apply setting_enabled_spec in Hall. rewrite Hn in Hall.
      by destruct Hall.
Qed.

Lemma enabledDependants_check o pluginName r :
  enabledDependants inherited settings o pluginName = Some r →
  dependencyCheck inherited settings pluginName o = Some (default [] r) ∧
  dependency r = negb (length (default [] r) =? 0).
Proof.
  intros H. unfold dependencyCheck. rewrite H. split; [done|].
  by destruct r.
Qed.

(** What the two filters and the cards say of one plugin. *)
Lemma filters_of_plugin o searchValue a b1 b2 :
  plugins_filter inherited toLowerCase includes settings o searchValue a
    = Some b1 →
  required_filter inherited toLowerCase includes settings o searchValue a
    = Some b2 →
  (b1 = true → b2 = false) ∧
  (required a = true → b2 = true) ∧
  (required a = false →
   b1 || b2 = pluginFilter toLowerCase includes settings searchValue a) ∧
  (b1 = true →
   plugin_card inherited settings o a = Some (mkPluginCard a false None)) ∧
  (b2 = true → ∀ c, required_card inherited settings o a = Some c →
   card_plugin c = a ∧ card_disabled c = true).
Proof.
  unfold plugins_filter, required_filter, plugin_card, required_card.
  destruct (required a) eqn:Er.
  - intros [= <-] [= <-]. do 4 (split; [done|]). intros _ c Hc.
    destruct (enabledDependants inherited settings o (name a)); [|done].
    cbn in Hc. by injection Hc as <-.
  - destruct (enabledDependants inherited settings o (name a)) as [r|] eqn:E.
    + destruct (enabledDependants_check _ _ _ E) as [-> Hd]. cbn.
      rewrite Hd.
      destruct (length (default [] r) =? 0) eqn:El; intros [= <-] [= <-].
      * do 2 (split; [done|]). split; [by rewrite orb_false_r|].
        split; [|done]. intros _. done.
      * do 3 (split; [done|]). split; [done|]. intros _ c.
        intros [= <-]. done.
    + unfold dependencyCheck. rewrite E. done.
Qed.

Lemma card_plugin_of o a c :
  (plugin_card inherited settings o a = Some c → card_plugin c = a) ∧
  (required_card inherited settings o a = Some c → card_plugin c = a).
Proof.
  unfold plugin_card, required_card.
  destruct (enabledDependants inherited settings o (name a)) as [r|]; cbn;
    [|done].
  split; [by intros [= <-]|].
  destruct (if required a then _ else _); cbn; [|done]. by intros [= <-].
Qed.

(** X12. When both grids are rendered, every switch of the first grid can
    be used and every switch of the second one is disabled; no plugin is in
    both; a required plugin is in the second grid whatever the search is;
    and any other plugin is in one of the grids exactly when it passes the
    search filter. *)
Theorem grids_split (o : gmap string (list string))
    (searchValue : SearchValue) (sortedPlugins : list Plugin)
    (c1 c2 : list PluginCard) :
  plugins_grid inherited toLowerCase includes settings o searchValue
    sortedPlugins = Some (Cards c1) →
  required_grid inherited toLowerCase includes settings o searchValue
    sortedPlugins = Some (Cards c2) →
  Forall (λ c, card_disabled c = false) c1 ∧
  Forall (λ c, card_disabled c = true) c2 ∧
  (card_plugin <$> c1) `sublist_of` sortedPlugins ∧
  (card_plugin <$> c2) `sublist_of` sortedPlugins ∧
  ∀ a, a ∈ sortedPlugins →
    ¬ (a ∈ card_plugin <$> c1 ∧ a ∈ card_plugin <$> c2) ∧
    (required a = true → a ∈ card_plugin <$> c2) ∧
    (required a = false →
     (a ∈ card_plugin <$> c1 ∨ a ∈ card_plugin <$> c2) ↔
     pluginFilter toLowerCase includes settings searchValue a = true).
Proof.
  unfold plugins_grid, required_grid.
  destruct (length sortedPlugins =? 0); [done|].
  set (f1 := plugins_filter inherited toLowerCase includes settings o
               searchValue).
  set (f2 := required_filter inherited toLowerCase includes settings o
               searchValue).
  pose proof (filter_throwing_spec f1 sortedPlugins) as H1.
  pose proof (filter_throwing_spec f2 sortedPlugins) as H2.
  destruct (filter_throwing f1 sortedPlugins) as [l1|]; [|done].
  destruct (filter_throwing f2 sortedPlugins) as [l2|]; [|done].
  destruct H1 as [Hs1 ->], H2 as [Hs2 ->]. cbn.
  destruct (mapM _ (filter _ _)) as [k1|] eqn:E1; [|done].
  destruct (mapM (required_card _ _ _) _) as [k2|] eqn:E2; [|done].
  cbn. intros [= <-] [= <-].
  assert (card_plugin <$> k1 = filter (λ a, f1 a = Some true) sortedPlugins)
    as Hk1.
  { eapply mapM_fmap_Some_inv; [exact E1|]. intros x y. apply card_plugin_of. }
  assert (card_plugin <$> k2 = filter (λ a, f2 a = Some true) sortedPlugins)
    as Hk2.
  { eapply mapM_fmap_Some_inv; [exact E2|]. intros x y. apply card_plugin_of. }
  rewrite Hk1, Hk2.
  assert (∀ a, a ∈ sortedPlugins → ∃ b1 b2, f1 a = Some b1 ∧ f2 a = Some b2)
    as Hboth.
  { intros a Ha. rewrite Forall_forall in Hs1, Hs2.
    destruct (Hs1 a Ha) as [b1 ?], (Hs2 a Ha) as [b2 ?]. by exists b1, b2. }
  split; [|split; [|split; [apply sublist_filter|split;
                                                  [apply sublist_filter|]]]].
  - apply mapM_Some_1 in E1. apply Forall_forall. intros c Hc.
    apply list_elem_of_lookup in Hc as [i Hi].
    destruct (Forall2_lookup_r _ _ _ _ _ E1 Hi) as (a & Ha & Hcard).
    apply list_elem_of_lookup_2, list_elem_of_filter in Ha as [Hf1 Ha].
    destruct (Hboth a Ha) as (b1 & b2 & Hb1 & Hb2).
    destruct (filters_of_plugin o searchValue a b1 b2 Hb1 Hb2)
      as (_ & _ & _ & Hc1 & _).
    fold f1 in Hb1. rewrite Hf1 in Hb1. injection Hb1 as <-.
    rewrite (Hc1 eq_refl) in Hcard. by injection Hcard as <-.
  - apply mapM_Some_1 in E2. apply Forall_forall. intros c Hc.
    apply list_elem_of_lookup in Hc as [i Hi].
    destruct (Forall2_lookup_r _ _ _ _ _ E2 Hi) as (a & Ha & Hcard).
    apply list_elem_of_lookup_2, list_elem_of_filter in Ha as [Hf2 Ha].
    destruct (Hboth a Ha) as (b1 & b2 & Hb1 & Hb2).
    destruct (filters_of_plugin o searchValue a b1 b2 Hb1 Hb2)
      as (_ & _ & _ & _ & Hc2).
    fold f2 in Hb2. rewrite Hf2 in Hb2. injection Hb2 as <-.
    by destruct (Hc2 eq_refl c Hcard).
  - intros a Ha. destruct (Hboth a Ha) as (b1 & b2 & Hb1 & Hb2).
    destruct (filters_of_plugin o searchValue a b1 b2 Hb1 Hb2)
      as (Hex & Hreq & Hfil & _).
    rewrite !list_elem_of_filter. split; [|split].
    + intros [[Ht1 _] [Ht2 _]]. rewrite Hb1 in Ht1. rewrite Hb2 in Ht2.
      injection Ht1 as ->. injection Ht2 as ->. by specialize (Hex eq_refl).
    + intros Hr. split; [|done]. rewrite Hb2. by rewrite (Hreq Hr).
    + intros Hr. rewrite <- (Hfil Hr), Hb1, Hb2.
      destruct b1, b2; cbn; split; try done; try (intros _; by left);
        try (intros _; by right); by intros [[[=] _]|[[=] _]].
Qed.
(** X13. The text "No plugins meet search criteria." stands for a grid
    only when there is no plugin at all: when no plugin passes the filter
    of a grid, the grid is shown without a card. *)
Theorem no_match_gives_empty_grid (o : gmap string (list string))
    (searchValue : SearchValue) (sortedPlugins : list Plugin) :
  let first := plugins_grid inherited toLowerCase includes settings o
                 searchValue sortedPlugins in
  let second := required_grid inherited toLowerCase includes settings o
                  searchValue sortedPlugins in
  (first = Some NoPlugins ↔ sortedPlugins = []) ∧
  (second = Some NoPlugins ↔ sortedPlugins = []) ∧
  (sortedPlugins ≠ [] →
   (Forall (λ a, plugins_filter inherited toLowerCase includes settings o
                   searchValue a = Some false) sortedPlugins →
    first = Some (Cards [])) ∧
   (Forall (λ a, required_filter inherited toLowerCase includes settings o
                   searchValue a = Some false) sortedPlugins →
    second = Some (Cards []))).
Proof.
  intros first second. subst first second. unfold plugins_grid, required_grid.
  assert (∀ (f : Plugin → option bool) l,
            Forall (λ a, f a = Some false) l → filter_throwing f l = Some [])
    as Hnone.
  { intros f l Hl. induction Hl as [|a l Ha _ IH]; [done|].
    cbn. by rewrite Ha, IH. }
  destruct sortedPlugins as [|a l]; cbn [length Nat.eqb].
  - split; [done|]. split; [done|]. by intros [].
  - split; [|split]; [| |intros _; split; intros Hall].
    + split; [|done]. destruct (filter_throwing _ _); cbn; [|done].
      by destruct (mapM _ _).
    + split; [|done]. destruct (filter_throwing _ _); cbn; [|done].
      by destruct (mapM _ _).
    + by rewrite (Hnone _ _ Hall).
    + by rewrite (Hnone _ _ Hall).
Qed.
End Grids.

Lemma dependencyCheck_enabled_dependants_witness :
  let Plugins :=
    [("A", mkPlugin "A" "first" false true false (Some ["C"; "D"]));
     ("B", mkPlugin "B" "second" false false false (Some ["C"]));
     ("toString", mkPlugin "toString" "third" false true true (Some ["C"]));
     ("D", mkPlugin "D" "fourth" true true false (Some []))] in
  let o : gmap string (list string) :=
    {[ "C" := ["A"; "B"; "toString"]; "D" := ["A"] ]} in
  let st : gmap string bool := {[ "A" := true; "B" := false; "D" := true ]} in
  let st' : gmap string bool := {[ "A" := true; "D" := true ]} in
  depMap object_prototype Plugins = Some o ∧
  dependencyCheck object_prototype st "C" o = Some ["A"] ∧
  dependencyCheck object_prototype st "A" o = Some [] ∧
  dependencyCheck object_prototype st' "C" o = None.
Proof.
  intros Plugins o st st'.
  assert (depMap object_prototype Plugins = Some o) as Ho
    by (vm_compute; reflexivity).
  split; [exact Ho|].
  pose proof (dependencyCheck_enabled_dependants object_prototype st
                Plugins o "C" Ho) as H1.
  pose proof (dependencyCheck_enabled_dependants object_prototype st
                Plugins o "A" Ho) as H2.
  pose proof (dependencyCheck_enabled_dependants object_prototype st'
                Plugins o "C" Ho) as H3.
  split; [exact H1|]. split; [exact H2 | exact H3].
Defined.

Lemma grids_split_witness :
  let a := mkPlugin "A" "first" false true false (Some ["C"; "D"]) in
  let b := mkPlugin "B" "second" false false false (Some ["C"]) in
  let c := mkPlugin "C" "third" false true true None in
  let d := mkPlugin "D" "fourth" true true false (Some []) in
  let o : gmap string (list string) := {[ "C" := ["A"; "B"]; "D" := ["A"] ]} in
  let st : gmap string bool :=
    {[ "A" := true; "B" := false; "C" := true; "D" := true ]} in
  let inc := λ s t : string, bool_decide (is_Some (String.index 0 t s)) in
  let sv := mkSearchValue "ir" "all" in
  let c1 := [mkPluginCard a false None] in
  let c2 := [mkPluginCard c true (Some (TooltipDependencyList ["A"]));
             mkPluginCard d true (Some TooltipRequired)] in
  plugins_grid object_prototype (λ s, s) inc st o sv [a; b; c; d]
    = Some (Cards c1) ∧
  required_grid object_prototype (λ s, s) inc st o sv [a; b; c; d]
    = Some (Cards c2) ∧
  Forall (λ c, card_disabled c = false) c1 ∧
  Forall (λ c, card_disabled c = true) c2.
Proof.
  intros a b c d o st inc sv c1 c2.
  assert (plugins_grid object_prototype (λ s, s) inc st o sv [a; b; c; d]
          = Some (Cards c1)) as H1 by (vm_compute; reflexivity).
  assert (required_grid object_prototype (λ s, s) inc st o sv [a; b; c; d]
          = Some (Cards c2)) as H2 by (vm_compute; reflexivity).
  split; [exact H1|]. split; [exact H2|].
  destruct (grids_split object_prototype (λ s, s) inc st o sv [a; b; c; d]
              c1 c2 H1 H2) as (Hc1 & Hc2 & _).
  split; [exact Hc1 | exact Hc2].
Defined.

#[local] Set Warnings "-clear-no-such-hyp".

(** X14. [toggleEnabled] writes the flag [enabled] only to the opposite of
    what it found, and only for a plugin with an entry in the settings; it
    neither starts nor stops a plugin that has patches, starts only a
    plugin that was off and whose dependencies gave no trouble, and stops
    only one that runs; after an error message it writes nothing; and it
    asks for a restart only after writing and without starting or stopping
    the plugin, as the last thing it does.  When the plugin has an entry
    and nothing goes wrong, the flag is written. *)
Theorem toggleEnabled_is_careful (plugin : Plugin)
    (pluginSettings : option bool) (ans : answers) :
  let tr := toggleEnabled plugin pluginSettings ans in
  let wasEnabled := isEnabled pluginSettings plugin in
  (∀ b, SetEnabled b ∈ tr → b = negb wasEnabled ∧ is_Some pluginSettings) ∧
  (patches plugin = true → (StartPlugin ∉ tr) ∧ (StopPlugin ∉ tr)) ∧
  (StartPlugin ∈ tr →
   wasEnabled = false ∧ failures ans = [] ∧ restartNeeded ans = false) ∧
  (StopPlugin ∈ tr → wasEnabled = true ∧ started plugin = true) ∧
  (∀ msg, LoggerError msg ∈ tr → ∀ b, SetEnabled b ∉ tr) ∧
  (∀ n, OnRestartNeeded n ∈ tr →
   n = name plugin ∧ SetEnabled (negb wasEnabled) ∈ tr ∧
   (StartPlugin ∉ tr) ∧ (StopPlugin ∉ tr)) ∧
  (ThrowTypeError ∈ tr → pluginSettings = None) ∧
  (∀ n, OnRestartNeeded n ∈ tr →
   ∃ pre, tr = pre ++ [SetEnabled (negb wasEnabled); OnRestartNeeded n]) ∧
  (is_Some pluginSettings →
   (wasEnabled = false →
    failures ans = [] ∧
    (restartNeeded ans = true ∨ patches plugin = true ∨
     startPlugin ans = true)) →
   (wasEnabled = true →
    patches plugin = true ∨ started plugin = false ∨ stopPlugin ans = true) →
   SetEnabled (negb wasEnabled) ∈ tr).
Proof.
  intros tr wasEnabled. subst tr wasEnabled.
  unfold toggleEnabled, isEnabled, set_enabled.
  destruct plugin as [nm ds rq st pt dp]. cbn [patches started name].
  destruct ans as [rn [|f fs] sp tp]; cbn [failures restartNeeded startPlugin
                                             stopPlugin length Nat.eqb negb];
    destruct pluginSettings as [[]|], st, pt, rn, sp, tp; cbn;
    (split; [|split; [|split; [|split; [|split; [|split; [|split;
                                                           [|split]]]]]]]);
    try (set_unfold; naive_solver);
    intros n Hn; set_unfold in Hn; destruct_or?; simplify_eq;
    first [by exists [] | by exists [StartDependenciesRecursive]].
Qed.
